(** * The chat gateway of adixgpt: rate limiter, provider dispatch, storage

    A shallow embedding of [server/routes.ts] (the per-client rate limiter,
    the [POST /api/chat] handler, the administrative and the chat routes),
    [server/storage.ts] ([MemStorage]), the chat request schema of
    [shared/schema.ts] and two formatting functions of the client, followed
    by the properties the specification states about them and by further
    properties of the code.

    Conventions of the embedding:
    - JavaScript numbers that count or stamp time ([count], [resetTime],
      [Date.now()], HTTP status codes) are integers far below 2^53 and are
      modelled as [Z]; the rate limit, which an administrator can set to any
      number from 1 to 1000, is a [Js.number];
    - a JavaScript [Map] whose iteration order is never observed
      ([rateLimitMap], [chats]) is a [gmap]; the [messages] map, whose
      insertion order is observed by [getMessagesByChatId], is an association
      list with unique keys;
    - what a turn reads from outside ([Date.now()], [randomUUID()],
      [new Date()], the provider's answer to [fetch]) is collected in an
      environment record; the provider calls a turn makes are appended to a
      log kept next to the server state;
    - [Routes.chat] runs one request turn to completion; the handler gives
      way to other requests only while it awaits the provider, and
      [Suspended.chat] is the turn with what those requests do in between. *)

From stdpp Require Import base strings list gmap pretty sorting.
From Stdlib Require Import ZArith QArith Lia Ascii DecimalString.

Set Warnings "-register-all".
Close Scope Q_scope.
Local Open Scope string_scope.
Local Open Scope list_scope.
Local Open Scope Z_scope.

(** ** JavaScript values *)

Module Js.

(** The values that flow through the handlers: parsed JSON documents plus
    [undefined].  A number is carried by its canonical rendering
    ([Number.prototype.toString]): the chat handler never computes with the
    numbers of a document, it only tests their truthiness and interpolates
    them into template literals.  The one number that is computed with, the
    rate limit an administrator sets, is read off its rendering by
    [number_of] below. *)
Inductive value :=
| Undefined
| Null
| Bool (b : bool)
| Num (repr : string)
| Str (s : string)
| Arr (items : list value)
| Obj (fields : list (string * value)).

(** Induction on a value, with the property at hand for the elements of an
    array and for the property values of an object. *)
Section Induction.

Context (P : value → Prop).
Context (HUndefined : P Undefined) (HNull : P Null)
        (HBool : ∀ b, P (Bool b)) (HNum : ∀ repr, P (Num repr))
        (HStr : ∀ s, P (Str s))
        (HArr : ∀ items, Forall P items → P (Arr items))
        (HObj : ∀ fields, Forall (λ field, P field.2) fields → P (Obj fields)).

Fixpoint value_induction (v : value) : P v :=
  match v with
  | Undefined => HUndefined
  | Null => HNull
  | Bool b => HBool b
  | Num repr => HNum repr
  | Str s => HStr s
  | Arr items =>
      HArr items
        ((fix each (l : list value) : Forall P l :=
            match l with
            | [] => @List.Forall_nil _ P
            | x :: rest =>
                @List.Forall_cons _ P x rest (value_induction x) (each rest)
            end) items)
  | Obj fields =>
      HObj fields
        ((fix each (l : list (string * value)) : Forall (λ field, P field.2) l :=
            match l with
            | [] => @List.Forall_nil _ _
            | field :: rest =>
                @List.Forall_cons _ (λ field, P field.2) field rest
                  (value_induction field.2) (each rest)
            end) fields)
  end.

End Induction.

(** A computation that may throw; the payload is [error.message]. *)
Inductive throwing (A : Type) :=
| Ok (a : A)
| Thrown (message : string).
Arguments Ok {A} a.
Arguments Thrown {A} message.

(** [!!v]: undefined, null, false, 0, NaN and the empty string are falsy. *)
Definition truthy (v : value) : bool :=
  match v with
  | Undefined | Null => false
  | Bool b => b
  | Num r => negb (String.eqb r "0" || String.eqb r "NaN")
  | Str s => negb (String.eqb s "")
  | Arr _ | Obj _ => true
  end.

(** [a || b] *)
Definition or (a b : value) : value := if truthy a then a else b.

(** Own-property lookup.  An object is represented by the list of its own
    properties, each key listed once. *)
Fixpoint lookup_field (k : string) (fields : list (string * value)) : value :=
  match fields with
  | [] => Undefined
  | (k', v) :: rest => if String.eqb k k' then v else lookup_field k rest
  end.

(** The message V8 attaches to the TypeError of a property read on
    null or undefined. *)
Definition cannot_read (what prop : string) : string :=
  "Cannot read properties of " +:+ what +:+ " (reading '" +:+ prop +:+ "')".

(** [v.name], for the property names the handler reads ([endpoint], [apiKey],
    [provider], [candidates], [content], [parts], [text], [choices],
    [message], [role]): none of them is defined on the prototypes of arrays,
    strings, numbers or booleans, so only an object can answer. *)
Definition get (v : value) (name : string) : throwing value :=
  match v with
  | Undefined => Thrown (cannot_read "undefined" name)
  | Null => Thrown (cannot_read "null" name)
  | Obj fields => Ok (lookup_field name fields)
  | _ => Ok Undefined
  end.

(** [v[0]]: the first element of an array, the first UTF-16 unit of a
    string, the property ["0"] of an object. *)
Definition get0 (v : value) : throwing value :=
  match v with
  | Undefined => Thrown (cannot_read "undefined" "0")
  | Null => Thrown (cannot_read "null" "0")
  | Arr (x :: _) => Ok x
  | Str (String c _) => Ok (Str (String c ""))
  | Obj fields => Ok (lookup_field "0" fields)
  | _ => Ok Undefined
  end.

(** Optional chaining: [v?.name] and [v?.[0]] short-circuit to undefined on
    null and undefined and never throw. *)
Definition opt_get (v : value) (name : string) : value :=
  match get v name with Ok w => w | Thrown _ => Undefined end.

Definition opt_get0 (v : value) : value :=
  match get0 v with Ok w => w | Thrown _ => Undefined end.

(** [String.prototype.includes]. *)
Fixpoint includes (s sub : string) : bool :=
  String.prefix sub s ||
  match s with
  | EmptyString => false
  | String _ rest => includes rest sub
  end.

(** The message V8 attaches to the TypeError of a conversion to a primitive
    that finds neither a callable [toString] nor a [valueOf] returning one. *)
Definition cannot_convert : string := "Cannot convert object to primitive value".

(** Whether the object has the own property [k], whatever its value. *)
Definition has_own (k : string) (fields : list (string * value)) : bool :=
  existsb (λ field, String.eqb k field.1) fields.

Section Traverse.

Context {A B : Type} (f : A → throwing B).

(** [f] on each element in turn, up to the first that throws. *)
Fixpoint traverse (l : list A) : throwing (list B) :=
  match l with
  | [] => Ok []
  | x :: rest =>
      match f x with
      | Ok y =>
          match traverse rest with
          | Ok ys => Ok (y :: ys)
          | Thrown e => Thrown e
          end
      | Thrown e => Thrown e
      end
  end.

End Traverse.

(** ToString, as performed by a template literal [`${v}`].  An array joins
    the conversions of its elements with commas, null and undefined elements
    giving the empty string.  A plain object goes through
    [Object.prototype.toString] and gives "[object Object]", unless it has an
    own property [toString]: in a parsed JSON document that property is no
    function, the conversion falls back on [Object.prototype.valueOf], which
    returns the object itself, and ends in a TypeError. *)
Fixpoint to_string (v : value) : throwing string :=
  match v with
  | Undefined => Ok "undefined"
  | Null => Ok "null"
  | Bool true => Ok "true"
  | Bool false => Ok "false"
  | Num r => Ok r
  | Str s => Ok s
  | Arr items =>
      let elem x :=
        match x with Undefined | Null => Ok "" | _ => to_string x end in
      match traverse elem items with
      | Ok strings => Ok (String.concat "," strings)
      | Thrown e => Thrown e
      end
  | Obj fields =>
      if has_own "toString" fields then Thrown cannot_convert
      else Ok "[object Object]"
  end.

(** *** Numbers that are computed with

    The rate limit is the one number of a request that the server compares
    and keeps.  A number is a rational, an infinity or NaN; every finite
    double is a rational, and the comparisons below are those of the doubles. *)
Inductive number :=
| Finite (q : Q)
| Infinite (negative : bool)
| NaN.

Definition of_Z (n : Z) : number := Finite (inject_Z n).

(** [a < b]; false as soon as NaN is involved. *)
Definition lt (a b : number) : bool :=
  match a, b with
  | NaN, _ | _, NaN => false
  | Finite x, Finite y => negb (Qle_bool y x)
  | Finite _, Infinite negative => negb negative
  | Infinite negative, Finite _ => negative
  | Infinite a', Infinite b' => a' && negb b'
  end.

(** [a > b] *)
Definition gt (a b : number) : bool := lt b a.

(** [a >= b]: not [a < b], and false as soon as NaN is involved. *)
Definition ge (a b : number) : bool :=
  match a, b with
  | NaN, _ | _, NaN => false
  | _, _ => negb (lt a b)
  end.

(** The text before the first occurrence of [c], and the text after it
    when there is one. *)
Fixpoint split_at (c : ascii) (s : string) : string * option string :=
  match s with
  | EmptyString => (EmptyString, None)
  | String a rest =>
      if Ascii.eqb a c then (EmptyString, Some rest)
      else let '(before, after) := split_at c rest in (String a before, after)
  end.

(** A non-empty run of decimal digits. *)
Definition digits (s : string) : option Z :=
  Z.of_uint <$> NilZero.uint_of_string s.

(** The value of [whole], [whole.fraction], [whole e±exponent] and
    [whole.fraction e±exponent], the forms in which
    [Number.prototype.toString] renders a positive finite number. *)
Definition unsigned (s : string) : option Q :=
  let '(mantissa, exponent) := split_at "e" s in
  let '(whole, fraction) := split_at "." mantissa in
  w ← digits whole;
  f ← match fraction with
      | Some d => digits d
      | None => Some 0
      end;
  e ← match exponent with
      | None => Some 0
      | Some (String "+" d) => digits d
      | Some (String "-" d) => Z.opp <$> digits d
      | Some _ => None
      end;
  let scale := 10 ^ Z.of_nat (String.length (default EmptyString fraction)) in
  Some (Qred (Qmult (Qmake (w * scale + f) (Z.to_pos scale))
                    (Qpower (inject_Z 10) e))).

(** The number that [Num repr] carries, read off its rendering.  The
    rendering of a double is the shortest decimal that reads back as that
    double, and an integer below 2^53 is a double: the decimal and the
    double compare alike with every such integer, which is all the server
    does with the number.  A text that renders no number is read as NaN. *)
Definition number_of (repr : string) : number :=
  if String.eqb repr "Infinity" then Infinite false
  else if String.eqb repr "-Infinity" then Infinite true
  else match repr with
       | String "-" rest =>
           match unsigned rest with
           | Some q => Finite (Qred (Qopp q))
           | None => NaN
           end
       | _ =>
           match unsigned repr with
           | Some q => Finite q
           | None => NaN
           end
       end.

End Js.

(** The counters and the clock are integers; where they meet the limit they
    are read as numbers. *)
Coercion Js.of_Z : Z >-> Js.number.

Arguments Js.lt : simpl never.
Arguments Js.gt : simpl never.
Arguments Js.ge : simpl never.
Arguments Js.number_of : simpl never.

(** ** Rate limiter ([server/routes.ts], lines 7-26) *)

Record RateLimitEntry := { count : Z; resetTime : Z }.

Definition fresh_window (now : Z) : RateLimitEntry :=
  {| count := 1; resetTime := now + 60000 |}.

(** [checkRateLimit(ip, limit)], with the value of [Date.now()] and the
    module-level [rateLimitMap] made explicit.  [userLimit.count++] mutates
    the entry object held by the map, hence the re-insertion. *)
Definition checkRateLimit (now : Z) (ip : string) (limit : Js.number)
    (rateLimitMap : gmap string RateLimitEntry)
  : bool * gmap string RateLimitEntry :=
  match rateLimitMap !! ip with
  | None => (true, <[ip := fresh_window now]> rateLimitMap)
  | Some userLimit =>
      if now >? resetTime userLimit then
        (true, <[ip := fresh_window now]> rateLimitMap)
      else if Js.ge (count userLimit) limit then
        (false, rateLimitMap)
      else
        (true, <[ip := {| count := count userLimit + 1;
                          resetTime := resetTime userLimit |}]> rateLimitMap)
  end.

(** Successive calls for one client, at the given clock readings. *)
Fixpoint checkRateLimit_calls (times : list Z) (ip : string) (limit : Js.number)
    (rateLimitMap : gmap string RateLimitEntry)
  : list bool * gmap string RateLimitEntry :=
  match times with
  | [] => ([], rateLimitMap)
  | now :: later =>
      let '(allowed, m1) := checkRateLimit now ip limit rateLimitMap in
      let '(rest, m2) := checkRateLimit_calls later ip limit m1 in
      (allowed :: rest, m2)
  end.

(** ** Storage ([server/storage.ts]) *)

Inductive Role := user | assistant.

#[global] Instance Role_eq_dec : EqDecision Role.
Proof. solve_decision. Defined.

Module Storage.

Record Chat := {
  chat_id : string;
  name : Js.value;
  createdAt : Z;
  userId : option string }.

Record Message := {
  id : string;
  chatId : string;
  role : Role;
  content : Js.value;
  model : option string;
  timestamp : Z }.

Record InsertMessage := {
  ins_chatId : string;
  ins_role : Role;
  ins_content : Js.value;
  ins_model : option string }.

(** The [messages] map, in insertion order.  [Map.prototype.set] on a key
    that is present replaces the value and keeps the entry's position. *)
Fixpoint map_set {V} (k : string) (v : V) (entries : list (string * V))
  : list (string * V) :=
  match entries with
  | [] => [(k, v)]
  | (k', v') :: rest =>
      if String.eqb k k' then (k, v) :: rest else (k', v') :: map_set k v rest
  end.

Definition map_delete {V} (k : string) (entries : list (string * V))
  : list (string * V) :=
  filter (λ e, e.1 ≠ k) entries.

Record MemStorage := {
  chats : gmap string Chat;
  messages : list (string * Message) }.

Definition empty : MemStorage := {| chats := ∅; messages := [] |}.

Definition getChat (key : string) (st : MemStorage) : option Chat :=
  chats st !! key.

(** [deleteChat]: the ids to delete are collected first, then each is
    removed from the map. *)
Definition deleteChat (key : string) (st : MemStorage) : MemStorage :=
  let messagesToDelete :=
    (filter (λ e, chatId e.2 = key) (messages st)).*1 in
  {| chats := delete key (chats st);
     messages := foldl (λ m messageId, map_delete messageId m)
                       (messages st) messagesToDelete |}.

(** [Array.prototype.sort] with the comparator [a.timestamp - b.timestamp]:
    a stable sort, ascending in the timestamp. *)
Fixpoint insert_by_timestamp (x : Message) (sorted : list Message)
  : list Message :=
  match sorted with
  | [] => [x]
  | y :: rest =>
      if timestamp x <=? timestamp y then x :: sorted
      else y :: insert_by_timestamp x rest
  end.

Definition sort_by_timestamp (l : list Message) : list Message :=
  foldr insert_by_timestamp [] l.

Definition getMessagesByChatId (key : string) (st : MemStorage)
  : list Message :=
  sort_by_timestamp (filter (λ m, chatId m = key) (messages st).*2).

(** [createMessage], with the results of [randomUUID()] and [new Date()]
    made explicit.  [insertMessage.model || null] turns an empty model name
    into null. *)
Definition createMessage (uuid : string) (now : Z) (insertMessage : InsertMessage)
    (st : MemStorage) : Message * MemStorage :=
  let message :=
    {| id := uuid;
       chatId := ins_chatId insertMessage;
       role := ins_role insertMessage;
       content := ins_content insertMessage;
       model := match ins_model insertMessage with
                | Some m => if String.eqb m "" then None else Some m
                | None => None
                end;
       timestamp := now |} in
  (message, {| chats := chats st;
               messages := map_set uuid message (messages st) |}).

(** The representation invariant of the [messages] map: keys are unique. *)
Definition wf (st : MemStorage) : Prop :=
  NoDup (messages st).*1.

End Storage.

(** ** The chat request schema ([shared/schema.ts], lines 79-87)

    [chatRequestSchema.safeParse], following zod: a [z.object] reads the
    declared keys of a plain object and drops the others, an absent key reads
    as undefined, every failing leaf contributes one issue, and the parse
    succeeds when no issue was raised. *)

Module Schema.

Inductive PathElem := Key (k : string) | Index (i : nat).
Inductive IssueCode := invalid_type | invalid_enum_value.
Record ZodIssue := { code : IssueCode; path : list PathElem }.

Inductive parsed (A : Type) :=
| Valid (data : A)
| Invalid (errors : list ZodIssue).
Arguments Valid {A} data.
Arguments Invalid {A} errors.

Definition errors_of {A} (p : parsed A) : list ZodIssue :=
  match p with Valid _ => [] | Invalid errors => errors end.

Record ChatMessage := { role : Role; content : string }.

Record ChatRequest := {
  chatId : string;
  messages : list ChatMessage;
  model : option string }.

Definition issue (c : IssueCode) (p : list PathElem) : list ZodIssue :=
  [{| code := c; path := p |}].

(** [z.string()] *)
Definition parse_string (p : list PathElem) (v : Js.value) : parsed string :=
  match v with
  | Js.Str s => Valid s
  | _ => Invalid (issue invalid_type p)
  end.

(** [z.string().optional()]: undefined passes, null does not. *)
Definition parse_optional_string (p : list PathElem) (v : Js.value)
  : parsed (option string) :=
  match v with
  | Js.Undefined => Valid None
  | Js.Str s => Valid (Some s)
  | _ => Invalid (issue invalid_type p)
  end.

(** [z.enum(["user", "assistant"])] *)
Definition parse_role (p : list PathElem) (v : Js.value) : parsed Role :=
  match v with
  | Js.Str s =>
      if String.eqb s "user" then Valid user
      else if String.eqb s "assistant" then Valid assistant
      else Invalid (issue invalid_enum_value p)
  | _ => Invalid (issue invalid_type p)
  end.

(** [z.object({ role, content })] *)
Definition parse_message (p : list PathElem) (v : Js.value) : parsed ChatMessage :=
  match v with
  | Js.Obj fields =>
      let r := parse_role (p ++ [Key "role"]) (Js.lookup_field "role" fields) in
      let c := parse_string (p ++ [Key "content"]) (Js.lookup_field "content" fields) in
      match r, c with
      | Valid r', Valid c' => Valid {| role := r'; content := c' |}
      | _, _ => Invalid (errors_of r ++ errors_of c)
      end
  | _ => Invalid (issue invalid_type p)
  end.

(** The elements of a [z.array(...)], from index [i] on. *)
Fixpoint parse_items (p : list PathElem) (i : nat) (items : list Js.value)
  : parsed (list ChatMessage) :=
  match items with
  | [] => Valid []
  | x :: rest =>
      let h := parse_message (p ++ [Index i]) x in
      let t := parse_items p (S i) rest in
      match h, t with
      | Valid h', Valid t' => Valid (h' :: t')
      | _, _ => Invalid (errors_of h ++ errors_of t)
      end
  end.

Definition parse_array (p : list PathElem) (v : Js.value)
  : parsed (list ChatMessage) :=
  match v with
  | Js.Arr items => parse_items p 0 items
  | _ => Invalid (issue invalid_type p)
  end.

Definition safeParse (body : Js.value) : parsed ChatRequest :=
  match body with
  | Js.Obj fields =>
      let c := parse_string [Key "chatId"] (Js.lookup_field "chatId" fields) in
      let ms := parse_array [Key "messages"] (Js.lookup_field "messages" fields) in
      let m := parse_optional_string [Key "model"] (Js.lookup_field "model" fields) in
      match c, ms, m with
      | Valid c', Valid ms', Valid m' =>
          Valid {| chatId := c'; messages := ms'; model := m' |}
      | _, _, _ => Invalid (errors_of c ++ errors_of ms ++ errors_of m)
      end
  | _ => Invalid (issue invalid_type [])
  end.

End Schema.

(** ** The [POST /api/chat] route ([server/routes.ts], lines 140-311) *)

Module Routes.

(** *** What the handler exchanges with the outside *)

Record Request := {
  ip : option string;              (* req.ip *)
  remoteAddress : option string;   (* req.socket.remoteAddress *)
  body : Js.value }.               (* req.body *)

Inductive Details :=
| Issues (errors : list Schema.ZodIssue)
| Text (s : string).

(** The JSON documents the handler answers with: [{error}],
    [{error, details}] and [{message, messageId, model}]. *)
Inductive ResponseBody :=
| Error (error : string) (details : option Details)
| Reply (message : Js.value) (messageId : string) (model : string).

Record Response := { status : Z; json : ResponseBody }.

(** The arguments of [fetch(apiUrl, { method: 'POST', headers, body })];
    [payload] is the object handed to [JSON.stringify]. *)
Record OutboundRequest := {
  apiUrl : string;
  headers : list (string * Js.value);
  payload : Js.value }.

(** What [fetch] resolves to: a rejection (network failure), or a response
    with its status, its body as [text()] returns it and as [json()]
    returns it ([json()] throws on a body that is not JSON). *)
Inductive FetchResult :=
| Rejected (message : string)
| Fetched (status : Z) (text : string) (json : Js.throwing Js.value).

(** [response.ok] *)
Definition ok (status : Z) : bool := (200 <=? status) && (status <=? 299).

(** Everything one turn of the handler reads from its environment. *)
Record Env := {
  GITHUB_TOKEN : string;           (* process.env.GITHUB_TOKEN || "" *)
  date_now : Z;                    (* Date.now() in checkRateLimit *)
  user_uuid : string;              (* randomUUID() for the user message *)
  user_date : Z;                   (* new Date() for the user message *)
  fetch : OutboundRequest → FetchResult;
  assistant_uuid : string;         (* randomUUID() for the assistant message *)
  assistant_date : Z }.            (* new Date() for the assistant message *)

(** The state of the server process, and the log of the provider calls
    issued so far. *)
Record World := {
  rateLimitMap : gmap string RateLimitEntry;
  globalRateLimit : Js.number;
  storage : Storage.MemStorage;
  outbound : list OutboundRequest }.

(** *** The handler monad: state, early [return res...], exceptions *)

Inductive outcome (A : Type) :=
| Next (a : A)
| Sent (r : Response)
| Raised (message : string).
Arguments Next {A} a.
Arguments Sent {A} r.
Arguments Raised {A} message.

Definition handler (A : Type) : Type := World → outcome A * World.

#[global] Instance handler_ret : MRet handler := λ A a w, (Next a, w).

#[global] Instance handler_bind : MBind handler := λ A B f m w,
  match m w with
  | (Next a, w') => f a w'
  | (Sent r, w') => (Sent r, w')
  | (Raised e, w') => (Raised e, w')
  end.

(** Code that throws but touches no state. *)
#[global] Instance throwing_ret : MRet Js.throwing := λ A a, Js.Ok a.

#[global] Instance throwing_bind : MBind Js.throwing := λ A B f c,
  match c with
  | Js.Ok a => f a
  | Js.Thrown e => Js.Thrown e
  end.

(** [return res.status(code).json(doc)] *)
Definition send {A} (code : Z) (doc : ResponseBody) : handler A :=
  λ w, (Sent {| status := code; json := doc |}, w).

Definition lift {A} (c : Js.throwing A) : handler A := λ w,
  match c with
  | Js.Ok a => (Next a, w)
  | Js.Thrown e => (Raised e, w)
  end.

Definition set_rateLimitMap (m : gmap string RateLimitEntry) (w : World) : World :=
  {| rateLimitMap := m;
     globalRateLimit := globalRateLimit w;
     storage := storage w;
     outbound := outbound w |}.

Definition set_storage (st : Storage.MemStorage) (w : World) : World :=
  {| rateLimitMap := rateLimitMap w;
     globalRateLimit := globalRateLimit w;
     storage := st;
     outbound := outbound w |}.

Definition log (r : OutboundRequest) (w : World) : World :=
  {| rateLimitMap := rateLimitMap w;
     globalRateLimit := globalRateLimit w;
     storage := storage w;
     outbound := outbound w ++ [r] |}.

(** [checkRateLimit(clientIp)]: the limit defaults to [globalRateLimit]. *)
Definition rate_limit (now : Z) (clientIp : string) : handler bool := λ w,
  let '(allowed, m) :=
    checkRateLimit now clientIp (globalRateLimit w) (rateLimitMap w) in
  (Next allowed, set_rateLimitMap m w).

Definition getChat (key : string) : handler (option Storage.Chat) :=
  λ w, (Next (Storage.getChat key (storage w)), w).

Definition createMessage (uuid : string) (now : Z) (m : Storage.InsertMessage)
  : handler Storage.Message := λ w,
  let '(saved, st) := Storage.createMessage uuid now m (storage w) in
  (Next saved, set_storage st w).

(** [await fetch(...)]: the call is logged, a rejection is thrown. *)
Definition call (env : Env) (r : OutboundRequest)
  : handler (Z * string * Js.throwing Js.value) := λ w,
  match fetch env r with
  | Rejected e => (Raised e, log r w)
  | Fetched code text document => (Next (code, text, document), log r w)
  end.

(** *** Provider dispatch *)

Definition DEFAULT_ENDPOINTS_github : string := "https://models.inference.ai.azure.com".

(** [v === "literal"] *)
Definition strict_eq (v : Js.value) (literal : string) : bool :=
  match v with
  | Js.Str s => String.eqb s literal
  | _ => false
  end.

(** [element.field], where [element] is [messages[messages.length - 1]]:
    undefined for an empty array, and then the read is a TypeError. *)
Definition read {A} (element : option Schema.ChatMessage) (field : string)
    (proj : Schema.ChatMessage → A) : Js.throwing A :=
  match element with
  | Some m => Js.Ok (proj m)
  | None => Js.Thrown (Js.cannot_read "undefined" field)
  end.

(** [`Bearer ${providerApiKey}`] *)
Definition bearer (providerApiKey : Js.value) : Js.throwing Js.value :=
  key ← Js.to_string providerApiKey;
  mret (Js.Str ("Bearer " +:+ key)).

Definition role_name (r : Role) : string :=
  match r with user => "user" | assistant => "assistant" end.

(** Lines 203-241: the URL, headers and body for the provider.  The
    template literals convert the endpoint (line 204, for every provider)
    and the API key (where it is interpolated) to strings, and throw when
    the value has no conversion. *)
Definition prepare_request (provider providerEndpoint providerApiKey : Js.value)
    (model : string) (messages : list Schema.ChatMessage)
  : Js.throwing OutboundRequest :=
  endpoint ← Js.to_string providerEndpoint;
  let apiUrl := endpoint +:+ "/chat/completions" in
  let headers := [("Content-Type", Js.Str "application/json")] in
  let requestBody := [
    ("model", Js.Str model);
    ("messages", Js.Arr (List.map (λ msg,
        Js.Obj [("role", Js.Str (role_name (Schema.role msg)));
                ("content", Js.Str (Schema.content msg))]) messages)) ] in
  let openai_compatible :=
    authorization ← bearer providerApiKey;
    mret {| apiUrl := apiUrl;
            headers := headers ++ [("Authorization", authorization)];
            payload := Js.Obj (requestBody
                               ++ [("max_completion_tokens", Js.Num "4000")]) |} in
  let bearer_max_tokens :=
    authorization ← bearer providerApiKey;
    mret {| apiUrl := apiUrl;
            headers := headers ++ [("Authorization", authorization)];
            payload := Js.Obj (requestBody ++ [("max_tokens", Js.Num "4000")]) |} in
  if strict_eq provider "github" || strict_eq provider "openai" then
    openai_compatible
  else if strict_eq provider "anthropic" then
    Js.Ok {| apiUrl := apiUrl;
             headers := headers ++ [("x-api-key", providerApiKey);
                                    ("anthropic-version", Js.Str "2023-06-01")];
             payload := Js.Obj (requestBody ++ [("max_tokens", Js.Num "4000")]) |}
  else if strict_eq provider "cohere" then
    bearer_max_tokens
  else if strict_eq provider "mistral" then
    bearer_max_tokens
  else if strict_eq provider "gemini" then
    key ← Js.to_string providerApiKey;
    text ← read (last messages) "content" Schema.content;
    mret {| apiUrl := endpoint +:+ "/models/" +:+ model
                      +:+ ":generateContent?key=" +:+ key;
            headers := headers;
            payload := Js.Obj [("contents", Js.Arr [
                         Js.Obj [("parts", Js.Arr [
                           Js.Obj [("text", Js.Str text)]])]])] |}
  else
    openai_compatible.

(** Lines 262-270: the assistant's text in the provider's response. *)
Definition extract (provider responseData : Js.value) : Js.throwing Js.value :=
  if strict_eq provider "gemini" then
    match Js.get responseData "candidates" with
    | Js.Ok candidates =>
        Js.Ok (Js.opt_get (Js.opt_get0 (Js.opt_get (Js.opt_get
                 (Js.opt_get0 candidates) "content") "parts")) "text")
    | Js.Thrown e => Js.Thrown e
    end
  else if strict_eq provider "anthropic" then
    match Js.get responseData "content" with
    | Js.Ok content => Js.Ok (Js.opt_get (Js.opt_get0 content) "text")
    | Js.Thrown e => Js.Thrown e
    end
  else
    match Js.get responseData "choices" with
    | Js.Ok choices =>
        Js.Ok (Js.opt_get (Js.opt_get (Js.opt_get0 choices) "message") "content")
    | Js.Thrown e => Js.Thrown e
    end.

(** *** The handler *)

(** [a || b] on strings that may be undefined. *)
Definition or_else (a : option string) (b : string) : string :=
  match a with
  | Some s => if String.eqb s "" then b else s
  | None => b
  end.

(** [req.ip || req.socket.remoteAddress || "unknown"] *)
Definition clientIp (req : Request) : string :=
  or_else (ip req) (or_else (remoteAddress req) "unknown").

Definition rate_limit_exceeded : ResponseBody :=
  Error "Rate limit exceeded. Please wait before sending another message." None.

(** Lines 187-196: store the user message. *)
Definition store_user_message (env : Env) (chatId : string)
    (messages : list Schema.ChatMessage) : handler () :=
  let userMessage := last messages in
  role ← lift (read userMessage "role" Schema.role);
  if decide (role = user) then
    content ← lift (read userMessage "content" Schema.content);
    _ ← createMessage (user_uuid env) (user_date env)
          {| Storage.ins_chatId := chatId;
             Storage.ins_role := user;
             Storage.ins_content := Js.Str content;
             Storage.ins_model := None |};
    mret ()
  else mret ().

(** Lines 198-201: the provider configuration sent by the frontend, as
    (provider, providerEndpoint, providerApiKey). *)
Definition provider_config (env : Env) (req : Request)
  : Js.throwing (Js.value * Js.value * Js.value) :=
  endpoint ← Js.get (body req) "endpoint";
  apiKey ← Js.get (body req) "apiKey";
  provider ← Js.get (body req) "provider";
  mret (Js.or provider (Js.Str "github"),
        Js.or endpoint (Js.Str DEFAULT_ENDPOINTS_github),
        Js.or apiKey (Js.Str (GITHUB_TOKEN env))).

(** Lines 250-289: from the provider's response to the reply. *)
Definition answer (env : Env) (chatId model : string) (provider : Js.value)
    (apiResponse : Z * string * Js.throwing Js.value) : handler Response :=
  let '(code, errorText, document) := apiResponse in
  if negb (ok code) then
    send code (Error "Failed to get response from AI model" (Some (Text errorText)))
  else
    responseData ← lift document;
    assistantMessage ← lift (extract provider responseData);
    if negb (Js.truthy assistantMessage) then
      send 500 (Error "No response from AI model" None)
    else
      savedMessage ← createMessage (assistant_uuid env) (assistant_date env)
                       {| Storage.ins_chatId := chatId;
                          Storage.ins_role := assistant;
                          Storage.ins_content := assistantMessage;
                          Storage.ins_model := Some model |};
      send 200 (Reply assistantMessage (Storage.id savedMessage) model).

(** Lines 187-289: the turn of a validated request on an existing chat. *)
Definition turn (env : Env) (req : Request) (data : Schema.ChatRequest)
  : handler Response :=
  let chatId := Schema.chatId data in
  let messages := Schema.messages data in
  let model := default "gpt-5" (Schema.model data) in
  _ ← store_user_message env chatId messages;
  config ← lift (provider_config env req);
  let '(provider, providerEndpoint, providerApiKey) := config in
  request ← lift (prepare_request provider providerEndpoint providerApiKey
                    model messages);
  apiResponse ← call env request;
  answer env chatId model provider apiResponse.

(** Lines 170-185: validation and the lookup of the chat. *)
Definition validated (env : Env) (req : Request) : handler Response :=
  match Schema.safeParse (body req) with
  | Schema.Invalid errors =>
      send 400 (Error "Invalid request format" (Some (Issues errors)))
  | Schema.Valid data =>
      chat ← getChat (Schema.chatId data);
      match chat with
      | None => send 404 (Error "Chat not found" None)
      | Some _ => turn env req data
      end
  end.

(** The body of the [try] block, lines 161-289. *)
Definition chat_try (env : Env) (req : Request) : handler Response :=
  allowed ← rate_limit (date_now env) (clientIp req);
  if negb allowed then send 429 rate_limit_exceeded
  else validated env req.

(** The [catch] block, lines 291-310. *)
Definition chat_catch (message : string) : Response :=
  if Js.includes message "quota" || Js.includes message "rate limit" then
    {| status := 429;
       json := Error "API rate limit exceeded. Please wait before sending another message." None |}
  else if Js.includes message "unauthorized" || Js.includes message "invalid" then
    {| status := 401;
       json := Error "Invalid API key. Please check your API key permissions." None |}
  else
    {| status := 500;
       json := Error "Failed to process chat request" (Some (Text message)) |}.

(** [try { ... } catch (error) { ... }]: what was sent, or what the catch
    block sends for the error thrown. *)
Definition settle (run : outcome Response * World) : Response * World :=
  match run with
  | (Next r, w') => (r, w')
  | (Sent r, w') => (r, w')
  | (Raised message, w') => (chat_catch message, w')
  end.

(** [app.post("/api/chat", ...)]: one turn, from the request to the response
    sent and the world it leaves behind. *)
Definition chat (env : Env) (req : Request) (w : World) : Response * World :=
  settle (chat_try env req w).

(** The store once lines 187-196 have run on a request whose last message
    is [userMessage]. *)
Definition user_message_stored (env : Env) (chatId : string)
    (userMessage : Schema.ChatMessage) (st : Storage.MemStorage)
  : Storage.MemStorage :=
  if decide (Schema.role userMessage = user) then
    (Storage.createMessage (user_uuid env) (user_date env)
       {| Storage.ins_chatId := chatId;
          Storage.ins_role := user;
          Storage.ins_content := Js.Str (Schema.content userMessage);
          Storage.ins_model := None |} st).2
  else st.

(** What the catch block answers when a template literal of lines 203-241
    meets a value without a conversion. *)
Definition conversion_failed : Response :=
  {| status := 500;
     json := Error "Failed to process chat request"
               (Some (Text Js.cannot_convert)) |}.

(** How far a turn gets: it stops before anything is stored or sent to a
    provider; or it stores the user message and fails to build the request;
    or it stores the user message and reaches the provider call. *)
Variant progress (env : Env) (req : Request) (w : World) : Prop :=
| Stopped
    (Hworld : (chat env req w).2
              = set_rateLimitMap (rateLimitMap (chat env req w).2) w)
    (Hstatus : status (chat env req w).1 ≠ 200)
| Unprepared m data c um provider endpoint apiKey
    (Hgate : checkRateLimit (date_now env) (clientIp req)
               (globalRateLimit w) (rateLimitMap w) = (true, m))
    (Hvalid : Schema.safeParse (body req) = Schema.Valid data)
    (Hchat : Storage.getChat (Schema.chatId data) (storage w) = Some c)
    (Hlast : last (Schema.messages data) = Some um)
    (Hconfig : provider_config env req = Js.Ok (provider, endpoint, apiKey))
    (Hrequest : prepare_request provider endpoint apiKey
                  (default "gpt-5" (Schema.model data)) (Schema.messages data)
                = Js.Thrown Js.cannot_convert)
    (Hrun : chat env req w =
      (conversion_failed,
       set_storage
         (user_message_stored env (Schema.chatId data) um (storage w))
         (set_rateLimitMap m w)))
| Called m data c um provider endpoint apiKey r
    (Hgate : checkRateLimit (date_now env) (clientIp req)
               (globalRateLimit w) (rateLimitMap w) = (true, m))
    (Hvalid : Schema.safeParse (body req) = Schema.Valid data)
    (Hchat : Storage.getChat (Schema.chatId data) (storage w) = Some c)
    (Hlast : last (Schema.messages data) = Some um)
    (Hconfig : provider_config env req = Js.Ok (provider, endpoint, apiKey))
    (Hrequest : prepare_request provider endpoint apiKey
                  (default "gpt-5" (Schema.model data)) (Schema.messages data)
                = Js.Ok r)
    (Hrun : chat env req w =
      let w' := log r (set_storage
                  (user_message_stored env (Schema.chatId data) um (storage w))
                  (set_rateLimitMap m w)) in
      settle match fetch env r with
             | Rejected e => (Raised e, w')
             | Fetched code text document =>
                 answer env (Schema.chatId data)
                   (default "gpt-5" (Schema.model data)) provider
                   (code, text, document) w'
             end).

End Routes.

(** ** A small deployment, for concrete runs *)

Module Example.

Import Routes.

Definition conversation : Storage.Chat :=
  {| Storage.chat_id := "c1"; Storage.name := Js.Str "First chat";
     Storage.createdAt := 0; Storage.userId := None |}.

(** One chat, no message yet, no client seen yet, the default limit. *)
Definition world : World :=
  {| rateLimitMap := ∅;
     globalRateLimit := 3;
     storage := {| Storage.chats := {["c1" := conversation]};
                   Storage.messages := [] |};
     outbound := [] |}.

(** The same deployment once the client has used up its three requests in
    the window that ends at 61000. *)
Definition exhausted : World :=
  set_rateLimitMap (<["203.0.113.7" := {| count := 3; resetTime := 61000 |}]> ∅)
    world.

(** A turn at time 1000 in which the provider answers [vendor]. *)
Definition env (vendor : FetchResult) : Env :=
  {| GITHUB_TOKEN := "ghp_token";
     date_now := 1000;
     user_uuid := "uuid-1";
     user_date := 1001;
     fetch := λ _, vendor;
     assistant_uuid := "uuid-2";
     assistant_date := 1900 |}.

Definition message (role content : string) : Js.value :=
  Js.Obj [("role", Js.Str role); ("content", Js.Str content)].

Definition request (chatId : string) (messages : list Js.value)
    (extra : list (string * Js.value)) : Request :=
  {| ip := Some "203.0.113.7";
     remoteAddress := None;
     body := Js.Obj ([("chatId", Js.Str chatId); ("messages", Js.Arr messages)]
                     ++ extra) |}.

(** An OpenAI-style completion carrying [text]. *)
Definition completion (text : string) : FetchResult :=
  Fetched 200 "" (Js.Ok (Js.Obj [("choices", Js.Arr [
    Js.Obj [("message", Js.Obj [("content", Js.Str text)])]])])).

End Example.

(** ** The rest of [MemStorage] ([server/storage.ts]) *)

Module MemStorage.

Import Storage.

Record InsertChat := { ins_id : string; ins_name : string }.

(** [createChat], lines 59-67, with the result of [new Date()] made
    explicit.  The chat is filed under its own id, replacing a chat that
    already has it. *)
Definition createChat (now : Z) (insertChat : InsertChat) (st : MemStorage)
  : Chat * MemStorage :=
  let chat :=
    {| chat_id := ins_id insertChat;
       name := Js.Str (ins_name insertChat);
       createdAt := now;
       userId := None |} in
  (chat, {| chats := <[chat_id chat := chat]> (chats st);
            messages := messages st |}).

(** [deleteMessagesByChatId], lines 97-103. *)
Definition deleteMessagesByChatId (key : string) (st : MemStorage) : MemStorage :=
  let messagesToDelete :=
    (filter (λ e, chatId e.2 = key) (messages st)).*1 in
  {| chats := chats st;
     messages := foldl (λ m messageId, map_delete messageId m)
                       (messages st) messagesToDelete |}.

(** What [getChatsByUserId()] returns when called without a user id, lines
    53-57: every chat of the map, once.  The order (creation time,
    newest first, then insertion order) is not kept by the [gmap] that holds
    the chats, so the callers below take the listing as an argument. *)
Definition lists_chats (listed : list Chat) (st : MemStorage) : Prop :=
  listed ≡ₚ (map_to_list (chats st)).*2.

(** The order [getMessagesByChatId] sorts by. *)
Definition older (a b : Message) : Prop := timestamp a ≤ timestamp b.

(** Every chat is filed under its own id, as [createChat] does. *)
Definition chats_keyed (st : MemStorage) : Prop :=
  ∀ k c, chats st !! k = Some c → chat_id c = k.

(** Every stored message belongs to a chat that exists. *)
Definition integrity (st : MemStorage) : Prop :=
  ∀ e, e ∈ messages st → is_Some (chats st !! chatId e.2).

(** *** Users, lines 32-47

    The [users] map is independent of the chats and the messages.  Its
    insertion order is observed by [getUserByUsername], which scans the
    values. *)

Record InsertUser := { ins_username : string; ins_password : string }.

Record User := { user_id : string; username : string; password : string }.

(** [Map.prototype.get] on a map kept in insertion order. *)
Fixpoint map_get {V} (k : string) (entries : list (string * V)) : option V :=
  match entries with
  | [] => None
  | (k', v) :: rest => if String.eqb k k' then Some v else map_get k rest
  end.

Definition getUser (key : string) (users : list (string * User)) : option User :=
  map_get key users.

Definition getUserByUsername (wanted : string) (users : list (string * User))
  : option User :=
  List.find (λ user, String.eqb (username user) wanted) users.*2.

(** [createUser], with the result of [randomUUID()] made explicit. *)
Definition createUser (uuid : string) (insertUser : InsertUser)
    (users : list (string * User)) : User * list (string * User) :=
  let created :=
    {| user_id := uuid;
       username := ins_username insertUser;
       password := ins_password insertUser |} in
  (created, map_set uuid created users).

End MemStorage.

(** ** The other routes ([server/routes.ts], lines 29-125 and 339-359) *)

Module Api.

Import Routes.

(** The JSON documents these routes answer with. *)
Inductive Body :=
| Failure (error : string)                       (* {error} *)
| RateLimitChanged (newRateLimit : Js.number)    (* {success: true, newRateLimit} *)
| CurrentRateLimit (rateLimit : Js.number)       (* {rateLimit} *)
| Stats (totalChats totalMessages : nat)
        (currentRateLimit : Js.number) (activeUsers : nat)
| Cleared (message : string)                     (* {success: true, message} *)
| BroadcastSent (message : string) (recipients : nat)
| Deleted                                        (* {success: true} *)
| MessageList (messages : list Storage.Message).

Record Reply := { code : Z; document : Body }.

Definition unauthorized : Reply :=
  {| code := 401; document := Failure "Unauthorized access" |}.

Definition set_globalRateLimit (limit : Js.number) (w : World) : World :=
  {| rateLimitMap := rateLimitMap w;
     globalRateLimit := limit;
     storage := storage w;
     outbound := outbound w |}.

(** [const { a, b } = value]: the two properties, or a TypeError when the
    value is null or undefined. *)
Definition destructure (value : Js.value) (a b : string)
  : Js.throwing (Js.value * Js.value) :=
  x ← Js.get value a;
  y ← Js.get value b;
  mret (x, y).

(** [POST /api/admin/rate-limit], lines 30-47.  Any number from 1 to 1000
    is taken, whole or not; NaN passes both comparisons. *)
Definition post_rate_limit (body : Js.value) (w : World) : Reply * World :=
  match destructure body "secretCode" "rateLimit" with
  | Js.Thrown _ =>
      ({| code := 500; document := Failure "Failed to update rate limit" |}, w)
  | Js.Ok (secretCode, rateLimit) =>
      let out_of_range :=
        {| code := 400;
           document := Failure "Rate limit must be a number between 1 and 1000" |} in
      if negb (strict_eq secretCode "HYDROAI") then (unauthorized, w)
      else match rateLimit with
      | Js.Num repr =>
          let limit := Js.number_of repr in
          if Js.lt limit 1 || Js.gt limit 1000 then (out_of_range, w)
          else ({| code := 200; document := RateLimitChanged limit |},
                set_globalRateLimit limit w)
      | _ => (out_of_range, w)
      end
  end.

(** [GET /api/admin/rate-limit], lines 50-58; [query] holds the properties
    of [req.query]. *)
Definition get_rate_limit (query : list (string * Js.value)) (w : World) : Reply :=
  if negb (strict_eq (Js.lookup_field "secretCode" query) "HYDROAI") then unauthorized
  else {| code := 200; document := CurrentRateLimit (globalRateLimit w) |}.

(** [GET /api/admin/stats], lines 61-84; [listed] is what
    [getChatsByUserId()] returned. *)
Definition get_stats (query : list (string * Js.value))
    (listed : list Storage.Chat) (w : World) : Reply :=
  if negb (strict_eq (Js.lookup_field "secretCode" query) "HYDROAI") then unauthorized
  else
    let totalMessages :=
      List.map (λ chat, Storage.getMessagesByChatId (Storage.chat_id chat) (storage w))
               listed in
    let messageCount :=
      foldl (λ total messages, (total + length messages)%nat) 0%nat totalMessages in
    {| code := 200;
       document := Stats (length listed) messageCount (globalRateLimit w) 1 |}.

(** [POST /api/admin/clear-data], lines 87-109.  The body is destructured
    outside the [try] block: on a body that is null or undefined the
    TypeError leaves the handler.  The message of the answer interpolates
    [dataType] inside the [try] block: a value without a conversion throws
    there, and the catch block answers 500. *)
Definition post_clear_data (body : Js.value) (listed : list Storage.Chat)
    (w : World) : Js.throwing (Reply * World) :=
  fields ← destructure body "secretCode" "dataType";
  let '(secretCode, dataType) := fields in
  if negb (strict_eq secretCode "HYDROAI") then mret (unauthorized, w)
  else
    let st :=
      if strict_eq dataType "chats" || strict_eq dataType "all" then
        foldl (λ st chat, Storage.deleteChat (Storage.chat_id chat) st)
              (storage w) listed
      else storage w in
    let cleared :=
      if strict_eq dataType "all" then Js.Ok "all data"
      else Js.to_string dataType in
    match cleared with
    | Js.Ok what =>
        mret ({| code := 200;
                 document := Cleared ("Successfully cleared " +:+ what) |},
              set_storage st w)
    | Js.Thrown _ =>
        mret ({| code := 500; document := Failure "Failed to clear data" |},
              set_storage st w)
    end.

(** [POST /api/admin/broadcast], lines 112-125. *)
Definition post_broadcast (body : Js.value) (w : World)
  : Js.throwing (Reply * World) :=
  fields ← destructure body "secretCode" "message";
  let '(secretCode, _) := fields in
  if negb (strict_eq secretCode "HYDROAI") then mret (unauthorized, w)
  else mret ({| code := 200; document := BroadcastSent "Broadcast sent" 1 |}, w).

(** [DELETE /api/chats/:id], lines 340-348. *)
Definition delete_chat (key : string) (w : World) : Reply * World :=
  ({| code := 200; document := Deleted |},
   set_storage (Storage.deleteChat key (storage w)) w).

(** [GET /api/chats/:id/messages], lines 351-359. *)
Definition get_messages (key : string) (w : World) : Reply :=
  {| code := 200;
     document := MessageList (Storage.getMessagesByChatId key (storage w)) |}.

(** A run of chat turns, one after the other. *)
Fixpoint chat_turns (turns : list (Env * Request)) (w : World)
  : list Response * World :=
  match turns with
  | [] => ([], w)
  | (env, req) :: later =>
      let '(response, w1) := chat env req w in
      let '(responses, w2) := chat_turns later w1 in
      (response :: responses, w2)
  end.

End Api.

(** ** The chat turn and the requests served while it waits

    The handler gives way to other requests where it awaits the provider:
    at [await fetch(...)] and, once the response is there, at
    [await apiResponse.json()] or [await apiResponse.text()].  Between the
    call and the first thing the handler does with the answer, the requests
    served in between have changed the state of the server: [meanwhile] is
    that change.  Before the call, and from the answer on, the handler runs
    without giving way: the methods of [MemStorage] resolve at once.

    [Routes.chat] is the turn during which no other request is served. *)

Module Suspended.

Import Routes.

(** [await fetch(...)], then [await apiResponse.json()] or [.text()]. *)
Definition call (env : Env) (meanwhile : World → World) (r : OutboundRequest)
  : handler (Z * string * Js.throwing Js.value) := λ w,
  match fetch env r with
  | Rejected e => (Raised e, meanwhile (log r w))
  | Fetched code text document =>
      (Next (code, text, document), meanwhile (log r w))
  end.

(** Lines 187-289. *)
Definition turn (env : Env) (meanwhile : World → World) (req : Request)
    (data : Schema.ChatRequest) : handler Response :=
  let chatId := Schema.chatId data in
  let messages := Schema.messages data in
  let model := default "gpt-5" (Schema.model data) in
  _ ← store_user_message env chatId messages;
  config ← lift (provider_config env req);
  let '(provider, providerEndpoint, providerApiKey) := config in
  request ← lift (prepare_request provider providerEndpoint providerApiKey
                    model messages);
  apiResponse ← call env meanwhile request;
  answer env chatId model provider apiResponse.

(** Lines 170-185. *)
Definition validated (env : Env) (meanwhile : World → World) (req : Request)
  : handler Response :=
  match Schema.safeParse (body req) with
  | Schema.Invalid errors =>
      send 400 (Error "Invalid request format" (Some (Issues errors)))
  | Schema.Valid data =>
      chat ← getChat (Schema.chatId data);
      match chat with
      | None => send 404 (Error "Chat not found" None)
      | Some _ => turn env meanwhile req data
      end
  end.

(** Lines 161-289. *)
Definition chat_try (env : Env) (meanwhile : World → World) (req : Request)
  : handler Response :=
  allowed ← rate_limit (date_now env) (clientIp req);
  if negb allowed then send 429 rate_limit_exceeded
  else validated env meanwhile req.

(** [app.post("/api/chat", ...)], with what is served during the provider
    call. *)
Definition chat (env : Env) (meanwhile : World → World) (req : Request)
    (w : World) : Response * World :=
  settle (chat_try env meanwhile req w).

End Suspended.

(** ** What the schema accepts, message by message *)

Module Payload.

(** [item] is an object whose [role] and [content] are those of [msg]. *)
Definition encodes (item : Js.value) (msg : Schema.ChatMessage) : Prop :=
  ∃ fields, item = Js.Obj fields
            ∧ Js.lookup_field "role" fields
                = Js.Str (Routes.role_name (Schema.role msg))
            ∧ Js.lookup_field "content" fields = Js.Str (Schema.content msg).

End Payload.

(** ** Relative times in the client

    [formatTime] of [client/src/components/chat/MessageBubble.tsx], lines
    30-48, and [formatTimeAgo] of the chat sidebar, with the two clock
    readings ([new Date()] and the date shown) in milliseconds.  What is
    rendered in the locale (a date, a date and a time) is kept as the
    instant it renders. *)

Module Client.

Inductive Label :=
| JustNow                      (* "Just now" *)
| MinutesAgo (n : Z)           (* `${n}m ago` *)
| HoursAgo (n : Z)             (* `${n}h ago` *)
| DaysAgo (n : Z)              (* `${n}d ago` *)
| LocaleDate (t : Z)           (* toLocaleDateString() *)
| LocaleDateTime (t : Z).      (* toLocaleDateString() + " " + toLocaleTimeString() *)

(** [Math.floor(a / b)] on integers, for a positive [b]. *)
Definition floor_div (a b : Z) : Z := a / b.

Definition formatTime (now timestamp : Z) : Label :=
  let diffInMinutes := floor_div (now - timestamp) (1000 * 60) in
  if diffInMinutes <? 1 then JustNow
  else if diffInMinutes <? 60 then MinutesAgo diffInMinutes
  else if diffInMinutes <? 1440 then
    let hours := floor_div diffInMinutes 60 in
    HoursAgo hours
  else LocaleDateTime timestamp.

Definition formatTimeAgo (now date : Z) : Label :=
  let diffMs := now - date in
  let diffHours := floor_div diffMs (1000 * 60 * 60) in
  let diffDays := floor_div diffHours 24 in
  if diffHours <? 1 then JustNow
  else if diffHours <? 24 then HoursAgo diffHours
  else if diffDays <? 7 then DaysAgo diffDays
  else LocaleDate date.

End Client.

(** ** A store with two chats, for concrete runs *)

Module Sample.

Import Routes.

Definition entry (key chatId : string) (role : Role) (text : string) (at_ : Z)
  : string * Storage.Message :=
  (key, {| Storage.id := key; Storage.chatId := chatId; Storage.role := role;
           Storage.content := Js.Str text; Storage.model := None;
           Storage.timestamp := at_ |}).

Definition chat (key : string) (created : Z) : Storage.Chat :=
  {| Storage.chat_id := key; Storage.name := Js.Str ("Chat " +:+ key);
     Storage.createdAt := created; Storage.userId := None |}.

(** Chats [c1] and [c2]; two messages in [c1], one in [c2]. *)
Definition store : Storage.MemStorage :=
  {| Storage.chats := <["c1" := chat "c1" 5]> (<["c2" := chat "c2" 6]> ∅);
     Storage.messages := [entry "m1" "c1" user "hi" 10;
                          entry "m2" "c2" user "yo" 20;
                          entry "m3" "c1" assistant "hello" 30] |}.

Definition world : World :=
  {| rateLimitMap := ∅; globalRateLimit := 3; storage := store; outbound := [] |}.

(** A turn at time [now]. *)
Definition env (now : Z) (vendor : FetchResult) : Env :=
  {| GITHUB_TOKEN := "ghp_token";
     date_now := now;
     user_uuid := "uuid-1";
     user_date := now + 1;
     fetch := λ _, vendor;
     assistant_uuid := "uuid-2";
     assistant_date := now + 900 |}.

Definition users : list (string * MemStorage.User) :=
  [("u1", {| MemStorage.user_id := "u1"; MemStorage.username := "ada";
             MemStorage.password := "x" |})].

End Sample.

(** * Properties *)

(** ** The rate limiter *)

Section RateLimiter.

Implicit Types (m : gmap string RateLimitEntry) (e : RateLimitEntry).
Implicit Types (now : Z) (ip : string) (limit : Js.number).

(** Between integers the comparison of numbers is that of [Z]. *)
Lemma ge_of_Z (a b : Z) : Js.ge a b = (a >=? b).
Proof.
  unfold Js.ge, Js.lt, Js.of_Z. rewrite negb_involutive, Z.geb_leb.
  destruct (Z.leb_spec b a) as [Hle | Hgt].
  - apply Qle_bool_iff. by rewrite <- Zle_Qle.
  - apply not_true_is_false. intros Hle%Qle_bool_iff.
    rewrite <- Zle_Qle in Hle. lia.
Qed.

(** Against a count, a limit between [n - 1] (excluded) and [n] acts as
    the integer [n]. *)
Lemma ge_ceiling (q : Q) (n count : Z) :
  (inject_Z (n - 1) < q)%Q → (q <= inject_Z n)%Q →
  Js.ge count (Js.Finite q) = (n <=? count).
Proof.
  intros Hlow Hhigh. unfold Js.ge, Js.lt, Js.of_Z. rewrite negb_involutive.
  destruct (Z.leb_spec n count) as [Hle | Hgt].
  - apply Qle_bool_iff. apply Qle_trans with (inject_Z n); [done |].
    by rewrite <- Zle_Qle.
  - apply not_true_is_false. intros Hle%Qle_bool_iff.
    assert (inject_Z (n - 1) < inject_Z count)%Q as Hlt
      by (by apply Qlt_le_trans with q).
    rewrite <- Zlt_Qlt in Hlt. lia.
Qed.

Lemma checkRateLimit_absent now ip limit m :
  m !! ip = None →
  checkRateLimit now ip limit m = (true, <[ip := fresh_window now]> m).
Proof. intros Hm. unfold checkRateLimit. by rewrite Hm. Qed.

Lemma checkRateLimit_expired now ip limit m e :
  m !! ip = Some e → resetTime e < now →
  checkRateLimit now ip limit m = (true, <[ip := fresh_window now]> m).
Proof.
  intros Hm Hlt. unfold checkRateLimit. rewrite Hm.
  destruct (Z.gtb_spec now (resetTime e)); [done | lia].
Qed.

(** Within the window the count is compared with the limit. *)
Lemma checkRateLimit_unexpired now ip limit m e :
  m !! ip = Some e → now ≤ resetTime e →
  checkRateLimit now ip limit m =
    if Js.ge (count e) limit
    then (false, m)
    else (true, <[ip := {| count := count e + 1; resetTime := resetTime e |}]> m).
Proof.
  intros Hm Hle. unfold checkRateLimit. rewrite Hm.
  by destruct (Z.gtb_spec now (resetTime e)); [lia |].
Qed.

Lemma ge_Finite (count : Z) (q : Q) :
  Js.ge count (Js.Finite q) = Qle_bool q (inject_Z count).
Proof. unfold Js.ge, Js.lt, Js.of_Z. apply negb_involutive. Qed.

(** Within the window, a limit that acts as the integer [n]. *)
Lemma checkRateLimit_within_ceiling now ip limit (n : Z) m e :
  (∀ count : Z, Js.ge count limit = (n <=? count)) →
  m !! ip = Some e → now ≤ resetTime e →
  checkRateLimit now ip limit m =
    if count e <? n
    then (true, <[ip := {| count := count e + 1; resetTime := resetTime e |}]> m)
    else (false, m).
Proof.
  intros Hceiling Hm Hle. unfold checkRateLimit. rewrite Hm.
  destruct (Z.gtb_spec now (resetTime e)); [lia |].
  rewrite Hceiling.
  destruct (Z.leb_spec n (count e)), (Z.ltb_spec (count e) n); done || lia.
Qed.

Lemma checkRateLimit_within now ip (limit : Z) m e :
  m !! ip = Some e → now ≤ resetTime e →
  checkRateLimit now ip limit m =
    if count e <? limit
    then (true, <[ip := {| count := count e + 1; resetTime := resetTime e |}]> m)
    else (false, m).
Proof.
  apply checkRateLimit_within_ceiling. intros count.
  by rewrite ge_of_Z, Z.geb_leb.
Qed.

(** A rejected call never touches the map. *)
Lemma checkRateLimit_rejected now ip limit m :
  (checkRateLimit now ip limit m).1 = false →
  (checkRateLimit now ip limit m).2 = m.
Proof.
  unfold checkRateLimit. destruct (m !! ip) as [e|]; [| done].
  destruct (now >? resetTime e); [done |].
  by destruct (Js.ge (count e) limit).
Qed.

(** The entries of the other clients are never touched. *)
Lemma checkRateLimit_other now ip limit m other :
  other ≠ ip → (checkRateLimit now ip limit m).2 !! other = m !! other.
Proof.
  intros Hne. unfold checkRateLimit. destruct (m !! ip) as [e|]; simpl.
  - destruct (now >? resetTime e); simpl; [by rewrite lookup_insert_ne |].
    destruct (Js.ge (count e) limit); simpl; [done | by rewrite lookup_insert_ne].
  - by rewrite lookup_insert_ne.
Qed.

(** Calls that all fall within the window of an entry with room left are
    all allowed, and each one is counted. *)
Lemma checkRateLimit_calls_within_ceiling times ip limit (n : Z) m e :
  (∀ count : Z, Js.ge count limit = (n <=? count)) →
  m !! ip = Some e →
  Forall (λ now, now ≤ resetTime e) times →
  count e + Z.of_nat (length times) ≤ n →
  checkRateLimit_calls times ip limit m =
    (replicate (length times) true,
     <[ip := {| count := count e + Z.of_nat (length times);
                resetTime := resetTime e |}]> m).
Proof.
  intros Hceiling. revert m e.
  induction times as [| now later IH]; intros m e Hm Hall Hroom.
  - simpl. rewrite Z.add_0_r. rewrite insert_id; [done |]. by destruct e.
  - apply Forall_cons in Hall as [Hnow Hlater].
    cbn [checkRateLimit_calls length replicate] in *.
    rewrite (checkRateLimit_within_ceiling _ _ _ n _ _ Hceiling Hm Hnow).
    destruct (Z.ltb_spec (count e) n); [| lia].
    rewrite (IH _ {| count := count e + 1; resetTime := resetTime e |});
      [| by rewrite lookup_insert_eq | done | simpl; lia].
    simpl. rewrite insert_insert_eq. do 3 f_equal. lia.
Qed.

Lemma checkRateLimit_calls_within times ip (limit : Z) m e :
  m !! ip = Some e →
  Forall (λ now, now ≤ resetTime e) times →
  count e + Z.of_nat (length times) ≤ limit →
  checkRateLimit_calls times ip limit m =
    (replicate (length times) true,
     <[ip := {| count := count e + Z.of_nat (length times);
                resetTime := resetTime e |}]> m).
Proof.
  apply checkRateLimit_calls_within_ceiling. intros count.
  by rewrite ge_of_Z, Z.geb_leb.
Qed.

End RateLimiter.

(** C1. The counting contract of [checkRateLimit], for every client key and
    every limit of at least 1: (a) the first call for a key without an entry
    is allowed and installs the entry with count 1 and a window that ends 60
    seconds after the call; (b) while the entry's window is unexpired, a call
    is allowed, and counted, exactly when the count is below the limit, and
    otherwise leaves the map alone; (c) of limit+1 calls that start on a key
    without an entry and all fall within the window the first one opens, the
    first limit are allowed and the last is rejected, leaving the entry (count
    and resetTime) as it was. *)
Theorem checkRateLimit_counting_contract
    (ip : string) (limit : Z) (m : gmap string RateLimitEntry)
    (Hlimit : 1 ≤ limit) :
  (∀ now, m !! ip = None →
     checkRateLimit now ip limit m =
       (true, <[ip := {| count := 1; resetTime := now + 60000 |}]> m))
  ∧ (∀ now e, m !! ip = Some e → now ≤ resetTime e →
       checkRateLimit now ip limit m =
         if count e <? limit
         then (true, <[ip := {| count := count e + 1;
                                resetTime := resetTime e |}]> m)
         else (false, m))
  ∧ (∀ first later last, m !! ip = None →
       length later = Z.to_nat (limit - 1) →
       Forall (λ now, now ≤ first + 60000) (later ++ [last]) →
       let full := <[ip := {| count := limit; resetTime := first + 60000 |}]> m in
       checkRateLimit_calls (first :: later) ip limit m
         = (replicate (Z.to_nat limit) true, full)
       ∧ checkRateLimit last ip limit full = (false, full)).
Proof.
  split; [| split].
  - intros now Hm. by apply checkRateLimit_absent.
  - intros now e Hm Hle. by apply checkRateLimit_within.
  - intros first later last Hm Hlen Hall full.
    apply Forall_app in Hall as [Hlater Hlast].
    rewrite Forall_singleton in Hlast.
    split.
    + cbn [checkRateLimit_calls].
      rewrite (checkRateLimit_absent _ _ _ _ Hm).
      rewrite (checkRateLimit_calls_within later ip limit _ (fresh_window first));
        [| by rewrite lookup_insert_eq | exact Hlater | simpl; lia].
      rewrite insert_insert_eq. simpl. unfold full.
      replace (Z.to_nat limit) with (S (length later)) by lia.
      simpl. do 3 f_equal. lia.
    + rewrite (checkRateLimit_within last ip limit full
                 {| count := limit; resetTime := first + 60000 |});
        [| by unfold full; rewrite lookup_insert_eq | exact Hlast].
      simpl. by rewrite Z.ltb_irrefl.
Qed.

Lemma checkRateLimit_counting_contract_witness :
  checkRateLimit 5 "203.0.113.7" 3 ∅
    = (true, <["203.0.113.7" := {| count := 1; resetTime := 60005 |}]> ∅)
  ∧ let full : gmap string RateLimitEntry :=
      <["203.0.113.7" := {| count := 3; resetTime := 60005 |}]> ∅ in
    checkRateLimit_calls [5; 17; 60005] "203.0.113.7" 3 ∅ = ([true; true; true], full)
    ∧ checkRateLimit 60005 "203.0.113.7" 3 full = (false, full).
Proof.
  destruct (checkRateLimit_counting_contract "203.0.113.7" 3 ∅ ltac:(lia))
    as (Hfirst & _ & Hcalls).
  split.
  - apply Hfirst. reflexivity.
  - apply (Hcalls 5 [17; 60005] 60005).
    + reflexivity.
    + reflexivity.
    + repeat constructor; lia.
Defined.

(** C2, as the code has it.  The window of an existing entry has expired
    once the clock is strictly past its resetTime: the call then overwrites
    the entry with count 1 and a window that ends 60 seconds later, and is
    allowed.  At the boundary itself (now = resetTime) the window is still in
    force: the call is counted against it, allowed exactly when the count is
    below the limit. *)
Theorem checkRateLimit_window_expiry
    (now : Z) (ip : string) (limit : Z) (m : gmap string RateLimitEntry)
    (e : RateLimitEntry) (Hentry : m !! ip = Some e) :
  (resetTime e < now →
     checkRateLimit now ip limit m =
       (true, <[ip := {| count := 1; resetTime := now + 60000 |}]> m))
  ∧ (now = resetTime e →
       checkRateLimit now ip limit m =
         if count e <? limit
         then (true, <[ip := {| count := count e + 1;
                                resetTime := resetTime e |}]> m)
         else (false, m)).
Proof.
  split.
  - intros Hlt. by apply checkRateLimit_expired with e.
  - intros Heq. apply checkRateLimit_within; [done | lia].
Qed.

Lemma checkRateLimit_window_expiry_witness :
  let m : gmap string RateLimitEntry :=
    <["203.0.113.7" := {| count := 3; resetTime := 60000 |}]> ∅ in
  checkRateLimit 60001 "203.0.113.7" 3 m
    = (true, <["203.0.113.7" := {| count := 1; resetTime := 120001 |}]> m).
Proof.
  intros m.
  apply (checkRateLimit_window_expiry 60001 "203.0.113.7" 3 m
           {| count := 3; resetTime := 60000 |}).
  - reflexivity.
  - simpl. lia.
Defined.

(** C2 as the specification words it fails at the boundary: with the window
    opened at time 0 and the limit of 3 used up, the call made exactly 60
    seconds later (now = resetTime) is rejected and the entry is left as it
    was, where the specification has it start a new window. *)
Lemma checkRateLimit_boundary_counterexample :
  let e := {| count := 3; resetTime := 0 + 60000 |} in
  let m : gmap string RateLimitEntry := <["203.0.113.7" := e]> ∅ in
  m !! "203.0.113.7" = Some e
  ∧ 60000 >= resetTime e
  ∧ checkRateLimit 60000 "203.0.113.7" 3 m = (false, m)
  ∧ checkRateLimit 60000 "203.0.113.7" 3 m
      ≠ (true, <["203.0.113.7" := {| count := 1; resetTime := 60000 + 60000 |}]> m).
Proof.
  intros e m. split; [reflexivity |]. split; [simpl; lia |].
  split; [reflexivity | discriminate].
Qed.

(** ** Storage *)

Section StorageFacts.

Import Storage.

Lemma filter_ext_elem {A} (P Q : A → Prop)
    `{!∀ x, Decision (P x), !∀ x, Decision (Q x)} (l : list A) :
  (∀ x, x ∈ l → P x ↔ Q x) → filter P l = filter Q l.
Proof.
  induction l as [| a l IH]; intros Hiff; [done |].
  rewrite !filter_cons.
  rewrite IH; [| intros x Hx; apply Hiff, elem_of_cons; by right].
  assert (P a ↔ Q a) as Ha by (apply Hiff, elem_of_cons; by left).
  destruct (decide (P a)), (decide (Q a)); tauto || done.
Qed.

Lemma filter_never {A} (l : list A) : filter (λ _, False) l = [].
Proof. by induction l. Qed.

Lemma filter_snd {K V} (P : V → Prop) `{!∀ x, Decision (P x)}
    (l : list (K * V)) :
  filter P l.*2 = (filter (λ e, P e.2) l).*2.
Proof.
  induction l as [| [k v] l IH]; [done |].
  rewrite fmap_cons, !filter_cons. simpl.
  destruct (decide (P v)); [rewrite fmap_cons |]; by rewrite IH.
Qed.

(** Deleting a list of keys one after the other keeps exactly the entries
    filed under none of them. *)
Lemma foldl_map_delete {V} (keys : list string) (entries : list (string * V)) :
  foldl (λ m k, map_delete k m) entries keys
  = filter (λ e, e.1 ∉ keys) entries.
Proof.
  revert entries. induction keys as [| k keys IH]; intros entries; simpl.
  - symmetry. induction entries as [| e entries IHe]; [done |].
    rewrite filter_cons_True; [by rewrite IHe | apply not_elem_of_nil].
  - rewrite IH. unfold map_delete. rewrite list_filter_filter.
    apply list_filter_iff. intros e. rewrite not_elem_of_cons. tauto.
Qed.

Lemma map_set_keys {V} (k : string) (v : V) (entries : list (string * V)) :
  (map_set k v entries).*1
  = if decide (k ∈ entries.*1) then entries.*1 else entries.*1 ++ [k].
Proof.
  induction entries as [| [k' v'] entries IH]; [done |].
  cbn [map_set]. destruct (String.eqb_spec k k') as [-> | Hne].
  - rewrite decide_True; [done | rewrite fmap_cons; apply elem_of_cons; by left].
  - rewrite !fmap_cons, IH. simpl. destruct (decide (k ∈ entries.*1)).
    + rewrite decide_True; [done | apply elem_of_cons; by right].
    + rewrite decide_False; [done |]. rewrite elem_of_cons. tauto.
Qed.

(** A fresh key appends the entry and leaves the others in place. *)
Lemma map_set_fresh {V} (k : string) (v : V) (entries : list (string * V)) :
  k ∉ entries.*1 → map_set k v entries = entries ++ [(k, v)].
Proof.
  induction entries as [| [k' v'] entries IH]; intros Hfresh; [done |].
  rewrite fmap_cons, not_elem_of_cons in Hfresh. destruct Hfresh as [Hne Hfresh].
  cbn [map_set]. destruct (String.eqb_spec k k'); [done |].
  by rewrite IH.
Qed.

(** The entry set is there afterwards, and the entries under other keys
    stay; nothing else comes in. *)
Lemma map_set_elem {V} (k : string) (v : V) (entries : list (string * V)) :
  (k, v) ∈ map_set k v entries.
Proof.
  induction entries as [| [k' v'] entries IH]; simpl.
  - by apply list_elem_of_singleton.
  - destruct (String.eqb k k'); apply elem_of_cons; [by left | by right].
Qed.

Lemma map_set_elem_other {V} (k : string) (v : V) (entries : list (string * V)) e :
  e ∈ entries → e.1 ≠ k → e ∈ map_set k v entries.
Proof.
  intros Hin Hne. induction entries as [| [k' v'] entries IH]; simpl.
  { by apply elem_of_nil in Hin. }
  apply elem_of_cons in Hin as [-> | Hin].
  - destruct (String.eqb_spec k k') as [-> | _]; [done |].
    apply elem_of_cons. by left.
  - destruct (String.eqb k k'); apply elem_of_cons; right; [done | by apply IH].
Qed.


Lemma insert_by_timestamp_perm x l : insert_by_timestamp x l ≡ₚ x :: l.
Proof.
  induction l as [| y l IH]; [done |]. simpl.
  destruct (timestamp x <=? timestamp y); [done |].
  rewrite IH. apply Permutation_swap.
Qed.

Lemma sort_by_timestamp_perm l : sort_by_timestamp l ≡ₚ l.
Proof.
  induction l as [| x l IH]; [done |]. simpl.
  by rewrite insert_by_timestamp_perm, IH.
Qed.

Lemma wf_empty : wf Storage.empty.
Proof. unfold wf. simpl. constructor. Qed.

Lemma wf_createMessage uuid now insertMessage st :
  wf st → wf (createMessage uuid now insertMessage st).2.
Proof.
  unfold wf. simpl. intros Hwf. rewrite map_set_keys.
  destruct (decide (uuid ∈ (messages st).*1)); [done |].
  apply NoDup_app. split; [done |]. split; [| apply NoDup_singleton].
  intros k Hk Hin. apply list_elem_of_singleton in Hin. by subst.
Qed.

(** With unique keys, [deleteChat] keeps exactly the messages of the other
    chats, in their order. *)
Lemma deleteChat_messages key st :
  wf st →
  messages (deleteChat key st) = filter (λ e, chatId e.2 ≠ key) (messages st).
Proof.
  unfold wf, deleteChat. simpl. intros Hwf. rewrite foldl_map_delete.
  apply filter_ext_elem. intros [k v] Hin. simpl. split.
  - intros Hnot Heq. apply Hnot.
    apply list_elem_of_fmap. exists (k, v). split; [done |].
    by apply list_elem_of_filter.
  - intros Hne Hk. apply list_elem_of_fmap in Hk as ([k' v'] & Hkk & Hin').
    simpl in Hkk. subst k'. apply list_elem_of_filter in Hin' as [Hchat Hin'].
    simpl in Hchat.
    assert (v = v') as ->; [| done].
    clear Hne Hchat. induction (messages st) as [| [k0 v0] l IH]; simpl in *.
    { by apply elem_of_nil in Hin. }
    apply NoDup_cons in Hwf as [Hk0 Hl].
    apply elem_of_cons in Hin as [Hin | Hin], Hin' as [Hin' | Hin'].
    + congruence.
    + injection Hin as -> ->. destruct Hk0.
      apply list_elem_of_fmap. by exists (k0, v').
    + injection Hin' as -> ->. destruct Hk0.
      apply list_elem_of_fmap. by exists (k0, v).
    + by apply IH.
Qed.

Lemma wf_deleteChat key st : wf st → wf (deleteChat key st).
Proof.
  intros Hwf. unfold wf. rewrite deleteChat_messages by done.
  unfold wf in Hwf. revert Hwf.
  induction (messages st) as [| [k v] l IH]; [done |].
  rewrite fmap_cons, NoDup_cons. intros [Hk Hl]. rewrite filter_cons. simpl.
  destruct (decide (chatId v ≠ key)); [| by apply IH].
  rewrite fmap_cons. apply NoDup_cons. split; [| by apply IH]. simpl.
  intros Hin. apply Hk. apply list_elem_of_fmap in Hin as (e & -> & He).
  apply list_elem_of_filter in He as [_ He].
  apply list_elem_of_fmap. by exists e.
Qed.

End StorageFacts.

(** C9. Cascade delete: whatever messages are stored for a chat, after
    [deleteChat] with its id the chat is gone, [getMessagesByChatId] returns
    the empty list for it, the message map holds exactly the entries of the
    other chats, in the order and with the contents they had, and
    [getMessagesByChatId] answers as before for every other chat. *)
Theorem deleteChat_cascade (key : string) (st : Storage.MemStorage)
    (Hwf : Storage.wf st) :
  Storage.getChat key (Storage.deleteChat key st) = None
  ∧ Storage.getMessagesByChatId key (Storage.deleteChat key st) = []
  ∧ Storage.messages (Storage.deleteChat key st)
      = filter (λ e, Storage.chatId e.2 ≠ key) (Storage.messages st)
  ∧ (∀ other, other ≠ key →
       Storage.getMessagesByChatId other (Storage.deleteChat key st)
         = Storage.getMessagesByChatId other st).
Proof.
  split; [apply lookup_delete_eq |].
  unfold Storage.getMessagesByChatId.
  rewrite (deleteChat_messages key st Hwf).
  split; [| split; [done |]].
  - rewrite filter_snd, list_filter_filter.
    rewrite (filter_ext_elem _ (λ _, False)); [| tauto].
    by induction (Storage.messages st).
  - intros other Hne. f_equal. rewrite !filter_snd, list_filter_filter.
    f_equal. apply list_filter_iff. intros e. split; [tauto |].
    intros Heq. split; [done | congruence].
Qed.

Lemma deleteChat_cascade_witness :
  let entry k c r t :=
    (k, {| Storage.id := k; Storage.chatId := c; Storage.role := r;
           Storage.content := Js.Str t; Storage.model := None;
           Storage.timestamp := 7 |}) in
  let st :=
    {| Storage.chats := ∅;
       Storage.messages := [entry "m1" "c1" user "hi"; entry "m2" "c2" user "yo";
                            entry "m3" "c1" assistant "hello"] |} in
  Storage.getMessagesByChatId "c1" (Storage.deleteChat "c1" st) = []
  ∧ Storage.messages (Storage.deleteChat "c1" st) = [entry "m2" "c2" user "yo"].
Proof.
  intros entry st.
  destruct (deleteChat_cascade "c1" st) as (_ & Hgone & Hkept & _).
  - unfold Storage.wf. simpl. apply (bool_decide_unpack _). vm_compute. reflexivity.
  - split; [exact Hgone | rewrite Hkept; reflexivity].
Defined.

(** ** The chat route *)

Import Routes.

Section ChatTurn.

Context (env : Env) (req : Request).
Implicit Types (w : World) (data : Schema.ChatRequest).

Lemma bind_run {A B} (m : handler A) (f : A → handler B) w :
  (m ≫= f) w =
    match m w with
    | (Next a, w') => f a w'
    | (Sent r, w') => (Sent r, w')
    | (Raised e, w') => (Raised e, w')
    end.
Proof. reflexivity. Qed.

Lemma set_rateLimitMap_id w : set_rateLimitMap (rateLimitMap w) w = w.
Proof. by destruct w. Qed.

Lemma chat_try_gate w :
  chat_try env req w =
    let '(allowed, m) :=
      checkRateLimit (date_now env) (clientIp req) (globalRateLimit w) (rateLimitMap w) in
    if allowed then validated env req (set_rateLimitMap m w)
    else (Sent {| status := 429; json := rate_limit_exceeded |}, w).
Proof.
  unfold chat_try. rewrite bind_run. unfold rate_limit.
  pose proof (checkRateLimit_rejected (date_now env) (clientIp req)
                (globalRateLimit w) (rateLimitMap w)) as Hrej.
  destruct (checkRateLimit _ _ _ _) as [[] m]; simpl in *; [done |].
  rewrite Hrej by done. by rewrite set_rateLimitMap_id.
Qed.

Lemma store_user_message_run chatId messages um w :
  last messages = Some um →
  store_user_message env chatId messages w
  = (Next (), set_storage (user_message_stored env chatId um (storage w)) w).
Proof.
  intros Hlast. unfold store_user_message, user_message_stored.
  rewrite Hlast. rewrite bind_run. simpl.
  destruct (decide (Schema.role um = user)); [done |].
  by destruct w.
Qed.

Lemma store_user_message_empty chatId w :
  store_user_message env chatId [] w
  = (Raised (Js.cannot_read "undefined" "role"), w).
Proof. reflexivity. Qed.

Lemma safeParse_object b data :
  Schema.safeParse b = Schema.Valid data → ∃ fields, b = Js.Obj fields.
Proof. destruct b; try discriminate. eauto. Qed.

Lemma provider_config_object fields :
  body req = Js.Obj fields →
  provider_config env req
  = Js.Ok (Js.or (Js.lookup_field "provider" fields) (Js.Str "github"),
           Js.or (Js.lookup_field "endpoint" fields) (Js.Str DEFAULT_ENDPOINTS_github),
           Js.or (Js.lookup_field "apiKey" fields) (Js.Str (GITHUB_TOKEN env))).
Proof. intros Hb. unfold provider_config. by rewrite Hb. Qed.

(** A conversion to a string fails in one way only. *)
Lemma to_string_thrown v e :
  Js.to_string v = Js.Thrown e → e = Js.cannot_convert.
Proof.
  revert e. induction v as [| | b | repr | s | items IH | fields _]
    using Js.value_induction; intros e; simpl; try discriminate.
  - by destruct b.
  - destruct (Js.traverse _ items) as [strings | e'] eqn:Hitems; [done |].
    intros [= <-]. revert e' Hitems.
    induction IH as [| x rest Hx _ IHrest]; intros e' Hitems; [done |].
    simpl in Hitems.
    destruct x; simpl in Hitems;
      repeat match type of Hitems with
             | context [Js.traverse ?f rest] =>
                 destruct (Js.traverse f rest) eqn:?; simplify_eq; eauto
             | context [match ?c with _ => _ end] =>
                 destruct c eqn:?; simplify_eq; eauto
             end.
  - by destruct (Js.has_own _ _); [intros [= <-] |].
Qed.

Lemma to_string_Str s : Js.to_string (Js.Str s) = Js.Ok s.
Proof. reflexivity. Qed.

(** Once the last message is there, the request is built, or a template
    literal met a value without a conversion. *)
Lemma prepare_request_cases provider endpoint apiKey model messages um :
  last messages = Some um →
  (∃ r, prepare_request provider endpoint apiKey model messages = Js.Ok r)
  ∨ prepare_request provider endpoint apiKey model messages
    = Js.Thrown Js.cannot_convert.
Proof.
  intros Hlast. unfold prepare_request, bearer. rewrite Hlast.
  destruct (Js.to_string endpoint) as [url | e] eqn:Hurl.
  2:{ right. by rewrite (to_string_thrown _ _ Hurl). }
  destruct (Js.to_string apiKey) as [key | e] eqn:Hkey.
  2:{ rewrite (to_string_thrown _ _ Hkey). simpl.
      repeat case_match; eauto. }
  simpl. repeat case_match; eauto.
Qed.

Lemma turn_run data um provider endpoint apiKey r w :
  last (Schema.messages data) = Some um →
  provider_config env req = Js.Ok (provider, endpoint, apiKey) →
  prepare_request provider endpoint apiKey
    (default "gpt-5" (Schema.model data)) (Schema.messages data) = Js.Ok r →
  let w' := log r (set_storage
              (user_message_stored env (Schema.chatId data) um (storage w)) w) in
  turn env req data w =
    match fetch env r with
    | Rejected e => (Raised e, w')
    | Fetched code text document =>
        answer env (Schema.chatId data) (default "gpt-5" (Schema.model data))
          provider (code, text, document) w'
    end.
Proof.
  intros Hlast Hconfig Hreq w'. unfold turn.
  rewrite bind_run, (store_user_message_run _ _ um) by done.
  rewrite bind_run, Hconfig. simpl.
  rewrite bind_run, Hreq. simpl.
  rewrite bind_run. unfold call. by destruct (fetch env r).
Qed.

(** When the request cannot be built the turn ends there, the user message
    stored. *)
Lemma turn_unprepared data um provider endpoint apiKey e w :
  last (Schema.messages data) = Some um →
  provider_config env req = Js.Ok (provider, endpoint, apiKey) →
  prepare_request provider endpoint apiKey
    (default "gpt-5" (Schema.model data)) (Schema.messages data) = Js.Thrown e →
  turn env req data w
  = (Raised e,
     set_storage (user_message_stored env (Schema.chatId data) um (storage w)) w).
Proof.
  intros Hlast Hconfig Hreq. unfold turn.
  rewrite bind_run, (store_user_message_run _ _ um) by done.
  rewrite bind_run, Hconfig. simpl.
  by rewrite bind_run, Hreq.
Qed.

Lemma answer_vendor_error chatId model provider code text document w :
  ok code = false →
  answer env chatId model provider (code, text, document) w
  = (Sent {| status := code;
             json := Error "Failed to get response from AI model" (Some (Text text)) |},
     w).
Proof. intros Hok. unfold answer. by rewrite Hok. Qed.

Lemma answer_ok chatId model provider code text document w :
  ok code = true →
  answer env chatId model provider (code, text, document) w
  = match document with
    | Js.Thrown e => (Raised e, w)
    | Js.Ok responseData =>
        match extract provider responseData with
        | Js.Thrown e => (Raised e, w)
        | Js.Ok assistantMessage =>
            if Js.truthy assistantMessage then
              (Sent {| status := 200;
                       json := Reply assistantMessage (assistant_uuid env) model |},
               set_storage
                 (Storage.createMessage (assistant_uuid env) (assistant_date env)
                    {| Storage.ins_chatId := chatId;
                       Storage.ins_role := assistant;
                       Storage.ins_content := assistantMessage;
                       Storage.ins_model := Some model |} (storage w)).2 w)
            else
              (Sent {| status := 500;
                       json := Error "No response from AI model" None |}, w)
        end
    end.
Proof.
  intros Hok. unfold answer. rewrite Hok. simpl.
  rewrite bind_run. destruct document as [responseData | e]; [| done]. simpl.
  rewrite bind_run. destruct (extract provider responseData) as [v | e]; [| done].
  simpl. by destruct (Js.truthy v).
Qed.

Lemma chat_catch_status message :
  status (chat_catch message) = 429 ∨ status (chat_catch message) = 401
  ∨ status (chat_catch message) = 500.
Proof. unfold chat_catch. repeat case_match; simpl; tauto. Qed.

Lemma chat_progress w : progress env req w.
Proof.
  pose proof (chat_try_gate w) as Hgate.
  destruct (checkRateLimit _ _ _ _) as [[] m] eqn:Hcheck.
  2:{ apply Stopped; unfold chat; rewrite Hgate; simpl;
        [by rewrite set_rateLimitMap_id | done]. }
  unfold validated in Hgate.
  destruct (Schema.safeParse (body req)) as [data | errors] eqn:Hvalid.
  2:{ apply Stopped; unfold chat; rewrite Hgate; simpl; done. }
  rewrite bind_run in Hgate. simpl in Hgate.
  destruct (Storage.getChat (Schema.chatId data) (storage w)) as [c |] eqn:Hchat.
  2:{ apply Stopped; unfold chat; rewrite Hgate; simpl; done. }
  destruct (last (Schema.messages data)) as [um |] eqn:Hlast.
  2:{ apply last_None in Hlast.
      assert (turn env req data (set_rateLimitMap m w)
              = (Raised (Js.cannot_read "undefined" "role"), set_rateLimitMap m w))
        as Hturn by (unfold turn; rewrite Hlast; reflexivity).
      apply Stopped; unfold chat; rewrite Hgate, Hturn; simpl; done. }
  destruct (safeParse_object _ _ Hvalid) as [fields Hbody].
  pose proof (provider_config_object fields Hbody) as Hconfig.
  destruct (prepare_request_cases
              (Js.or (Js.lookup_field "provider" fields) (Js.Str "github"))
              (Js.or (Js.lookup_field "endpoint" fields) (Js.Str DEFAULT_ENDPOINTS_github))
              (Js.or (Js.lookup_field "apiKey" fields) (Js.Str (GITHUB_TOKEN env)))
              (default "gpt-5" (Schema.model data)) _ _ Hlast)
    as [[r Hrequest] | Hrequest].
  - eapply Called; try done.
    unfold chat. rewrite Hgate.
    by rewrite (turn_run data um _ _ _ r _ Hlast Hconfig Hrequest).
  - eapply Unprepared; try done.
    unfold chat. rewrite Hgate.
    by rewrite (turn_unprepared data um _ _ _ _ _ Hlast Hconfig Hrequest).
Qed.

Lemma outbound_settle_answer chatId model provider apiResponse w :
  outbound (settle (answer env chatId model provider apiResponse w)).2 = outbound w.
Proof.
  destruct apiResponse as [[code text] document].
  destruct (ok code) eqn:Hok.
  - rewrite answer_ok by done.
    destruct document as [d |]; [| done].
    destruct (extract provider d) as [v |]; [| done].
    by destruct (Js.truthy v).
  - by rewrite answer_vendor_error.
Qed.

Lemma not_appended {A} (l : list A) (x : A) : l ≠ l ++ [x].
Proof.
  intros Heq. apply (f_equal length) in Heq.
  rewrite length_app in Heq. simpl in Heq. lia.
Qed.

(** The provider is called at most once, with the request prepared from
    the validated data. *)
Lemma chat_outbound w r :
  outbound (chat env req w).2 = outbound w ++ [r] →
  ∃ m data c um provider endpoint apiKey,
    checkRateLimit (date_now env) (clientIp req)
      (globalRateLimit w) (rateLimitMap w) = (true, m)
    ∧ Schema.safeParse (body req) = Schema.Valid data
    ∧ Storage.getChat (Schema.chatId data) (storage w) = Some c
    ∧ last (Schema.messages data) = Some um
    ∧ provider_config env req = Js.Ok (provider, endpoint, apiKey)
    ∧ prepare_request provider endpoint apiKey
        (default "gpt-5" (Schema.model data)) (Schema.messages data) = Js.Ok r
    ∧ chat env req w =
        let w' := log r (set_storage
                    (user_message_stored env (Schema.chatId data) um (storage w))
                    (set_rateLimitMap m w)) in
        settle match fetch env r with
               | Rejected e => (Raised e, w')
               | Fetched code text document =>
                   answer env (Schema.chatId data)
                     (default "gpt-5" (Schema.model data)) provider
                     (code, text, document) w'
               end.
Proof.
  intros Hcall.
  destruct (chat_progress w)
    as [Hworld _ | ? ? ? ? ? ? ? _ _ _ _ _ _ Hrun
        | m data c um provider endpoint apiKey r' ? ? ? ? ? ? Hrun].
  - rewrite Hworld in Hcall. simpl in Hcall. by apply not_appended in Hcall.
  - rewrite Hrun in Hcall. simpl in Hcall. by apply not_appended in Hcall.
  - assert (outbound (chat env req w).2 = outbound w ++ [r']) as Hcall'.
    { rewrite Hrun. cbv zeta. destruct (fetch env r'); [done |].
      by rewrite outbound_settle_answer. }
    rewrite Hcall in Hcall'. apply app_inj_tail in Hcall' as [_ <-].
    by exists m, data, c, um, provider, endpoint, apiKey.
Qed.

Lemma ok_200 code : ok code = false → code ≠ 200.
Proof. intros Hok ->. discriminate. Qed.

Lemma chat_catch_not_200 message : status (chat_catch message) ≠ 200.
Proof. destruct (chat_catch_status message) as [-> | [-> | ->]]; lia. Qed.

End ChatTurn.

(** C7. A request whose client key [checkRateLimit] rejects is answered
    429 at once, and the turn leaves the world exactly as it found it: no
    message is persisted and no provider call is made. *)
Theorem chat_rate_limited (env : Env) (req : Request) (w : World)
    (Hrejected : (checkRateLimit (date_now env) (clientIp req)
                    (globalRateLimit w) (rateLimitMap w)).1 = false) :
  (chat env req w).1 = {| status := 429; json := rate_limit_exceeded |}
  ∧ (chat env req w).2 = w
  ∧ storage (chat env req w).2 = storage w
  ∧ outbound (chat env req w).2 = outbound w.
Proof.
  unfold chat. rewrite chat_try_gate.
  destruct (checkRateLimit _ _ _ _) as [[] m]; [done |]. by simpl.
Qed.

Lemma chat_rate_limited_witness :
  let turn := chat (Example.env (Example.completion "hi"))
                (Example.request "c1" [Example.message "user" "hello"] [])
                Example.exhausted in
  status turn.1 = 429
  ∧ Storage.messages (storage turn.2) = []
  ∧ outbound turn.2 = [].
Proof.
  intros turn.
  destruct (chat_rate_limited (Example.env (Example.completion "hi"))
              (Example.request "c1" [Example.message "user" "hello"] [])
              Example.exhausted) as (Hresponse & _ & Hstorage & Hout).
  - reflexivity.
  - subst turn. rewrite Hresponse, Hstorage, Hout. repeat split.
Defined.

(** C8, as the code has it.  A payload that fails the chat request schema
    goes through the rate-limit check and nothing else: a client within its
    limit is answered 400 with the validation issues, a client over it 429;
    the store is unchanged and no provider call is made, and the only state
    that changes is the rate limiter's entry for the client, which the check
    has counted. *)
Theorem chat_invalid_request (env : Env) (req : Request) (w : World)
    (errors : list Schema.ZodIssue)
    (Hinvalid : Schema.safeParse (body req) = Schema.Invalid errors) :
  let gate := checkRateLimit (date_now env) (clientIp req)
                (globalRateLimit w) (rateLimitMap w) in
  (chat env req w).1
    = (if gate.1
       then {| status := 400;
               json := Error "Invalid request format" (Some (Issues errors)) |}
       else {| status := 429; json := rate_limit_exceeded |})
  ∧ (chat env req w).2 = set_rateLimitMap gate.2 w
  ∧ storage (chat env req w).2 = storage w
  ∧ outbound (chat env req w).2 = outbound w
  ∧ (∀ other, other ≠ clientIp req →
       rateLimitMap (chat env req w).2 !! other = rateLimitMap w !! other).
Proof.
  intros gate.
  assert ((chat env req w).2 = set_rateLimitMap gate.2 w) as Hworld.
  { unfold chat. rewrite chat_try_gate. unfold validated. rewrite Hinvalid.
    pose proof (checkRateLimit_rejected (date_now env) (clientIp req)
                  (globalRateLimit w) (rateLimitMap w)) as Hrej.
    fold gate in Hrej |- *. destruct gate as [[] m]; simpl in *; [done |].
    rewrite Hrej by done. by rewrite set_rateLimitMap_id. }
  split; [| split; [done | rewrite Hworld; simpl; repeat split]].
  - unfold chat. rewrite chat_try_gate. unfold validated. rewrite Hinvalid.
    fold gate. by destruct gate as [[] m].
  - intros other Hne. by apply checkRateLimit_other.
Qed.

Lemma chat_invalid_request_witness :
  let turn := chat (Example.env (Example.completion "hi"))
                (Example.request "c1" [Example.message "system" "hello"] [])
                Example.world in
  status turn.1 = 400
  ∧ storage turn.2 = storage Example.world
  ∧ outbound turn.2 = [].
Proof.
  intros turn.
  destruct (chat_invalid_request (Example.env (Example.completion "hi"))
              (Example.request "c1" [Example.message "system" "hello"] [])
              Example.world
              [{| Schema.code := Schema.invalid_enum_value;
                  Schema.path := [Schema.Key "messages"; Schema.Index 0;
                                  Schema.Key "role"] |}])
    as (Hresponse & _ & Hstorage & Hout & _).
  - reflexivity.
  - subst turn. rewrite Hresponse, Hstorage, Hout. repeat split.
Defined.

(** C8 as the specification words it fails: the rate limiter is consulted
    before validation, so an invalid request changes the limiter's state.
    Here a payload with an unknown role reaches a server that has not seen
    the client yet: it is answered 400, and the client now has an entry with
    one request counted. *)
Lemma chat_invalid_request_counterexample :
  let req := Example.request "c1" [Example.message "system" "hello"] [] in
  let turn := chat (Example.env (Example.completion "hi")) req Example.world in
  (∃ errors, Schema.safeParse (body req) = Schema.Invalid errors)
  ∧ status turn.1 = 400
  ∧ rateLimitMap Example.world !! "203.0.113.7" = None
  ∧ rateLimitMap turn.2 !! "203.0.113.7" = Some {| count := 1; resetTime := 61000 |}
  ∧ turn.2 ≠ Example.world.
Proof.
  intros req turn. split; [eexists; reflexivity |].
  split; [reflexivity |]. split; [reflexivity |]. split; [reflexivity |].
  intros Heq. apply (f_equal (λ w, rateLimitMap w !! "203.0.113.7")) in Heq.
  discriminate Heq.
Qed.

(** C10, as the code has it.  The schema accepts a request whose messages
    array is empty; when the client passes the rate-limit check and the
    chat exists, the handler reads [role] on the undefined last element and
    throws, so the turn is answered 500 ("Failed to process chat request")
    rather than 400, with the rate-limit check already counted, nothing
    persisted and no provider call made. *)
Theorem chat_empty_messages (env : Env) (req : Request) (w : World)
    (data : Schema.ChatRequest) (m : gmap string RateLimitEntry) (c : Storage.Chat)
    (Hvalid : Schema.safeParse (body req) = Schema.Valid data)
    (Hempty : Schema.messages data = [])
    (Hgate : checkRateLimit (date_now env) (clientIp req)
               (globalRateLimit w) (rateLimitMap w) = (true, m))
    (Hchat : Storage.getChat (Schema.chatId data) (storage w) = Some c) :
  (∀ fields chatId,
     Js.lookup_field "chatId" fields = Js.Str chatId →
     Js.lookup_field "messages" fields = Js.Arr [] →
     Js.lookup_field "model" fields = Js.Undefined →
     Schema.safeParse (Js.Obj fields)
       = Schema.Valid {| Schema.chatId := chatId; Schema.messages := [];
                         Schema.model := None |})
  ∧ (chat env req w).1
      = {| status := 500;
           json := Error "Failed to process chat request"
                     (Some (Text "Cannot read properties of undefined (reading 'role')")) |}
  ∧ (chat env req w).2 = set_rateLimitMap m w
  ∧ storage (chat env req w).2 = storage w
  ∧ outbound (chat env req w).2 = outbound w.
Proof.
  split.
  { intros fields chatId Hc Hm Hmodel. unfold Schema.safeParse.
    by rewrite Hc, Hm, Hmodel. }
  assert (chat env req w
          = ({| status := 500;
                json := Error "Failed to process chat request"
                  (Some (Text "Cannot read properties of undefined (reading 'role')")) |},
             set_rateLimitMap m w)) as ->; [| done].
  unfold chat. rewrite chat_try_gate, Hgate. unfold validated. rewrite Hvalid.
  rewrite bind_run. simpl. rewrite Hchat. unfold turn. rewrite Hempty. reflexivity.
Qed.

Lemma chat_empty_messages_witness :
  let turn := chat (Example.env (Example.completion "hi"))
                (Example.request "c1" [] []) Example.world in
  status turn.1 = 500
  ∧ rateLimitMap turn.2 !! "203.0.113.7" = Some {| count := 1; resetTime := 61000 |}
  ∧ Storage.messages (storage turn.2) = [].
Proof.
  intros turn.
  destruct (chat_empty_messages (Example.env (Example.completion "hi"))
              (Example.request "c1" [] []) Example.world
              {| Schema.chatId := "c1"; Schema.messages := []; Schema.model := None |}
              (<["203.0.113.7" := {| count := 1; resetTime := 61000 |}]> ∅)
              Example.conversation)
    as (_ & Hresponse & Hworld & _).
  - reflexivity.
  - reflexivity.
  - reflexivity.
  - reflexivity.
  - subst turn. rewrite Hresponse, Hworld. repeat split.
Defined.

(** C10 as worded fails for a request that names no existing chat: the
    schema accepts the empty messages array, and the turn ends at the chat
    lookup with 404, before the last message is read. *)
Lemma chat_empty_messages_counterexample :
  let req := Example.request "no-such-chat" [] [] in
  let turn := chat (Example.env (Example.completion "hi")) req Example.world in
  Schema.safeParse (body req)
    = Schema.Valid {| Schema.chatId := "no-such-chat"; Schema.messages := [];
                      Schema.model := None |}
  ∧ turn.1 = {| status := 404; json := Error "Chat not found" None |}
  ∧ status turn.1 ≠ 500.
Proof. intros req turn. split; [reflexivity |]. split; [reflexivity | discriminate]. Qed.






(** C6, as the code has it.  A turn answered 200 comes from a validated
    request with a last message, returns [{message, messageId, model}], and
    has appended to the message map: the user message (role user, model
    null) when the last message of the request has role user, and nothing
    for it otherwise; then the assistant message, whose model is the
    requested model id ("gpt-5" when the request names none), an empty id
    being stored as null.  The two [randomUUID()] results are taken to be
    fresh and distinct. *)
Theorem chat_success_persistence (env : Env) (req : Request) (w : World)
    (Hsuccess : status (chat env req w).1 = 200)
    (Hfresh_user : user_uuid env ∉ (Storage.messages (storage w)).*1)
    (Hfresh_assistant : assistant_uuid env ∉ (Storage.messages (storage w)).*1)
    (Hdistinct : user_uuid env ≠ assistant_uuid env) :
  ∃ data um text,
    Schema.safeParse (body req) = Schema.Valid data
    ∧ last (Schema.messages data) = Some um
    ∧ let model := default "gpt-5" (Schema.model data) in
      let userMessage :=
        {| Storage.id := user_uuid env;
           Storage.chatId := Schema.chatId data;
           Storage.role := user;
           Storage.content := Js.Str (Schema.content um);
           Storage.model := None;
           Storage.timestamp := user_date env |} in
      let assistantMessage :=
        {| Storage.id := assistant_uuid env;
           Storage.chatId := Schema.chatId data;
           Storage.role := assistant;
           Storage.content := text;
           Storage.model := if String.eqb model "" then None else Some model;
           Storage.timestamp := assistant_date env |} in
      (chat env req w).1
        = {| status := 200; json := Reply text (assistant_uuid env) model |}
      ∧ Storage.messages (storage (chat env req w).2)
          = Storage.messages (storage w)
            ++ (if decide (Schema.role um = user)
                then [(user_uuid env, userMessage)] else [])
            ++ [(assistant_uuid env, assistantMessage)].
Proof.
  destruct (chat_progress env req w)
    as [_ Hstatus | ? ? ? ? ? ? ? _ _ _ _ _ _ Hrun
        | m data c um provider endpoint apiKey r _ Hvalid _ Hlast _ _ Hrun];
    [done | by rewrite Hrun in Hsuccess |].
  rewrite Hrun in Hsuccess |- *. cbv zeta in Hsuccess |- *.
  destruct (fetch env r) as [e | code errorText document].
  { by apply chat_catch_not_200 in Hsuccess. }
  destruct (ok code) eqn:Hok.
  2:{ rewrite answer_vendor_error in Hsuccess by done. simpl in Hsuccess.
      by apply ok_200 in Hok. }
  rewrite answer_ok in Hsuccess |- * by done.
  destruct document as [responseData | e];
    [| by apply chat_catch_not_200 in Hsuccess].
  destruct (extract provider responseData) as [text | e];
    [| by apply chat_catch_not_200 in Hsuccess].
  destruct (Js.truthy text); [| done].
  exists data, um, text. split; [done |]. split; [done |].
  cbv zeta. split; [done |].
  unfold settle. cbn [snd storage set_storage log Storage.createMessage
                      Storage.messages set_rateLimitMap].
  cbn [Storage.ins_chatId Storage.ins_role Storage.ins_content Storage.ins_model].
  unfold user_message_stored.
  destruct (decide (Schema.role um = user)).
  - cbn [snd Storage.createMessage Storage.messages].
    rewrite (map_set_fresh (user_uuid env)) by done.
    rewrite map_set_fresh; [by rewrite <- app_assoc |].
    rewrite fmap_app. simpl. intros Hin.
    apply elem_of_app in Hin as [Hin | Hin]; [done |].
    apply list_elem_of_singleton in Hin. congruence.
  - by rewrite map_set_fresh.
Qed.

Lemma chat_success_persistence_witness :
  let env := Example.env (Example.completion "hi") in
  let req := Example.request "c1" [Example.message "user" "hello"]
               [("model", Js.Str "gpt-4o")] in
  ∃ data um text,
    Schema.safeParse (body req) = Schema.Valid data
    ∧ last (Schema.messages data) = Some um
    ∧ (chat env req Example.world).1
        = {| status := 200;
             json := Reply text "uuid-2" (default "gpt-5" (Schema.model data)) |}
    ∧ length (Storage.messages (storage (chat env req Example.world).2)) = 2%nat.
Proof.
  intros env req.
  destruct (chat_success_persistence env req Example.world)
    as (data & um & text & Hvalid & Hlast & Hresponse & Hmessages).
  - reflexivity.
  - simpl. apply not_elem_of_nil.
  - simpl. apply not_elem_of_nil.
  - discriminate.
  - exists data, um, text. split; [exact Hvalid |]. split; [exact Hlast |].
    split; [exact Hresponse | reflexivity].
Defined.

(** C6 as the specification words it fails on two successful turns.  In the
    first the last message of the request has role assistant: the turn is
    answered 200 and creates the assistant message alone.  In the second the
    request names the empty model id: the turn is answered 200 and the
    assistant message is stored with model null. *)
Lemma chat_success_persistence_counterexample :
  let env := Example.env (Example.completion "hi") in
  let first := chat env
                 (Example.request "c1" [Example.message "user" "hello";
                                        Example.message "assistant" "go on"] [])
                 Example.world in
  let second := chat env
                  (Example.request "c1" [Example.message "user" "hello"]
                     [("model", Js.Str "")])
                  Example.world in
  (first.1 = {| status := 200; json := Reply (Js.Str "hi") "uuid-2" "gpt-5" |}
   ∧ Storage.messages (storage first.2)
       = [("uuid-2", {| Storage.id := "uuid-2"; Storage.chatId := "c1";
                        Storage.role := assistant; Storage.content := Js.Str "hi";
                        Storage.model := Some "gpt-5";
                        Storage.timestamp := 1900 |})])
  ∧ (second.1 = {| status := 200; json := Reply (Js.Str "hi") "uuid-2" "" |}
     ∧ Storage.messages (storage second.2)
         = [("uuid-1", {| Storage.id := "uuid-1"; Storage.chatId := "c1";
                          Storage.role := user; Storage.content := Js.Str "hello";
                          Storage.model := None; Storage.timestamp := 1001 |});
            ("uuid-2", {| Storage.id := "uuid-2"; Storage.chatId := "c1";
                          Storage.role := assistant; Storage.content := Js.Str "hi";
                          Storage.model := None; Storage.timestamp := 1900 |})]).
Proof. intros env first second. repeat split. Qed.

(** ** Response extraction *)

(** The text is found in each provider's documented response shape. *)
Lemma extract_documented_shapes (provider text : Js.value) :
  extract (Js.Str "gemini")
    (Js.Obj [("candidates", Js.Arr [Js.Obj [("content",
       Js.Obj [("parts", Js.Arr [Js.Obj [("text", text)]])])]])]) = Js.Ok text
  ∧ extract (Js.Str "anthropic")
      (Js.Obj [("content", Js.Arr [Js.Obj [("text", text)]])]) = Js.Ok text
  ∧ (strict_eq provider "gemini" = false →
     strict_eq provider "anthropic" = false →
     extract provider
       (Js.Obj [("choices", Js.Arr [Js.Obj [("message",
          Js.Obj [("content", text)])]])]) = Js.Ok text).
Proof.
  split; [done |]. split; [done |].
  intros Hgemini Hanthropic. unfold extract. by rewrite Hgemini, Hanthropic.
Qed.

(** Apart from the document [null], every document yields a value, which
    is undefined as soon as a link of the path is missing. *)
Lemma extract_total (provider responseData : Js.value) :
  responseData ≠ Js.Null → responseData ≠ Js.Undefined →
  ∃ assistantMessage, extract provider responseData = Js.Ok assistantMessage.
Proof.
  intros Hnull Hundefined. unfold extract.
  destruct responseData; try done; repeat case_match; simplify_eq; eauto.
Qed.

(** The first property read of the path throws on the document [null]. *)
Lemma extract_null (provider : Js.value) :
  extract provider Js.Null
  = Js.Thrown (Js.cannot_read "null"
      (if strict_eq provider "gemini" then "candidates"
       else if strict_eq provider "anthropic" then "content" else "choices")).
Proof. unfold extract. by repeat case_match. Qed.

(** When the provider answers 2xx with a document in which the expected
    field is missing or falsy, the turn is answered 500 "No response from AI
    model" and the store is as the user-message step left it. *)
Lemma chat_no_assistant_text (env : Env) (req : Request) (w : World)
    (r : OutboundRequest) (code : Z) (text : string)
    (provider endpoint apiKey responseData assistantMessage : Js.value) :
  outbound (chat env req w).2 = outbound w ++ [r] →
  fetch env r = Fetched code text (Js.Ok responseData) →
  ok code = true →
  provider_config env req = Js.Ok (provider, endpoint, apiKey) →
  extract provider responseData = Js.Ok assistantMessage →
  Js.truthy assistantMessage = false →
  (chat env req w).1
    = {| status := 500; json := Error "No response from AI model" None |}
  ∧ ∃ data um,
      Schema.safeParse (body req) = Schema.Valid data
      ∧ last (Schema.messages data) = Some um
      ∧ storage (chat env req w).2
          = user_message_stored env (Schema.chatId data) um (storage w).
Proof.
  intros Hcall Hfetch Hok Hconfig Hextract Hfalsy.
  destruct (chat_outbound env req w r Hcall)
    as (m & data & c & um & provider' & endpoint' & apiKey'
        & _ & Hvalid & _ & Hlast & Hconfig' & _ & Hrun).
  rewrite Hconfig in Hconfig'. simplify_eq.
  rewrite Hrun, Hfetch. cbv zeta. rewrite answer_ok by done.
  rewrite Hextract, Hfalsy. simpl. split; [done |]. by exists data, um.
Qed.

(** C4, at the input on which the code departs from the claim.  The
    provider answers 200 with the JSON document [null]: whatever the
    provider kind, the first property read of the extraction throws, the
    catch block answers 500 "Failed to process chat request", and the answer
    "No response from AI model" that the missing field calls for is never
    sent.  The user message stays, no assistant message is created. *)
Theorem chat_null_document :
  let env := Example.env (Fetched 200 "null" (Js.Ok Js.Null)) in
  let turn provider :=
    chat env (Example.request "c1" [Example.message "user" "hello"]
                [("provider", Js.Str provider)]) Example.world in
  let failed field :=
    {| status := 500;
       json := Error "Failed to process chat request"
                 (Some (Text ("Cannot read properties of null (reading '"
                              +:+ field +:+ "')"))) |} in
  (turn "openai").1 = failed "choices"
  ∧ (turn "anthropic").1 = failed "content"
  ∧ (turn "gemini").1 = failed "candidates"
  ∧ (turn "openai").1 ≠ {| status := 500; json := Error "No response from AI model" None |}
  ∧ (Storage.role <$> (Storage.messages (storage (turn "openai").2)).*2) = [user].
Proof.
  intros env turn failed. split; [reflexivity |]. split; [reflexivity |].
  split; [reflexivity |]. split; [discriminate | reflexivity].
Qed.

(** * Further properties of the code *)

(** Membership in a list written out. *)
Ltac in_list :=
  simpl; repeat first [ apply list_elem_of_here | apply list_elem_of_further ].

(** Closed facts about the sample data, settled by evaluation. *)
Ltac by_computation := apply (bool_decide_unpack _); vm_compute; reflexivity.

Ltac sample_keyed :=
  match goal with
  | |- MemStorage.chats_keyed ?st =>
      change (map_Forall (λ k c, Storage.chat_id c = k) (Storage.chats st));
      by_computation
  end.

Ltac sample_integrity :=
  unfold MemStorage.integrity; apply Forall_forall; by_computation.

Ltac sample_listed :=
  unfold MemStorage.lists_chats;
  match goal with
  | |- ?l ≡ₚ ?r => let r' := eval vm_compute in r in change (l ≡ₚ r')
  end;
  first [ reflexivity | apply perm_swap ].

Section MoreStorage.

Import Storage MemStorage.

Lemma insert_by_timestamp_sorted x l :
  Sorted older l → Sorted older (insert_by_timestamp x l).
Proof.
  induction 1 as [| y l Hsorted IH Hhd]; simpl.
  { repeat constructor. }
  destruct (Z.leb_spec (timestamp x) (timestamp y)) as [Hle | Hgt].
  { constructor; [by constructor | by constructor]. }
  constructor; [done |].
  destruct l as [| z l]; simpl in *.
  { constructor. unfold older. lia. }
  destruct (Z.leb_spec (timestamp x) (timestamp z)).
  - constructor. unfold older. lia.
  - constructor. by inversion Hhd.
Qed.

Lemma sort_by_timestamp_sorted l : Sorted older (sort_by_timestamp l).
Proof.
  induction l as [| x l IH]; simpl; [constructor |].
  by apply insert_by_timestamp_sorted.
Qed.

(** Inserting leaves the messages of every instant in their order, the new
    one first among its equals. *)
Lemma insert_by_timestamp_ties x l (t : Z) :
  filter (λ m, timestamp m = t) (insert_by_timestamp x l)
  = filter (λ m, timestamp m = t) (x :: l).
Proof.
  induction l as [| y l IH]; [done |]. simpl.
  destruct (Z.leb_spec (timestamp x) (timestamp y)) as [Hle | Hgt]; [done |].
  rewrite filter_cons, IH, !filter_cons.
  destruct (decide (timestamp y = t)), (decide (timestamp x = t)); try done.
  lia.
Qed.

Lemma sort_by_timestamp_ties l (t : Z) :
  filter (λ m, timestamp m = t) (sort_by_timestamp l)
  = filter (λ m, timestamp m = t) l.
Proof.
  induction l as [| x l IH]; [done |]. simpl.
  rewrite insert_by_timestamp_ties, !filter_cons. by rewrite IH.
Qed.

Lemma sort_by_timestamp_sorted_id l :
  Sorted older l → sort_by_timestamp l = l.
Proof.
  induction 1 as [| x l Hsorted IH Hhd]; [done |]. simpl. rewrite IH.
  destruct Hhd as [| y l Hxy]; [done |]. simpl.
  unfold older in Hxy. by destruct (Z.leb_spec (timestamp x) (timestamp y)); [| lia].
Qed.

Lemma insert_by_timestamp_snoc a l x :
  timestamp a ≤ timestamp x →
  insert_by_timestamp a (l ++ [x]) = insert_by_timestamp a l ++ [x].
Proof.
  intros Hle. induction l as [| y l IH]; simpl.
  - by destruct (Z.leb_spec (timestamp a) (timestamp x)); [| lia].
  - destruct (timestamp a <=? timestamp y); [done |]. by rewrite IH.
Qed.

Lemma sort_by_timestamp_snoc l x :
  Forall (λ old, timestamp old ≤ timestamp x) l →
  sort_by_timestamp (l ++ [x]) = sort_by_timestamp l ++ [x].
Proof.
  induction 1 as [| a l Ha Hl IH]; [done |]. simpl.
  by rewrite IH, insert_by_timestamp_snoc.
Qed.

(** X1. [getMessagesByChatId] lists exactly the stored messages of the chat
    (nothing lost, nothing added), oldest first, and messages stamped with
    the same instant come in the order they were stored. *)
Theorem getMessagesByChatId_sorted (key : string) (st : MemStorage) :
  Sorted (λ a b, timestamp a ≤ timestamp b) (getMessagesByChatId key st)
  ∧ getMessagesByChatId key st ≡ₚ filter (λ m, chatId m = key) (messages st).*2
  ∧ (∀ t : Z,
       filter (λ m, timestamp m = t) (getMessagesByChatId key st)
       = filter (λ m, timestamp m = t ∧ chatId m = key) (messages st).*2).
Proof.
  unfold getMessagesByChatId. split; [apply sort_by_timestamp_sorted |].
  split; [apply sort_by_timestamp_perm |].
  intros t. by rewrite sort_by_timestamp_ties, list_filter_filter.
Qed.

(** X2. When the messages of a chat were stored with timestamps that never
    go back, [getMessagesByChatId] returns them in the order they were
    stored. *)
Theorem getMessagesByChatId_insertion_order (key : string) (st : MemStorage)
    (Hclock : Sorted (λ a b, timestamp a ≤ timestamp b)
                (filter (λ m, chatId m = key) (messages st).*2)) :
  getMessagesByChatId key st = filter (λ m, chatId m = key) (messages st).*2.
Proof. by apply sort_by_timestamp_sorted_id. Qed.

(** X3. After [createMessage] with an id not yet in use, the created message
    carries that id, its chat and the given instant; it is appended to the
    message map and listed for its chat, last when no stored message of the
    chat is younger; the listings of the other chats are unchanged. *)
Theorem createMessage_listed (uuid : string) (now : Z)
    (insertMessage : InsertMessage) (st : MemStorage)
    (Hfresh : uuid ∉ (messages st).*1) :
  let created := (createMessage uuid now insertMessage st).1 in
  let st' := (createMessage uuid now insertMessage st).2 in
  let key := ins_chatId insertMessage in
  id created = uuid ∧ chatId created = key ∧ timestamp created = now
  ∧ messages st' = messages st ++ [(uuid, created)]
  ∧ getMessagesByChatId key st' ≡ₚ created :: getMessagesByChatId key st
  ∧ (Forall (λ old, timestamp old ≤ now) (getMessagesByChatId key st) →
     getMessagesByChatId key st' = getMessagesByChatId key st ++ [created])
  ∧ (∀ other, other ≠ key →
       getMessagesByChatId other st' = getMessagesByChatId other st).
Proof.
  intros created st' key.
  assert (messages st' = messages st ++ [(uuid, created)]) as Hmessages.
  { unfold st'. simpl. by rewrite map_set_fresh. }
  split; [done |]. split; [done |]. split; [done |]. split; [done |].
  unfold getMessagesByChatId. rewrite Hmessages, fmap_app, filter_app. simpl.
  split; [| split].
  - rewrite filter_cons_True by done. rewrite filter_nil.
    rewrite !sort_by_timestamp_perm. symmetry. apply Permutation_cons_append.
  - intros Hold. rewrite filter_cons_True by done. rewrite filter_nil.
    apply sort_by_timestamp_snoc.
    by rewrite <- (sort_by_timestamp_perm (filter _ _)).
  - intros other Hne. rewrite filter_app.
    rewrite filter_cons_False; [| exact (λ Heq, Hne (eq_sym Heq))].
    by rewrite filter_nil, app_nil_r.
Qed.

Lemma createMessage_listed_witness :
  let insertMessage :=
    {| Storage.ins_chatId := "c1"; Storage.ins_role := user;
       Storage.ins_content := Js.Str "again"; Storage.ins_model := None |} in
  let st' := (Storage.createMessage "m4" 40 insertMessage Sample.store).2 in
  Storage.id <$> Storage.getMessagesByChatId "c1" st' = ["m1"; "m3"; "m4"]
  ∧ Storage.getMessagesByChatId "c2" st'
    = Storage.getMessagesByChatId "c2" Sample.store.
Proof.
  intros insertMessage st'.
  destruct (createMessage_listed "m4" 40 insertMessage Sample.store)
    as (_ & _ & _ & _ & _ & Hlast & Hother).
  - by_computation.
  - split.
    + etransitivity; [apply f_equal, Hlast | reflexivity].
      repeat constructor; simpl; lia.
    + apply Hother. discriminate.
Defined.

Lemma getMessagesByChatId_insertion_order_witness :
  Storage.getMessagesByChatId "c1" Sample.store
  = [(Sample.entry "m1" "c1" user "hi" 10).2;
     (Sample.entry "m3" "c1" assistant "hello" 30).2].
Proof.
  rewrite (getMessagesByChatId_insertion_order "c1" Sample.store).
  - reflexivity.
  - change (Sorted (λ a b, Storage.timestamp a ≤ Storage.timestamp b)
              [(Sample.entry "m1" "c1" user "hi" 10).2;
               (Sample.entry "m3" "c1" assistant "hello" 30).2]).
    repeat constructor. simpl. lia.
Defined.

Lemma deleteMessagesByChatId_messages key st :
  messages (deleteMessagesByChatId key st) = messages (deleteChat key st).
Proof. reflexivity. Qed.

(** X4. [deleteMessagesByChatId] empties the listing of the chat and leaves
    the chat itself, every other chat and its messages in place; [deleteChat]
    is the same removal of messages together with the removal of the chat. *)
Theorem deleteMessagesByChatId_clears (key : string) (st : MemStorage)
    (Hwf : Storage.wf st) :
  chats (deleteMessagesByChatId key st) = chats st
  ∧ getMessagesByChatId key (deleteMessagesByChatId key st) = []
  ∧ messages (deleteMessagesByChatId key st)
      = filter (λ e, chatId e.2 ≠ key) (messages st)
  ∧ (∀ other, other ≠ key →
       getMessagesByChatId other (deleteMessagesByChatId key st)
         = getMessagesByChatId other st)
  ∧ deleteChat key st
      = {| chats := delete key (chats st);
           messages := messages (deleteMessagesByChatId key st) |}.
Proof.
  split; [done |].
  cut (getMessagesByChatId key (deleteMessagesByChatId key st) = []
       ∧ messages (deleteMessagesByChatId key st)
           = filter (λ e, chatId e.2 ≠ key) (messages st)
       ∧ (∀ other, other ≠ key →
            getMessagesByChatId other (deleteMessagesByChatId key st)
              = getMessagesByChatId other st)); [tauto |].
  unfold getMessagesByChatId. rewrite deleteMessagesByChatId_messages.
  rewrite (deleteChat_messages key st Hwf).
  split; [| split; [done |]].
  - rewrite filter_snd, list_filter_filter.
    rewrite (filter_ext_elem _ (λ _, False)); [| tauto].
    by induction (messages st).
  - intros other Hne. f_equal. rewrite !filter_snd, list_filter_filter.
    f_equal. apply list_filter_iff. intros e. split; [tauto |].
    intros Heq. split; [done | congruence].
Qed.

Lemma deleteMessagesByChatId_clears_witness :
  Storage.messages (MemStorage.deleteMessagesByChatId "c1" Sample.store)
  = [Sample.entry "m2" "c2" user "yo" 20]
  ∧ Storage.getMessagesByChatId "c1"
      (MemStorage.deleteMessagesByChatId "c1" Sample.store) = [].
Proof.
  destruct (deleteMessagesByChatId_clears "c1" Sample.store)
    as (_ & Hgone & Hkept & _).
  - by_computation.
  - split; [rewrite Hkept; reflexivity | exact Hgone].
Defined.

Lemma deleteChat_eq key st :
  wf st →
  deleteChat key st
  = {| chats := delete key (chats st);
       messages := filter (λ e, chatId e.2 ≠ key) (messages st) |}.
Proof.
  intros Hwf. rewrite <- (deleteChat_messages key st Hwf). reflexivity.
Qed.

Lemma deleteChat_twice key st :
  wf st → deleteChat key (deleteChat key st) = deleteChat key st.
Proof.
  intros Hwf. pose proof (wf_deleteChat key st Hwf) as Hwf'.
  rewrite (deleteChat_eq key (deleteChat key st) Hwf'), (deleteChat_eq key st Hwf).
  simpl. f_equal.
  - apply delete_delete_eq.
  - rewrite list_filter_filter. apply list_filter_iff. tauto.
Qed.

Lemma deleteChat_swap a b st :
  wf st → deleteChat a (deleteChat b st) = deleteChat b (deleteChat a st).
Proof.
  intros Hwf.
  pose proof (wf_deleteChat a st Hwf) as Hwfa.
  pose proof (wf_deleteChat b st Hwf) as Hwfb.
  rewrite (deleteChat_eq a (deleteChat b st) Hwfb),
          (deleteChat_eq b (deleteChat a st) Hwfa),
          (deleteChat_eq a st Hwf), (deleteChat_eq b st Hwf).
  simpl. f_equal.
  - apply delete_delete.
  - rewrite !list_filter_filter. apply list_filter_iff. tauto.
Qed.

(** X5. Deleting a chat twice is deleting it once, and two deletions can be
    made in either order. *)
Theorem deleteChat_idempotent_commutes (a b : string) (st : MemStorage)
    (Hwf : Storage.wf st) :
  deleteChat a (deleteChat a st) = deleteChat a st
  ∧ deleteChat a (deleteChat b st) = deleteChat b (deleteChat a st).
Proof. split; [by apply deleteChat_twice | by apply deleteChat_swap]. Qed.

(** X6. [createChat] files the chat under its id, with no owner: [getChat]
    returns it, the other chats are untouched, and no message is touched, so
    a chat created under an id already in use takes over the messages stored
    for that id; deleting the chat afterwards gives what deleting it before
    would have given. *)
Theorem createChat_roundtrip (now : Z) (insertChat : InsertChat) (st : MemStorage) :
  let created := (createChat now insertChat st).1 in
  let st' := (createChat now insertChat st).2 in
  getChat (ins_id insertChat) st' = Some created
  ∧ chat_id created = ins_id insertChat
  ∧ userId created = None
  ∧ (∀ other, other ≠ ins_id insertChat → getChat other st' = getChat other st)
  ∧ (∀ key, getMessagesByChatId key st' = getMessagesByChatId key st)
  ∧ deleteChat (ins_id insertChat) st' = deleteChat (ins_id insertChat) st.
Proof.
  intros created st'. unfold getChat. simpl.
  split; [apply lookup_insert_eq |]. split; [done |]. split; [done |].
  split; [intros other Hne; by apply lookup_insert_ne |]. split; [done |].
  unfold deleteChat. simpl. by rewrite delete_insert_eq.
Qed.

Lemma createChat_roundtrip_witness :
  let again := {| MemStorage.ins_id := "c1"; MemStorage.ins_name := "Renamed" |} in
  let st' := (MemStorage.createChat 50 again Sample.store).2 in
  Storage.getChat "c2" st' = Storage.getChat "c2" Sample.store
  ∧ Storage.getMessagesByChatId "c1" st'
    = Storage.getMessagesByChatId "c1" Sample.store.
Proof.
  intros again st'.
  destruct (createChat_roundtrip 50 again Sample.store)
    as (_ & _ & _ & Hother & Hmessages & _).
  split; [apply Hother; discriminate | apply Hmessages].
Defined.

Lemma deleteChat_idempotent_commutes_witness :
  Storage.deleteChat "c1" (Storage.deleteChat "c2" Sample.store)
  = Storage.deleteChat "c2" (Storage.deleteChat "c1" Sample.store).
Proof.
  apply (deleteChat_idempotent_commutes "c1" "c2" Sample.store).
  by_computation.
Defined.

(** createMessage for a chat that exists. *)
Lemma integrity_createMessage uuid now insertMessage st
    (c : Chat) :
  integrity st → getChat (ins_chatId insertMessage) st = Some c →
  integrity (createMessage uuid now insertMessage st).2.
Proof.
  intros Hint Hchat [k m] Hin. simpl in *.
  assert (∀ (l : list (string * Message)) v, (k, m) ∈ map_set uuid v l →
            (k, m) = (uuid, v) ∨ (k, m) ∈ l) as Hset.
  { clear. induction l as [| [k' v'] l IH]; intros v; simpl.
    - rewrite list_elem_of_singleton. tauto.
    - destruct (String.eqb uuid k'); rewrite !elem_of_cons; [tauto |].
      intros [? | Hin]; [tauto |]. destruct (IH _ Hin); tauto. }
  apply Hset in Hin as [Heq | Hin].
  - injection Heq as -> ->. simpl. by exists c.
  - by apply (Hint (k, m)).
Qed.

(** X7. A store in which message ids are unique, every chat is filed under
    its own id and every message belongs to an existing chat stays so under
    [createChat], [deleteChat], [deleteMessagesByChatId], and [createMessage]
    for a chat that exists. *)
Theorem store_invariants_kept (st : MemStorage)
    (Hwf : Storage.wf st) (Hkeyed : chats_keyed st) (Hint : integrity st) :
  let kept st' := Storage.wf st' ∧ chats_keyed st' ∧ integrity st' in
  (∀ now insertChat, kept (createChat now insertChat st).2)
  ∧ (∀ key, kept (deleteChat key st))
  ∧ (∀ key, kept (deleteMessagesByChatId key st))
  ∧ (∀ uuid now insertMessage c,
       getChat (ins_chatId insertMessage) st = Some c →
       kept (createMessage uuid now insertMessage st).2).
Proof.
  intros kept. unfold kept. split; [| split; [| split]].
  - intros now insertChat. split; [done |]. split.
    + intros k c. simpl. destruct (decide (k = ins_id insertChat)) as [-> | Hne].
      * rewrite lookup_insert_eq. by intros [= <-].
      * rewrite lookup_insert_ne by done. apply Hkeyed.
    + intros e He. simpl.
      destruct (decide (chatId e.2 = ins_id insertChat)) as [-> | Hne].
      * rewrite lookup_insert_eq. eauto.
      * rewrite lookup_insert_ne by done. by apply Hint.
  - intros key. split; [by apply wf_deleteChat |]. split.
    + intros k c. simpl. intros Hk. apply lookup_delete_Some in Hk as [_ Hk].
      by apply Hkeyed.
    + intros e. rewrite (deleteChat_eq key st Hwf). simpl.
      intros [Hne He]%list_elem_of_filter.
      rewrite lookup_delete_ne by done. by apply Hint.
  - intros key. split; [exact (wf_deleteChat key st Hwf) |]. split; [done |].
    intros e. rewrite deleteMessagesByChatId_messages, (deleteChat_messages key st Hwf).
    simpl. intros [_ He]%list_elem_of_filter. by apply Hint.
  - intros uuid now insertMessage c Hchat.
    split; [by apply wf_createMessage |]. split; [done |].
    by apply integrity_createMessage with c.
Qed.

Lemma store_invariants_kept_witness :
  let st := Storage.deleteChat "c1" Sample.store in
  Storage.wf st ∧ MemStorage.chats_keyed st ∧ MemStorage.integrity st.
Proof.
  intros st.
  destruct (store_invariants_kept Sample.store) as (_ & Hdelete & _).
  - by_computation.
  - sample_keyed.
  - sample_integrity.
  - exact (Hdelete "c1").
Defined.

Lemma map_get_app_fresh {V} (k : string) (v : V) (entries : list (string * V)) :
  k ∉ entries.*1 → map_get k (entries ++ [(k, v)]) = Some v.
Proof.
  induction entries as [| [k' v'] entries IH]; simpl.
  - by rewrite String.eqb_refl.
  - rewrite not_elem_of_cons. intros [Hne Hfresh].
    destruct (String.eqb_spec k k'); [done | by apply IH].
Qed.

Lemma map_get_app_other {V} (k other : string) (v : V) (entries : list (string * V)) :
  other ≠ k → map_get other (entries ++ [(k, v)]) = map_get other entries.
Proof.
  intros Hne. induction entries as [| [k' v'] entries IH]; simpl.
  - by destruct (String.eqb_spec other k).
  - by destruct (String.eqb other k').
Qed.

Lemma find_snoc {A} (p : A → bool) (l : list A) (x : A) :
  List.find p (l ++ [x])
  = match List.find p l with
    | Some y => Some y
    | None => if p x then Some x else None
    end.
Proof.
  induction l as [| y l IH]; simpl; [done |]. by destruct (p y).
Qed.

(** X8. After [createUser] with an id not yet in use, [getUser] finds the
    new user under that id and the others as before; usernames are not kept
    unique: [getUserByUsername] returns the earliest user of that name, the
    new one only if there was none. *)
Theorem createUser_roundtrip (uuid : string) (insertUser : InsertUser)
    (users : list (string * User)) (Hfresh : uuid ∉ users.*1) :
  let created := (createUser uuid insertUser users).1 in
  let users' := (createUser uuid insertUser users).2 in
  getUser uuid users' = Some created
  ∧ (∀ other, other ≠ uuid → getUser other users' = getUser other users)
  ∧ getUserByUsername (ins_username insertUser) users'
      = match getUserByUsername (ins_username insertUser) users with
        | Some earlier => Some earlier
        | None => Some created
        end
  ∧ (∀ wanted, wanted ≠ ins_username insertUser →
       getUserByUsername wanted users' = getUserByUsername wanted users).
Proof.
  intros created users'. unfold users', getUser, getUserByUsername, createUser.
  cbn [fst snd]. rewrite map_set_fresh by done.
  split; [by apply map_get_app_fresh |].
  split; [intros other Hne; by apply map_get_app_other |].
  rewrite fmap_app. simpl. split.
  - rewrite find_snoc. simpl. by rewrite String.eqb_refl.
  - intros wanted Hne. rewrite find_snoc. simpl.
    destruct (String.eqb_spec (ins_username insertUser) wanted); [done |].
    by destruct (List.find _ _).
Qed.

Lemma createUser_roundtrip_witness :
  let insertUser := {| MemStorage.ins_username := "ada"; MemStorage.ins_password := "y" |} in
  let users' := (MemStorage.createUser "u2" insertUser Sample.users).2 in
  MemStorage.user_id <$> MemStorage.getUser "u2" users' = Some "u2"
  ∧ MemStorage.user_id <$> MemStorage.getUserByUsername "ada" users' = Some "u1".
Proof.
  intros insertUser users'.
  destruct (createUser_roundtrip "u2" insertUser Sample.users)
    as (Hget & _ & Hname & _).
  - by_computation.
  - split.
    + etransitivity; [apply f_equal, Hget | reflexivity].
    + etransitivity; [apply f_equal, Hname | reflexivity].
Defined.

End MoreStorage.





Lemma checkRateLimit_calls_full times ip (limit : Z)
    (m : gmap string RateLimitEntry) e :
  m !! ip = Some e →
  Forall (λ now, now ≤ resetTime e) times →
  limit ≤ count e →
  checkRateLimit_calls times ip limit m = (replicate (length times) false, m).
Proof.
  intros Hm Hall Hfull. induction Hall as [| now later Hnow Hlater IH]; [done |].
  cbn [checkRateLimit_calls length replicate].
  rewrite (checkRateLimit_within _ _ _ _ _ Hm Hnow).
  destruct (Z.ltb_spec (count e) limit); [lia |]. by rewrite IH.
Qed.

(** X10. With a limit of 1 or less (0 and negative limits included) the
    first call of a client without an entry is still allowed, and every
    further call within the window it opens is rejected, leaving the entry at
    count 1. *)
Theorem checkRateLimit_low_limit (first : Z) (later : list Z) (ip : string)
    (limit : Z) (m : gmap string RateLimitEntry)
    (Hlow : limit ≤ 1)
    (Hnew : m !! ip = None)
    (Hwindow : Forall (λ now, now ≤ first + 60000) later) :
  checkRateLimit_calls (first :: later) ip limit m
  = (true :: replicate (length later) false,
     <[ip := {| count := 1; resetTime := first + 60000 |}]> m).
Proof.
  cbn [checkRateLimit_calls]. rewrite (checkRateLimit_absent _ _ _ _ Hnew).
  rewrite (checkRateLimit_calls_full later ip limit _ (fresh_window first));
    [done | by rewrite lookup_insert_eq | exact Hwindow | simpl; lia].
Qed.

Lemma checkRateLimit_low_limit_witness :
  checkRateLimit_calls [1000; 1500; 61000] "203.0.113.7" 0 ∅
  = ([true; false; false],
     <["203.0.113.7" := {| count := 1; resetTime := 61000 |}]> ∅).
Proof.
  apply (checkRateLimit_low_limit 1000 [1500; 61000] "203.0.113.7" 0 ∅).
  - lia.
  - reflexivity.
  - repeat constructor; lia.
Defined.

Section TurnEffects.

Context (env : Env) (req : Request).
Implicit Types (w : World).

(** A validated turn stops where it started, or stores the user message
    and fails to build the request, or reaches the provider. *)
Lemma validated_cases w :
  ((settle (validated env req w)).2 = w
   ∧ status (settle (validated env req w)).1 ∈ [400; 404; 500])
  ∨ (∃ data c um,
      Schema.safeParse (body req) = Schema.Valid data
      ∧ Storage.getChat (Schema.chatId data) (storage w) = Some c
      ∧ last (Schema.messages data) = Some um
      ∧ validated env req w
        = (Raised Js.cannot_convert,
           set_storage
             (user_message_stored env (Schema.chatId data) um (storage w)) w))
  ∨ ∃ data c um provider endpoint apiKey r,
      Schema.safeParse (body req) = Schema.Valid data
      ∧ Storage.getChat (Schema.chatId data) (storage w) = Some c
      ∧ last (Schema.messages data) = Some um
      ∧ provider_config env req = Js.Ok (provider, endpoint, apiKey)
      ∧ prepare_request provider endpoint apiKey
          (default "gpt-5" (Schema.model data)) (Schema.messages data) = Js.Ok r
      ∧ validated env req w =
          let w' := log r (set_storage
                      (user_message_stored env (Schema.chatId data) um (storage w)) w) in
          match fetch env r with
          | Rejected e => (Raised e, w')
          | Fetched code text document =>
              answer env (Schema.chatId data)
                (default "gpt-5" (Schema.model data)) provider
                (code, text, document) w'
          end.
Proof.
  unfold validated.
  destruct (Schema.safeParse (body req)) as [data | errors] eqn:Hvalid.
  2:{ left. split; [done |]. in_list. }
  rewrite bind_run. cbn [getChat].
  destruct (Storage.getChat (Schema.chatId data) (storage w)) as [c |] eqn:Hchat.
  2:{ left. split; [done |]. in_list. }
  destruct (last (Schema.messages data)) as [um |] eqn:Hlast.
  2:{ left. apply last_None in Hlast. unfold turn. rewrite Hlast.
      split; [done |]. in_list. }
  destruct (safeParse_object _ _ Hvalid) as [fields Hbody].
  pose proof (provider_config_object env req fields Hbody) as Hconfig.
  destruct (prepare_request_cases
              (Js.or (Js.lookup_field "provider" fields) (Js.Str "github"))
              (Js.or (Js.lookup_field "endpoint" fields) (Js.Str DEFAULT_ENDPOINTS_github))
              (Js.or (Js.lookup_field "apiKey" fields) (Js.Str (GITHUB_TOKEN env)))
              (default "gpt-5" (Schema.model data)) _ _ Hlast)
    as [[r Hrequest] | Hrequest].
  - right. right. eexists data, c, um, _, _, _, r. repeat (split; [done |]).
    by rewrite (turn_run env req data um _ _ _ r _ Hlast Hconfig Hrequest).
  - right. left. exists data, c, um. repeat (split; [done |]).
    by rewrite (turn_unprepared env req data um _ _ _ _ _ Hlast Hconfig Hrequest).
Qed.

Lemma answer_world chatId model provider apiResponse w :
  (settle (answer env chatId model provider apiResponse w)).2 = w
  ∨ ∃ text,
      (settle (answer env chatId model provider apiResponse w)).2
      = set_storage
          (Storage.createMessage (assistant_uuid env) (assistant_date env)
             {| Storage.ins_chatId := chatId;
                Storage.ins_role := assistant;
                Storage.ins_content := text;
                Storage.ins_model := Some model |} (storage w)).2 w.
Proof.
  destruct apiResponse as [[code text] document].
  destruct (ok code) eqn:Hok.
  - rewrite answer_ok by done.
    destruct document as [d |]; [| by left].
    destruct (extract provider d) as [v |]; [| by left].
    destruct (Js.truthy v); [right; by exists v | by left].
  - rewrite answer_vendor_error by done. by left.
Qed.

(** What a turn can have done to the world. *)
Lemma chat_effect w :
  let gate := checkRateLimit (date_now env) (clientIp req)
                (globalRateLimit w) (rateLimitMap w) in
  let w' := (chat env req w).2 in
  rateLimitMap w' = gate.2
  ∧ globalRateLimit w' = globalRateLimit w
  ∧ (outbound w' = outbound w ∨ ∃ r, outbound w' = outbound w ++ [r])
  ∧ (storage w' = storage w
     ∨ ∃ data c um,
         Schema.safeParse (body req) = Schema.Valid data
         ∧ Storage.getChat (Schema.chatId data) (storage w) = Some c
         ∧ last (Schema.messages data) = Some um
         ∧ let stored := user_message_stored env (Schema.chatId data) um (storage w) in
           (storage w' = stored
            ∨ ∃ text,
                storage w'
                = (Storage.createMessage (assistant_uuid env) (assistant_date env)
                     {| Storage.ins_chatId := Schema.chatId data;
                        Storage.ins_role := assistant;
                        Storage.ins_content := text;
                        Storage.ins_model :=
                          Some (default "gpt-5" (Schema.model data)) |} stored).2)).
Proof.
  intros gate w'. unfold w', chat. rewrite chat_try_gate. fold gate.
  pose proof (checkRateLimit_rejected (date_now env) (clientIp req)
                (globalRateLimit w) (rateLimitMap w)) as Hrej. fold gate in Hrej.
  destruct gate as [[] m]; cbn [fst snd] in *.
  2:{ rewrite Hrej by done. simpl. repeat split; auto. }
  destruct (validated_cases (set_rateLimitMap m w))
    as [[-> _] | [(data & c & um & Hvalid & Hchat & Hlast & ->)
                 | (data & c & um & provider & endpoint & apiKey & r
                    & Hvalid & Hchat & Hlast & _ & _ & ->)]].
  { simpl. repeat split; auto. }
  { simpl. split; [done |]. split; [done |]. split; [by left |].
    right. exists data, c, um. repeat (split; [done |]). by left. }
  cbv zeta. destruct (fetch env r) as [e | code text document].
  { simpl. split; [done |]. split; [done |]. split; [right; by exists r |].
    right. exists data, c, um. repeat (split; [done |]). by left. }
  destruct (answer_world (Schema.chatId data) (default "gpt-5" (Schema.model data))
              provider (code, text, document)
              (log r (set_storage
                 (user_message_stored env (Schema.chatId data) um
                    (storage (set_rateLimitMap m w))) (set_rateLimitMap m w))))
    as [-> | [v ->]].
  - simpl. split; [done |]. split; [done |]. split; [right; by exists r |].
    right. exists data, c, um. repeat (split; [done |]). by left.
  - simpl. split; [done |]. split; [done |]. split; [right; by exists r |].
    right. exists data, c, um. repeat (split; [done |]). right. by exists v.
Qed.

End TurnEffects.

Lemma map_set_length {V} (k : string) (v : V) (entries : list (string * V)) :
  (length entries ≤ length (Storage.map_set k v entries) ≤ length entries + 1)%nat.
Proof.
  induction entries as [| [k' v'] entries IH]; simpl; [lia |].
  destruct (String.eqb k k'); simpl; lia.
Qed.

Lemma user_message_stored_length env chatId um st :
  (length (Storage.messages st)
   ≤ length (Storage.messages (user_message_stored env chatId um st))
   ≤ length (Storage.messages st) + 1)%nat.
Proof.
  unfold user_message_stored. destruct (decide _); simpl; [| lia].
  apply map_set_length.
Qed.

Lemma user_message_stored_chats env chatId um st :
  Storage.chats (user_message_stored env chatId um st) = Storage.chats st.
Proof. unfold user_message_stored. by destruct (decide _). Qed.

(** What the user-message step and the assistant message do to the
    entries of the message map. *)
Lemma user_message_stored_entries env chatId um st :
  (∀ e, e ∈ Storage.messages st → e.1 ≠ user_uuid env →
     e ∈ Storage.messages (user_message_stored env chatId um st))
  ∧ (user_uuid env ∉ (Storage.messages st).*1 →
     ∃ added,
       Storage.messages (user_message_stored env chatId um st)
       = Storage.messages st ++ added
       ∧ (length added ≤ 1)%nat
       ∧ Forall (λ e, e.1 = user_uuid env) added).
Proof.
  unfold user_message_stored. destruct (decide _) as [Hrole | Hrole]; simpl.
  - split; [intros e; apply map_set_elem_other |].
    intros Hfresh. rewrite map_set_fresh by done.
    eexists. split; [done |]. split; [simpl; lia | by repeat constructor].
  - split; [done |]. intros _. exists []. rewrite app_nil_r.
    split; [done |]. split; [simpl; lia | constructor].
Qed.

(** X11. Whatever its outcome, a chat turn runs [checkRateLimit] exactly
    once for the client and touches no other client's entry; it never changes
    the global limit nor the chats, calls the provider at most once, and
    removes no message: every stored message stays as it is unless
    [randomUUID()] returns its id again, and with ids that are not in use the
    message map is the old one followed by at most two new entries. *)
Theorem chat_turn_frame (env : Env) (req : Request) (w : World) :
  let w' := (chat env req w).2 in
  rateLimitMap w'
    = (checkRateLimit (date_now env) (clientIp req)
         (globalRateLimit w) (rateLimitMap w)).2
  ∧ (∀ other, other ≠ clientIp req →
       rateLimitMap w' !! other = rateLimitMap w !! other)
  ∧ globalRateLimit w' = globalRateLimit w
  ∧ Storage.chats (storage w') = Storage.chats (storage w)
  ∧ (outbound w' = outbound w ∨ ∃ r, outbound w' = outbound w ++ [r])
  ∧ (length (Storage.messages (storage w))
     ≤ length (Storage.messages (storage w'))
     ≤ length (Storage.messages (storage w)) + 2)%nat
  ∧ (∀ e, e ∈ Storage.messages (storage w) →
       e.1 ≠ user_uuid env → e.1 ≠ assistant_uuid env →
       e ∈ Storage.messages (storage w'))
  ∧ (user_uuid env ∉ (Storage.messages (storage w)).*1 →
     assistant_uuid env ∉ (Storage.messages (storage w)).*1 →
     ∃ added,
       Storage.messages (storage w') = Storage.messages (storage w) ++ added
       ∧ (length added ≤ 2)%nat).
Proof.
  intros w'. destruct (chat_effect env req w) as (Hmap & Hlimit & Hout & Hstore).
  fold w' in Hmap, Hlimit, Hout, Hstore.
  split; [done |]. split.
  { intros other Hne. rewrite Hmap. by apply checkRateLimit_other. }
  split; [done |].
  destruct Hstore as [-> | (data & c & um & _ & _ & _ & [-> | [text ->]])].
  - split; [done |]. split; [done |]. split; [lia |]. split; [done |].
    intros _ _. exists []. split; [by rewrite app_nil_r | simpl; lia].
  - pose proof (user_message_stored_length env (Schema.chatId data) um (storage w)).
    destruct (user_message_stored_entries env (Schema.chatId data) um (storage w))
      as [Hkept Hfresh].
    split; [apply user_message_stored_chats |]. split; [done |].
    split; [lia |]. split; [intros e He Hu _; by apply Hkept |].
    intros Hu _. destruct (Hfresh Hu) as (added & -> & Hlen & _).
    exists added. split; [done | lia].
  - cbn [snd Storage.createMessage Storage.chats Storage.messages].
    pose proof (user_message_stored_length env (Schema.chatId data) um (storage w)).
    destruct (user_message_stored_entries env (Schema.chatId data) um (storage w))
      as [Hkept Hfresh].
    split; [apply user_message_stored_chats |]. split; [done |].
    set (created :=
      {| Storage.id := assistant_uuid env;
         Storage.chatId := Storage.ins_chatId _;
         Storage.role := _; Storage.content := _; Storage.model := _;
         Storage.timestamp := assistant_date env |}).
    pose proof (map_set_length (assistant_uuid env) created
      (Storage.messages (user_message_stored env (Schema.chatId data) um (storage w)))).
    split; [lia |]. split.
    + intros e He Hu Ha. apply map_set_elem_other; [| done]. by apply Hkept.
    + intros Hu Ha. destruct (Hfresh Hu) as (added & Heq & Hlen & Hkeys).
      rewrite Heq.
      destruct (decide (assistant_uuid env ∈ added.*1)) as [Hin | Hnotin].
      * (* the assistant id is the user id: the entry just added is replaced *)
        destruct added as [| [k v] [| ? ?]]; simpl in Hlen; try lia.
        { by apply elem_of_nil in Hin. }
        apply list_elem_of_singleton in Hin. simpl in Hin. subst k.
        exists [(assistant_uuid env, created)]. split; [| simpl; lia].
        clear -Ha. induction (Storage.messages (storage w)) as [| [k' v'] l IH];
          simpl in *.
        { by rewrite String.eqb_refl. }
        apply not_elem_of_cons in Ha as [Hne Ha].
        destruct (String.eqb_spec (assistant_uuid env) k'); [done |].
        by rewrite IH.
      * exists (added ++ [(assistant_uuid env, created)]).
        rewrite length_app. split; [| simpl; lia].
        rewrite app_assoc. apply map_set_fresh.
        rewrite fmap_app, elem_of_app. tauto.
Qed.

Lemma chat_turn_frame_witness :
  let used : World :=
    set_rateLimitMap (<["198.51.100.4" := {| count := 3; resetTime := 61000 |}]> ∅)
      Sample.world in
  let w' :=
    (chat (Sample.env 2000 (Example.completion "hi"))
       (Example.request "c1" [Example.message "user" "hello"] []) used).2 in
  rateLimitMap w' !! "198.51.100.4" = Some {| count := 3; resetTime := 61000 |}
  ∧ Sample.entry "m2" "c2" user "yo" 20 ∈ Storage.messages (storage w')
  ∧ ∃ added,
      Storage.messages (storage w') = Storage.messages Sample.store ++ added
      ∧ (length added ≤ 2)%nat.
Proof.
  intros used w'.
  destruct (chat_turn_frame (Sample.env 2000 (Example.completion "hi"))
              (Example.request "c1" [Example.message "user" "hello"] []) used)
    as (_ & Hother & _ & _ & _ & _ & Hkept & Hadded).
  split; [| split].
  - subst w'. rewrite Hother; [reflexivity | discriminate].
  - apply Hkept; [in_list | discriminate | discriminate].
  - apply Hadded; by_computation.
Defined.

Lemma user_message_stored_wf env chatId um st :
  Storage.wf st → Storage.wf (user_message_stored env chatId um st).
Proof.
  intros Hwf. unfold user_message_stored. destruct (decide _); [| done].
  by apply wf_createMessage.
Qed.

Lemma user_message_stored_integrity env chatId um st c :
  MemStorage.integrity st → Storage.getChat chatId st = Some c →
  MemStorage.integrity (user_message_stored env chatId um st).
Proof.
  intros Hint Hchat. unfold user_message_stored. destruct (decide _); [| done].
  by apply integrity_createMessage with c.
Qed.

Lemma deleteChat_keyed key st :
  MemStorage.chats_keyed st → MemStorage.chats_keyed (Storage.deleteChat key st).
Proof.
  intros Hkeyed k c. simpl. intros Hk. apply lookup_delete_Some in Hk as [_ Hk].
  by apply Hkeyed.
Qed.

Section SuspendedTurn.

Context (env : Env) (meanwhile : World → World) (req : Request).
Implicit Types (w : World) (data : Schema.ChatRequest).

Lemma suspended_chat_try_gate w :
  Suspended.chat_try env meanwhile req w =
    let '(allowed, m) :=
      checkRateLimit (date_now env) (clientIp req) (globalRateLimit w) (rateLimitMap w) in
    if allowed then Suspended.validated env meanwhile req (set_rateLimitMap m w)
    else (Sent {| status := 429; json := rate_limit_exceeded |}, w).
Proof.
  unfold Suspended.chat_try. rewrite bind_run. unfold rate_limit.
  pose proof (checkRateLimit_rejected (date_now env) (clientIp req)
                (globalRateLimit w) (rateLimitMap w)) as Hrej.
  destruct (checkRateLimit _ _ _ _) as [[] m]; simpl in *; [done |].
  rewrite Hrej by done. by rewrite set_rateLimitMap_id.
Qed.

Lemma suspended_turn_run data um provider endpoint apiKey r w :
  last (Schema.messages data) = Some um →
  provider_config env req = Js.Ok (provider, endpoint, apiKey) →
  prepare_request provider endpoint apiKey
    (default "gpt-5" (Schema.model data)) (Schema.messages data) = Js.Ok r →
  let w1 := meanwhile (log r (set_storage
              (user_message_stored env (Schema.chatId data) um (storage w)) w)) in
  Suspended.turn env meanwhile req data w =
    match fetch env r with
    | Rejected e => (Raised e, w1)
    | Fetched code text document =>
        answer env (Schema.chatId data) (default "gpt-5" (Schema.model data))
          provider (code, text, document) w1
    end.
Proof.
  intros Hlast Hconfig Hreq w1. unfold Suspended.turn.
  rewrite bind_run, (store_user_message_run _ _ _ um) by done.
  rewrite bind_run, Hconfig. simpl.
  rewrite bind_run, Hreq. simpl.
  rewrite bind_run. unfold Suspended.call. by destruct (fetch env r).
Qed.

Lemma suspended_turn_unprepared data um provider endpoint apiKey e w :
  last (Schema.messages data) = Some um →
  provider_config env req = Js.Ok (provider, endpoint, apiKey) →
  prepare_request provider endpoint apiKey
    (default "gpt-5" (Schema.model data)) (Schema.messages data) = Js.Thrown e →
  Suspended.turn env meanwhile req data w
  = (Raised e,
     set_storage (user_message_stored env (Schema.chatId data) um (storage w)) w).
Proof.
  intros Hlast Hconfig Hreq. unfold Suspended.turn.
  rewrite bind_run, (store_user_message_run _ _ _ um) by done.
  rewrite bind_run, Hconfig. simpl.
  by rewrite bind_run, Hreq.
Qed.

(** A turn that ends before the provider call is the turn of [Routes.chat];
    one that reaches it resumes in the world the other requests left. *)
Lemma suspended_chat_cases w :
  (Suspended.chat env meanwhile req w = chat env req w
   ∧ status (chat env req w).1 ≠ 200
   ∧ (storage (chat env req w).2 = storage w
      ∨ ∃ data c um,
          Storage.getChat (Schema.chatId data) (storage w) = Some c
          ∧ storage (chat env req w).2
            = user_message_stored env (Schema.chatId data) um (storage w)))
  ∨ ∃ m data c um provider r,
      Schema.safeParse (body req) = Schema.Valid data
      ∧ Storage.getChat (Schema.chatId data) (storage w) = Some c
      ∧ last (Schema.messages data) = Some um
      ∧ Suspended.chat env meanwhile req w =
          let w1 := meanwhile (log r (set_storage
                      (user_message_stored env (Schema.chatId data) um (storage w))
                      (set_rateLimitMap m w))) in
          settle match fetch env r with
                 | Rejected e => (Raised e, w1)
                 | Fetched code text document =>
                     answer env (Schema.chatId data)
                       (default "gpt-5" (Schema.model data)) provider
                       (code, text, document) w1
                 end.
Proof.
  unfold Suspended.chat, chat. rewrite suspended_chat_try_gate, chat_try_gate.
  destruct (checkRateLimit _ _ _ _) as [[] m].
  2:{ left. simpl. split; [done |]. split; [done | by left]. }
  unfold Suspended.validated, validated.
  destruct (Schema.safeParse (body req)) as [data | errors] eqn:Hvalid.
  2:{ left. simpl. split; [done |]. split; [done | by left]. }
  rewrite !bind_run. cbn [getChat storage set_rateLimitMap].
  destruct (Storage.getChat (Schema.chatId data) (storage w)) as [c |] eqn:Hchat.
  2:{ left. simpl. split; [done |]. split; [done | by left]. }
  destruct (last (Schema.messages data)) as [um |] eqn:Hlast.
  2:{ left. apply last_None in Hlast. unfold Suspended.turn, turn.
      rewrite Hlast. simpl. split; [done |]. split; [done | by left]. }
  destruct (safeParse_object _ _ Hvalid) as [fields Hbody].
  pose proof (provider_config_object env req fields Hbody) as Hconfig.
  destruct (prepare_request_cases
              (Js.or (Js.lookup_field "provider" fields) (Js.Str "github"))
              (Js.or (Js.lookup_field "endpoint" fields) (Js.Str DEFAULT_ENDPOINTS_github))
              (Js.or (Js.lookup_field "apiKey" fields) (Js.Str (GITHUB_TOKEN env)))
              (default "gpt-5" (Schema.model data)) _ _ Hlast)
    as [[r Hrequest] | Hrequest].
  - right. eexists m, data, c, um, _, r. repeat (split; [done |]).
    by rewrite (suspended_turn_run data um _ _ _ r _ Hlast Hconfig Hrequest).
  - left.
    rewrite (suspended_turn_unprepared data um _ _ _ _ _ Hlast Hconfig Hrequest).
    rewrite (turn_unprepared env req data um _ _ _ _ _ Hlast Hconfig Hrequest).
    simpl. split; [done |]. split; [done |]. right. by exists data, c, um.
Qed.

(** With no request served in between, the turn is that of [Routes.chat]. *)
Lemma suspended_chat_alone w :
  Suspended.chat env (λ w0, w0) req w = chat env req w.
Proof. reflexivity. Qed.

End SuspendedTurn.

(** X12. A chat turn keeps the message ids unique and the chats filed under
    their ids, whatever requests are served while it waits for the provider,
    as long as those keep both.  It keeps every message in an existing chat
    as long as those requests do and delete no chat: the chat is looked up
    before the provider call, and the assistant message is stored after it
    without a second look. *)
Theorem chat_keeps_invariants (env : Env) (meanwhile : World → World)
    (req : Request) (w : World)
    (Hwf : Storage.wf (storage w))
    (Hkeyed : MemStorage.chats_keyed (storage w))
    (Hmeanwhile : ∀ w0,
       Storage.wf (storage w0) → MemStorage.chats_keyed (storage w0) →
       Storage.wf (storage (meanwhile w0))
       ∧ MemStorage.chats_keyed (storage (meanwhile w0))) :
  let w' := (Suspended.chat env meanwhile req w).2 in
  Storage.wf (storage w')
  ∧ MemStorage.chats_keyed (storage w')
  ∧ (MemStorage.integrity (storage w) →
     (∀ w0, MemStorage.integrity (storage w0) →
        MemStorage.integrity (storage (meanwhile w0))
        ∧ ∀ k, is_Some (Storage.chats (storage w0) !! k) →
               is_Some (Storage.chats (storage (meanwhile w0)) !! k)) →
     MemStorage.integrity (storage w')).
Proof.
  intros w'. unfold w'.
  destruct (suspended_chat_cases env meanwhile req w)
    as [(-> & _ & [-> | (data & c & um & Hchat & ->)])
       | (m & data & c & um & provider & r & _ & Hchat & _ & ->)].
  - auto.
  - split; [by apply user_message_stored_wf |].
    split; [intros k c'; rewrite user_message_stored_chats; apply Hkeyed |].
    intros Hint _. by apply user_message_stored_integrity with c.
  - cbv zeta.
    set (w0 := log r (set_storage
                  (user_message_stored env (Schema.chatId data) um (storage w))
                  (set_rateLimitMap m w))).
    assert (Storage.wf (storage w0)) as Hwf0
      by (by apply user_message_stored_wf).
    assert (MemStorage.chats_keyed (storage w0)) as Hkeyed0.
    { intros k c'. simpl. rewrite user_message_stored_chats. apply Hkeyed. }
    destruct (Hmeanwhile w0 Hwf0 Hkeyed0) as [Hwf1 Hkeyed1].
    assert (MemStorage.integrity (storage w) →
            (∀ w0, MemStorage.integrity (storage w0) →
               MemStorage.integrity (storage (meanwhile w0))
               ∧ ∀ k, is_Some (Storage.chats (storage w0) !! k) →
                      is_Some (Storage.chats (storage (meanwhile w0)) !! k)) →
            MemStorage.integrity (storage (meanwhile w0))
            ∧ is_Some (Storage.getChat (Schema.chatId data) (storage (meanwhile w0))))
      as Hint1.
    { intros Hint Hkeeps.
      destruct (Hkeeps w0) as [Hint0 Hchats].
      { simpl. by apply user_message_stored_integrity with c. }
      split; [done |]. apply Hchats. simpl.
      rewrite user_message_stored_chats. unfold Storage.getChat in Hchat.
      by rewrite Hchat. }
    destruct (fetch env r) as [e | code text document].
    { cbn [settle snd]. split; [done |]. split; [done |]. intros Hint Hkeeps.
      by destruct (Hint1 Hint Hkeeps). }
    destruct (answer_world env (Schema.chatId data)
                (default "gpt-5" (Schema.model data)) provider
                (code, text, document) (meanwhile w0)) as [-> | [v ->]].
    + split; [done |]. split; [done |]. intros Hint Hkeeps.
      by destruct (Hint1 Hint Hkeeps).
    + cbn [storage set_storage].
      split; [by apply wf_createMessage |]. split; [done |].
      intros Hint Hkeeps. destruct (Hint1 Hint Hkeeps) as [Hint' [c' Hc']].
      by apply integrity_createMessage with c'.
Qed.

Lemma chat_keeps_invariants_witness :
  let w' := (Suspended.chat (Sample.env 1000 (Example.completion "hi"))
               (λ w0, (Api.delete_chat "c1" w0).2)
               (Example.request "c2" [Example.message "user" "hello"] [])
               Sample.world).2 in
  Storage.wf (storage w') ∧ MemStorage.chats_keyed (storage w').
Proof.
  intros w'.
  destruct (chat_keeps_invariants (Sample.env 1000 (Example.completion "hi"))
              (λ w0, (Api.delete_chat "c1" w0).2)
              (Example.request "c2" [Example.message "user" "hello"] [])
              Sample.world) as (Hwf & Hkeyed & _).
  - by_computation.
  - sample_keyed.
  - intros w0 Hwf0 Hkeyed0. simpl.
    split; [by apply wf_deleteChat | by apply deleteChat_keyed].
  - split; [exact Hwf | exact Hkeyed].
Defined.

(** The messages of a chat none of whose messages is stored, once a message
    of the chat has been set. *)
Lemma filter_map_set_only key uuid (a : Storage.Message)
    (l : list (string * Storage.Message)) :
  Storage.chatId a = key →
  Forall (λ e, Storage.chatId e.2 ≠ key) l →
  filter (λ m, Storage.chatId m = key) (Storage.map_set uuid a l).*2 = [a].
Proof.
  intros Ha Hall. induction Hall as [| [k v] l Hv Hl IH]; simpl.
  { by rewrite filter_cons_True. }
  destruct (String.eqb uuid k); rewrite fmap_cons; simpl.
  - rewrite filter_cons_True by done. f_equal.
    rewrite (filter_ext_elem _ (λ _, False)); [apply filter_never |].
    intros m Hm. split; [| done]. intros Hkey.
    apply list_elem_of_fmap in Hm as (e & -> & He).
    rewrite Forall_forall in Hl. by apply (Hl e).
  - by rewrite filter_cons_False.
Qed.

(** X29. A chat turn that is answered 200 although the chat was deleted
    while the turn waited for the provider ([DELETE /api/chats/:id] served in
    between): the chat is looked up before the call only, so the assistant
    message is stored all the same.  Afterwards the chat does not exist, the
    messages route lists for it the assistant message alone (the user
    message went with the chat), and the store holds a message of a chat that
    does not exist. *)
Theorem chat_deleted_meanwhile (env : Env) (req : Request) (w : World)
    (data : Schema.ChatRequest)
    (Hwf : Storage.wf (storage w))
    (Hvalid : Schema.safeParse (body req) = Schema.Valid data)
    (Hsuccess :
       status (Suspended.chat env
                 (λ w0, (Api.delete_chat (Schema.chatId data) w0).2) req w).1
       = 200) :
  let turn := Suspended.chat env
                (λ w0, (Api.delete_chat (Schema.chatId data) w0).2) req w in
  let model := default "gpt-5" (Schema.model data) in
  ∃ text,
    turn.1 = {| status := 200; json := Reply text (assistant_uuid env) model |}
    ∧ Storage.getChat (Schema.chatId data) (storage turn.2) = None
    ∧ Api.get_messages (Schema.chatId data) turn.2
      = {| Api.code := 200;
           Api.document := Api.MessageList [
             {| Storage.id := assistant_uuid env;
                Storage.chatId := Schema.chatId data;
                Storage.role := assistant;
                Storage.content := text;
                Storage.model := if String.eqb model "" then None else Some model;
                Storage.timestamp := assistant_date env |}] |}
    ∧ ¬ MemStorage.integrity (storage turn.2).
Proof.
  intros turn model. unfold turn in *. clear turn.
  destruct (suspended_chat_cases env
              (λ w0, (Api.delete_chat (Schema.chatId data) w0).2) req w)
    as [(Heq & Hstatus & _)
       | (m & data' & c & um & provider & r & Hvalid' & Hchat & _ & Hrun)].
  { by rewrite Heq in Hsuccess. }
  rewrite Hvalid in Hvalid'. injection Hvalid' as <-.
  rewrite Hrun in Hsuccess |- *. cbv zeta in Hsuccess |- *.
  destruct (fetch env r) as [e | code errorText document].
  { by apply chat_catch_not_200 in Hsuccess. }
  destruct (ok code) eqn:Hok.
  2:{ rewrite answer_vendor_error in Hsuccess by done. simpl in Hsuccess.
      by apply ok_200 in Hok. }
  rewrite answer_ok in Hsuccess |- * by done.
  destruct document as [responseData | e];
    [| by apply chat_catch_not_200 in Hsuccess].
  destruct (extract provider responseData) as [text | e];
    [| by apply chat_catch_not_200 in Hsuccess].
  destruct (Js.truthy text); [| done].
  exists text. split; [done |].
  cbn [settle snd storage set_storage log set_rateLimitMap Api.delete_chat].
  set (stored := user_message_stored env (Schema.chatId data) um (storage w)).
  assert (Storage.wf stored) as Hwf' by (by apply user_message_stored_wf).
  pose proof (deleteChat_eq (Schema.chatId data) stored Hwf') as Hdeleted.
  rewrite Hdeleted.
  cbn [Storage.createMessage snd Storage.chats Storage.messages
       Storage.ins_chatId Storage.ins_role Storage.ins_content Storage.ins_model].
  split; [apply lookup_delete_eq |]. split.
  - unfold Api.get_messages, Storage.getMessagesByChatId.
    cbn [storage set_storage Storage.messages]. do 2 f_equal.
    rewrite (filter_map_set_only (Schema.chatId data)); [done | done |].
    apply Forall_forall. by intros e [Hne _]%list_elem_of_filter.
  - intros Hint.
    destruct (Hint (assistant_uuid env,
                {| Storage.id := assistant_uuid env;
                   Storage.chatId := Schema.chatId data;
                   Storage.role := assistant;
                   Storage.content := text;
                   Storage.model := if String.eqb model "" then None else Some model;
                   Storage.timestamp := assistant_date env |}))
      as [c' Hc'].
    + apply map_set_elem.
    + simpl in Hc'. by rewrite lookup_delete_eq in Hc'.
Qed.

Lemma chat_deleted_meanwhile_witness :
  let turn :=
    Suspended.chat (Sample.env 1000 (Example.completion "hi"))
      (λ w0, (Api.delete_chat "c1" w0).2)
      (Example.request "c1" [Example.message "user" "hello"] [])
      Sample.world in
  status turn.1 = 200
  ∧ Storage.getChat "c1" (storage turn.2) = None
  ∧ Storage.id <$> Storage.getMessagesByChatId "c1" (storage turn.2) = ["uuid-2"].
Proof.
  intros turn.
  destruct (chat_deleted_meanwhile (Sample.env 1000 (Example.completion "hi"))
              (Example.request "c1" [Example.message "user" "hello"] [])
              Sample.world
              {| Schema.chatId := "c1";
                 Schema.messages := [{| Schema.role := user; Schema.content := "hello" |}];
                 Schema.model := None |})
    as (text & Hresponse & Hchat & Hlisted & _).
  - by_computation.
  - reflexivity.
  - reflexivity.
  - split; [exact (f_equal status Hresponse) |]. split; [exact Hchat |].
    exact (f_equal (λ reply, match Api.document reply with
                             | Api.MessageList listed => Storage.id <$> listed
                             | _ => []
                             end) Hlisted).
Defined.

(** X13. A valid request from an admitted client that names a chat the
    store does not hold is answered 404 "Chat not found"; nothing is stored
    and no provider is called, and the rate-limit check stays counted. *)
Theorem chat_unknown_chat (env : Env) (req : Request) (w : World)
    (data : Schema.ChatRequest) (m : gmap string RateLimitEntry)
    (Hgate : checkRateLimit (date_now env) (clientIp req)
               (globalRateLimit w) (rateLimitMap w) = (true, m))
    (Hvalid : Schema.safeParse (body req) = Schema.Valid data)
    (Hchat : Storage.getChat (Schema.chatId data) (storage w) = None) :
  chat env req w
  = ({| status := 404; json := Error "Chat not found" None |},
     set_rateLimitMap m w).
Proof.
  unfold chat. rewrite chat_try_gate, Hgate. unfold validated. rewrite Hvalid.
  rewrite bind_run. simpl. by rewrite Hchat.
Qed.

Lemma chat_unknown_chat_witness :
  (chat (Sample.env 1000 (Example.completion "hi"))
     (Example.request "c9" [Example.message "user" "hello"] [])
     Sample.world).1
  = {| status := 404; json := Error "Chat not found" None |}.
Proof.
  rewrite (chat_unknown_chat (Sample.env 1000 (Example.completion "hi"))
             (Example.request "c9" [Example.message "user" "hello"] [])
             Sample.world
             {| Schema.chatId := "c9";
                Schema.messages := [{| Schema.role := user; Schema.content := "hello" |}];
                Schema.model := None |}
             (<["203.0.113.7" := {| count := 1; resetTime := 61000 |}]> ∅)).
  - reflexivity.
  - reflexivity.
  - reflexivity.
  - reflexivity.
Defined.

(** X14. A chat turn is answered 200, 400, 401, 404, 429 or 500, or else
    with the non-2xx status the provider returned to the call the turn made. *)
Theorem chat_status (env : Env) (req : Request) (w : World) :
  status (chat env req w).1 ∈ [200; 400; 401; 404; 429; 500]
  ∨ ∃ r code text document,
      outbound (chat env req w).2 = outbound w ++ [r]
      ∧ fetch env r = Fetched code text document
      ∧ ok code = false
      ∧ status (chat env req w).1 = code.
Proof.
  assert (∀ message, status (chat_catch message) ∈ [200; 400; 401; 404; 429; 500])
    as Hcatch.
  { intros message. destruct (chat_catch_status message) as [-> | [-> | ->]];
      in_list. }
  unfold chat. rewrite chat_try_gate.
  destruct (checkRateLimit _ _ _ _) as [[] m]; [| left; in_list].
  destruct (validated_cases env req (set_rateLimitMap m w))
    as [[_ Hstatus] | [(data & c & um & _ & _ & _ & ->)
                      | (data & c & um & provider & endpoint & apiKey & r
                         & _ & _ & _ & _ & _ & ->)]].
  { left. apply elem_of_cons in Hstatus as [-> | Hstatus]; [in_list |].
    apply elem_of_cons in Hstatus as [-> | Hstatus]; [in_list |].
    apply elem_of_cons in Hstatus as [-> | Hstatus]; [in_list |].
    by apply elem_of_nil in Hstatus. }
  { left. apply Hcatch. }
  cbv zeta. destruct (fetch env r) as [e | code text document] eqn:Hfetch.
  { left. apply Hcatch. }
  destruct (ok code) eqn:Hok.
  - left. rewrite answer_ok by done.
    destruct document as [d | e]; [| apply Hcatch].
    destruct (extract provider d) as [v | e]; [| apply Hcatch].
    destruct (Js.truthy v); in_list.
  - right. exists r, code, text, document.
    rewrite answer_vendor_error by done. by simpl.
Qed.

(** X15. For every provider other than "gemini", an endpoint that has a
    string conversion and, where the key is interpolated, an API key that has
    one: the request is posted to [{endpoint}/chat/completions] with the
    model and the whole message list, every turn in order; "anthropic" sends
    the key as it came in [x-api-key] with the [anthropic-version] header and
    no Authorization header, every other name (known or not) sends
    [Authorization: Bearer {apiKey}]; "anthropic", "cohere" and "mistral"
    carry [max_tokens], the rest [max_completion_tokens], 4000 in both
    cases.  A provider call the turn makes is this request. *)
Theorem chat_completions_request_shaping (env : Env) (req : Request) (w : World)
    (data : Schema.ChatRequest) (provider endpoint apiKey : Js.value)
    (url key : string)
    (Hvalid : Schema.safeParse (body req) = Schema.Valid data)
    (Hconfig : provider_config env req = Js.Ok (provider, endpoint, apiKey))
    (Hother : strict_eq provider "gemini" = false)
    (Hurl : Js.to_string endpoint = Js.Ok url)
    (Hkey : strict_eq provider "anthropic" = true
            ∨ Js.to_string apiKey = Js.Ok key) :
  let model := default "gpt-5" (Schema.model data) in
  let anthropic := strict_eq provider "anthropic" in
  let max_tokens :=
    anthropic || strict_eq provider "cohere" || strict_eq provider "mistral" in
  let shaped :=
    {| apiUrl := url +:+ "/chat/completions";
       headers :=
         ("Content-Type", Js.Str "application/json")
         :: (if anthropic
             then [("x-api-key", apiKey); ("anthropic-version", Js.Str "2023-06-01")]
             else [("Authorization", Js.Str ("Bearer " +:+ key))]);
       payload :=
         Js.Obj [("model", Js.Str model);
                 ("messages",
                  Js.Arr (List.map (λ msg,
                    Js.Obj [("role", Js.Str (role_name (Schema.role msg)));
                            ("content", Js.Str (Schema.content msg))])
                    (Schema.messages data)));
                 (if max_tokens then "max_tokens" else "max_completion_tokens",
                  Js.Num "4000")] |} in
  prepare_request provider endpoint apiKey model (Schema.messages data) = Js.Ok shaped
  ∧ (∀ r, outbound (chat env req w).2 = outbound w ++ [r] → r = shaped).
Proof.
  intros model anthropic max_tokens shaped.
  assert (prepare_request provider endpoint apiKey model (Schema.messages data)
          = Js.Ok shaped) as Hshape.
  { unfold prepare_request, bearer, shaped, max_tokens, anthropic.
    rewrite Hother, Hurl. cbn [mbind throwing_bind].
    destruct (strict_eq provider "github") eqn:Hgithub.
    { destruct provider as [| | | | s | |]; try discriminate.
      simpl in Hgithub. apply String.eqb_eq in Hgithub as ->.
      destruct Hkey as [Hkey | Hkey]; [discriminate | by rewrite Hkey]. }
    destruct (strict_eq provider "openai") eqn:Hopenai.
    { destruct provider as [| | | | s | |]; try discriminate.
      simpl in Hopenai. apply String.eqb_eq in Hopenai as ->.
      destruct Hkey as [Hkey | Hkey]; [discriminate | by rewrite Hkey]. }
    cbn [orb].
    destruct (strict_eq provider "anthropic"); [reflexivity |].
    destruct Hkey as [Hkey | Hkey]; [discriminate |]. rewrite Hkey.
    destruct (strict_eq provider "cohere"); [reflexivity |].
    destruct (strict_eq provider "mistral"); reflexivity. }
  split; [done |].
  intros r Hcall.
  destruct (chat_outbound env req w r Hcall)
    as (m & data' & c & um & provider' & endpoint' & apiKey'
        & _ & Hvalid' & _ & _ & Hconfig' & Hrequest & _).
  rewrite Hvalid in Hvalid'. rewrite Hconfig in Hconfig'. simplify_eq.
  fold model in Hrequest. rewrite Hshape in Hrequest. by simplify_eq.
Qed.

Lemma chat_completions_request_shaping_witness :
  let req :=
    Example.request "c1"
      [Example.message "user" "first question";
       Example.message "assistant" "first answer";
       Example.message "user" "second question"]
      [("provider", Js.Str "anthropic");
       ("endpoint", Js.Str "https://api.anthropic.com");
       ("apiKey", Js.Str "sk-ant")] in
  prepare_request (Js.Str "anthropic") (Js.Str "https://api.anthropic.com")
    (Js.Str "sk-ant") "gpt-5"
    [{| Schema.role := user; Schema.content := "first question" |};
     {| Schema.role := assistant; Schema.content := "first answer" |};
     {| Schema.role := user; Schema.content := "second question" |}]
  = Js.Ok
      {| apiUrl := "https://api.anthropic.com/chat/completions";
         headers := [("Content-Type", Js.Str "application/json");
                     ("x-api-key", Js.Str "sk-ant");
                     ("anthropic-version", Js.Str "2023-06-01")];
         payload := Js.Obj [
           ("model", Js.Str "gpt-5");
           ("messages", Js.Arr [Example.message "user" "first question";
                                Example.message "assistant" "first answer";
                                Example.message "user" "second question"]);
           ("max_tokens", Js.Num "4000")] |}.
Proof.
  intros req.
  destruct (chat_completions_request_shaping
              (Example.env (Example.completion "hi")) req Example.world
              {| Schema.chatId := "c1";
                 Schema.messages :=
                   [{| Schema.role := user; Schema.content := "first question" |};
                    {| Schema.role := assistant; Schema.content := "first answer" |};
                    {| Schema.role := user; Schema.content := "second question" |}];
                 Schema.model := None |}
              (Js.Str "anthropic") (Js.Str "https://api.anthropic.com")
              (Js.Str "sk-ant") "https://api.anthropic.com" "sk-ant")
    as [Hshape _].
  - reflexivity.
  - reflexivity.
  - reflexivity.
  - reflexivity.
  - left. reflexivity.
  - exact Hshape.
Defined.




(** X16. When the provider call is rejected (network failure), or answers
    2xx with a body that [json()] cannot parse, the turn is answered by the
    catch block from the error message: 429 exactly when it mentions "quota"
    or "rate limit", and an answer of 500 carries the message as details; the
    store is as the user-message step left it, without an assistant
    message. *)
Theorem chat_thrown_error (env : Env) (req : Request) (w : World)
    (r : OutboundRequest) (message : string)
    (Hcall : outbound (chat env req w).2 = outbound w ++ [r])
    (Hthrown : fetch env r = Rejected message
               ∨ ∃ code text, fetch env r = Fetched code text (Js.Thrown message)
                              ∧ ok code = true) :
  (chat env req w).1 = chat_catch message
  ∧ (status (chat env req w).1 = 429
     ↔ Js.includes message "quota" || Js.includes message "rate limit" = true)
  ∧ (status (chat env req w).1 = 500 →
     json (chat env req w).1
     = Error "Failed to process chat request" (Some (Text message)))
  ∧ ∃ data um,
      Schema.safeParse (body req) = Schema.Valid data
      ∧ last (Schema.messages data) = Some um
      ∧ storage (chat env req w).2
          = user_message_stored env (Schema.chatId data) um (storage w).
Proof.
  destruct (chat_outbound env req w r Hcall)
    as (m & data & c & um & provider & endpoint & apiKey
        & _ & Hvalid & _ & Hlast & _ & _ & Hrun).
  assert (chat env req w
          = (chat_catch message,
             log r (set_storage
               (user_message_stored env (Schema.chatId data) um (storage w))
               (set_rateLimitMap m w)))) as Heq.
  { rewrite Hrun. cbv zeta.
    destruct Hthrown as [-> | (code & text & -> & Hok)]; [done |].
    by rewrite answer_ok. }
  rewrite Heq. cbn [fst snd]. split; [done |].
  split; [| split; [| by exists data, um]].
  - unfold chat_catch. destruct (_ || _); [done |].
    destruct (_ || _); simpl; split; discriminate || lia.
  - unfold chat_catch. destruct (_ || _); [simpl; lia |].
    destruct (_ || _); [simpl; lia | done].
Qed.

Lemma chat_thrown_error_witness :
  (chat (Example.env (Rejected "fetch failed"))
     (Example.request "c1" [Example.message "user" "hello"] [])
     Example.world).1
  = {| status := 500;
       json := Error "Failed to process chat request" (Some (Text "fetch failed")) |}.
Proof.
  edestruct (chat_thrown_error (Example.env (Rejected "fetch failed"))
               (Example.request "c1" [Example.message "user" "hello"] [])
               Example.world) as (Hresponse & _).
  - reflexivity.
  - left. reflexivity.
  - rewrite Hresponse. reflexivity.
Defined.

Section Turns.
Import Api.

(** The limiter sees a run of turns of one client as a run of calls. *)
Lemma chat_turns_limiter (turns : list (Env * Request)) (ip : string) (w : World) :
  Forall (λ t, clientIp t.2 = ip) turns →
  rateLimitMap (chat_turns turns w).2
    = (checkRateLimit_calls ((λ t, date_now t.1) <$> turns) ip
         (globalRateLimit w) (rateLimitMap w)).2
  ∧ globalRateLimit (chat_turns turns w).2 = globalRateLimit w.
Proof.
  intros Hclient. revert w.
  induction Hclient as [| [env req] later Hip Hlater IH]; intros w; [done |].
  cbn [chat_turns fmap list_fmap checkRateLimit_calls fst snd] in *.
  destruct (chat_effect env req w) as (Hmap & Hlimit & _).
  destruct (chat env req w) as [response w1]. cbn [fst snd] in *.
  specialize (IH w1). destruct (chat_turns later w1) as [responses w2].
  cbn [fst snd] in *. rewrite Hlimit, Hmap, Hip in IH.
  destruct (checkRateLimit _ ip _ _) as [allowed m1]. cbn [fst snd] in *.
  destruct (checkRateLimit_calls _ ip _ m1) as [rest m2]. by cbn [fst snd] in *.
Qed.

(** X17. A client not seen before whose chat turns all fall within the 60
    seconds after its first one, under a global limit of more than 0: let [n]
    be the limit rounded up to a whole number (the limit itself when it is
    whole).  Once [n] turns have run, whatever they carried and however they
    ended (invalid payload, unknown chat, provider failure), the client's
    entry counts [n] and the next turn is answered 429 and changes nothing. *)
Theorem rate_limit_across_turns (w : World) (ip : string) (q : Q) (n : Z)
    (first : Env * Request) (later : list (Env * Request)) (last : Env * Request)
    (Hnew : rateLimitMap w !! ip = None)
    (Hglobal : globalRateLimit w = Js.Finite q)
    (Hceiling : (inject_Z (n - 1) < q)%Q ∧ (q <= inject_Z n)%Q)
    (Hlimit : 1 ≤ n)
    (Hlength : length later = Z.to_nat (n - 1))
    (Hclient : Forall (λ t, clientIp t.2 = ip) (first :: later ++ [last]))
    (Hwindow : Forall (λ t, date_now t.1 ≤ date_now first.1 + 60000)
                 (later ++ [last])) :
  let before := (chat_turns (first :: later) w).2 in
  rateLimitMap before !! ip
    = Some {| count := n; resetTime := date_now first.1 + 60000 |}
  ∧ chat last.1 last.2 before
      = ({| status := 429; json := rate_limit_exceeded |}, before).
Proof.
  intros before. destruct Hceiling as [Hlow Hhigh].
  pose proof (λ count, ge_ceiling q n count Hlow Hhigh) as Hacts.
  apply Forall_cons in Hclient as [Hfirst Hclient].
  apply Forall_app in Hclient as [Hclient Hlast].
  rewrite Forall_singleton in Hlast.
  apply Forall_app in Hwindow as [Hwindow Hlast_time].
  rewrite Forall_singleton in Hlast_time.
  destruct (chat_turns_limiter (first :: later) ip w) as [Hmap Hsame].
  { by apply Forall_cons. }
  fold before in Hmap, Hsame. rewrite Hglobal in Hmap, Hsame.
  assert (rateLimitMap before
          = <[ip := {| count := n; resetTime := date_now first.1 + 60000 |}]>
              (rateLimitMap w))
    as Hfull.
  { rewrite Hmap. cbn [fmap list_fmap checkRateLimit_calls].
    rewrite (checkRateLimit_absent _ _ _ _ Hnew).
    rewrite (checkRateLimit_calls_within_ceiling _ ip _ n _
               (fresh_window (date_now first.1)) Hacts);
      [| by rewrite lookup_insert_eq
       | by apply Forall_fmap
       | rewrite length_fmap; simpl; lia].
    cbn [snd]. rewrite insert_insert_eq, length_fmap. simpl.
    do 2 f_equal. lia. }
  split; [by rewrite Hfull, lookup_insert_eq |].
  destruct last as [env req]. cbn [fst snd] in *.
  assert ((checkRateLimit (date_now env) (clientIp req)
             (globalRateLimit before) (rateLimitMap before)).1 = false) as Hrejected.
  { rewrite Hlast, Hsame.
    rewrite (checkRateLimit_within_ceiling _ ip _ n _
               {| count := n; resetTime := date_now first.1 + 60000 |} Hacts);
      [| by rewrite Hfull, lookup_insert_eq | done].
    simpl. by rewrite Z.ltb_irrefl. }
  unfold chat. rewrite chat_try_gate.
  destruct (checkRateLimit _ _ _ _) as [[] m]; [done | done].
Qed.

Lemma rate_limit_across_turns_witness :
  let valid := Example.request "c1" [Example.message "user" "hello"] [] in
  let invalid := Example.request "c1" [Example.message "system" "hello"] [] in
  let unknown := Example.request "c9" [Example.message "user" "hello"] [] in
  let before :=
    (Api.chat_turns [(Sample.env 1000 (Example.completion "hi"), invalid);
                     (Sample.env 2000 (Rejected "fetch failed"), valid);
                     (Sample.env 3000 (Example.completion "hi"), unknown)]
       (Api.set_globalRateLimit (Js.Finite (5 # 2)) Sample.world)).2 in
  chat (Sample.env 61000 (Example.completion "hi")) valid before
  = ({| status := 429; json := rate_limit_exceeded |}, before).
Proof.
  intros valid invalid unknown before.
  apply (rate_limit_across_turns
           (Api.set_globalRateLimit (Js.Finite (5 # 2)) Sample.world)
           "203.0.113.7" (5 # 2) 3
           (Sample.env 1000 (Example.completion "hi"), invalid)
           [(Sample.env 2000 (Rejected "fetch failed"), valid);
            (Sample.env 3000 (Example.completion "hi"), unknown)]
           (Sample.env 61000 (Example.completion "hi"), valid)).
  - reflexivity.
  - reflexivity.
  - split; [reflexivity | discriminate].
  - lia.
  - reflexivity.
  - repeat constructor.
  - repeat constructor; simpl; lia.
Defined.

End Turns.

Section Admin.
Import Api.

Lemma strict_eq_true v literal : strict_eq v literal = true → v = Js.Str literal.
Proof.
  destruct v; try discriminate. simpl. by intros ->%String.eqb_eq.
Qed.

(** X18. Without the secret code no administrative route changes anything:
    setting the rate limit answers 401 (500 when the body cannot be
    destructured), reading it and the statistics answer 401, and clear-data
    and broadcast, when they answer, answer 401; the world is as before. *)
Theorem admin_requires_secret (body : Js.value) (query : list (string * Js.value))
    (listed : list Storage.Chat) (w : World)
    (Hbody : strict_eq (Js.opt_get body "secretCode") "HYDROAI" = false)
    (Hquery : strict_eq (Js.lookup_field "secretCode" query) "HYDROAI" = false) :
  (∃ reply, post_rate_limit body w = (reply, w)
            ∧ (code reply = 401 ∨ code reply = 500))
  ∧ get_rate_limit query w = unauthorized
  ∧ get_stats query listed w = unauthorized
  ∧ (∀ outcome, post_clear_data body listed w = Js.Ok outcome →
       outcome = (unauthorized, w))
  ∧ (∀ outcome, post_broadcast body w = Js.Ok outcome →
       outcome = (unauthorized, w)).
Proof.
  unfold get_rate_limit, get_stats. rewrite Hquery. simpl.
  unfold post_rate_limit, post_clear_data, post_broadcast, destructure.
  unfold Js.opt_get in Hbody.
  destruct body; simpl in *; try rewrite Hbody; simpl;
    repeat split; eauto; try (intros ? [= <-]; done); try discriminate.
Qed.

Lemma admin_requires_secret_witness :
  Api.get_rate_limit [("secretCode", Js.Str "hydroai")] Sample.world
  = Api.unauthorized
  ∧ ∀ outcome,
      Api.post_clear_data
        (Js.Obj [("secretCode", Js.Str "hydroai"); ("dataType", Js.Str "all")])
        [Sample.chat "c1" 5; Sample.chat "c2" 6] Sample.world = Js.Ok outcome →
      outcome = (Api.unauthorized, Sample.world).
Proof.
  destruct (admin_requires_secret
              (Js.Obj [("secretCode", Js.Str "hydroai"); ("dataType", Js.Str "all")])
              [("secretCode", Js.Str "hydroai")]
              [Sample.chat "c1" 5; Sample.chat "c2" 6] Sample.world)
    as (_ & Hget & _ & Hclear & _).
  - reflexivity.
  - reflexivity.
  - split; [exact Hget | exact Hclear].
Defined.


(** X20. A rate limit set through the administrative route, whole or not,
    is the one the route reports afterwards and the one the very next chat
    turn is checked against, windows in progress included: a client whose
    unexpired window already counts at least that many requests is answered
    429, a client below it is admitted and counted. *)
Theorem rate_limit_update_takes_effect (body : Js.value) (w : World)
    (repr : string) (q : Q)
    (Hsecret : Js.get body "secretCode" = Js.Ok (Js.Str "HYDROAI"))
    (Hlimit : Js.get body "rateLimit" = Js.Ok (Js.Num repr))
    (Hnumber : Js.number_of repr = Js.Finite q)
    (Hrange : (1 <= q)%Q ∧ (q <= 1000)%Q) :
  let w' := set_globalRateLimit (Js.Finite q) w in
  post_rate_limit body w
    = ({| code := 200; document := RateLimitChanged (Js.Finite q) |}, w')
  ∧ (∀ query, Js.lookup_field "secretCode" query = Js.Str "HYDROAI" →
       get_rate_limit query w'
       = {| code := 200; document := CurrentRateLimit (Js.Finite q) |})
  ∧ (∀ env req e,
       rateLimitMap w !! clientIp req = Some e →
       date_now env ≤ resetTime e →
       (q <= inject_Z (count e))%Q →
       chat env req w' = ({| status := 429; json := rate_limit_exceeded |}, w'))
  ∧ (∀ env req e,
       rateLimitMap w !! clientIp req = Some e →
       date_now env ≤ resetTime e →
       (inject_Z (count e) < q)%Q →
       rateLimitMap (chat env req w').2 !! clientIp req
       = Some {| count := count e + 1; resetTime := resetTime e |}).
Proof.
  intros w'. destruct Hrange as [Hlow Hhigh]. split; [| split; [| split]].
  - unfold post_rate_limit, destructure. rewrite Hsecret, Hlimit. simpl.
    rewrite Hnumber. unfold Js.gt, Js.lt, Js.of_Z.
    apply Qle_bool_iff in Hlow, Hhigh.
    change (inject_Z 1) with 1%Q. change (inject_Z 1000) with 1000%Q.
    by rewrite Hlow, Hhigh.
  - intros query Hquery. unfold get_rate_limit. by rewrite Hquery.
  - intros env req e He Hnow Hfull. unfold chat. rewrite chat_try_gate.
    cbn [globalRateLimit rateLimitMap w' set_globalRateLimit].
    rewrite (checkRateLimit_unexpired _ _ _ _ e He Hnow), ge_Finite.
    apply Qle_bool_iff in Hfull. by rewrite Hfull.
  - intros env req e He Hnow Hroom.
    destruct (chat_effect env req w') as (-> & _).
    cbn [globalRateLimit rateLimitMap w' set_globalRateLimit].
    rewrite (checkRateLimit_unexpired _ _ _ _ e He Hnow), ge_Finite.
    destruct (Qle_bool q (inject_Z (count e))) eqn:Hle.
    { apply Qle_bool_iff in Hle. by apply Qlt_not_le in Hroom. }
    simpl. by rewrite lookup_insert_eq.
Qed.

Lemma rate_limit_update_takes_effect_witness :
  let body := Js.Obj [("secretCode", Js.Str "HYDROAI"); ("rateLimit", Js.Num "2.5")] in
  let used : World :=
    set_rateLimitMap (<["203.0.113.7" := {| count := 3; resetTime := 61000 |}]> ∅)
      (Api.set_globalRateLimit 10 Sample.world) in
  Api.post_rate_limit body used
  = ({| Api.code := 200; Api.document := Api.RateLimitChanged (Js.Finite (5 # 2)) |},
     Api.set_globalRateLimit (Js.Finite (5 # 2)) used)
  ∧ (chat (Sample.env 2000 (Example.completion "hi"))
       (Example.request "c1" [Example.message "user" "hello"] [])
       (Api.set_globalRateLimit (Js.Finite (5 # 2)) used)).1
    = {| status := 429; json := rate_limit_exceeded |}.
Proof.
  intros body used.
  destruct (rate_limit_update_takes_effect body used "2.5" (5 # 2))
    as (Hpost & _ & Hlocked & _).
  - reflexivity.
  - reflexivity.
  - reflexivity.
  - split; discriminate.
  - split; [exact Hpost |].
    rewrite (Hlocked (Sample.env 2000 (Example.completion "hi"))
               (Example.request "c1" [Example.message "user" "hello"] [])
               {| count := 3; resetTime := 61000 |}).
    + reflexivity.
    + reflexivity.
    + simpl. lia.
    + discriminate.
Defined.

(** The messages of a chat, once those of [key] have been dropped. *)
Lemma filter_chat_dropped key other (l : list (string * Storage.Message)) :
  filter (λ m, Storage.chatId m = other)
    (filter (λ e, Storage.chatId e.2 ≠ key) l).*2
  = if decide (other = key) then []
    else filter (λ m, Storage.chatId m = other) l.*2.
Proof.
  rewrite !filter_snd, list_filter_filter. destruct (decide (other = key)) as [-> | Hne].
  - rewrite (filter_ext_elem _ (λ _, False)); [| tauto]. by rewrite filter_never.
  - f_equal. apply list_filter_iff. intros e. split; [tauto |].
    intros Hk. split; [done | congruence].
Qed.

(** X21. [DELETE /api/chats/:id] always answers success, also for a chat
    that is not there, and a second deletion changes nothing; afterwards the
    messages route answers the empty list for that chat (and as before for
    the others), and a chat turn that names it is answered 404 and stores
    nothing. *)
Theorem delete_chat_route (key : string) (w : World)
    (Hwf : Storage.wf (storage w)) :
  let w' := (delete_chat key w).2 in
  (delete_chat key w).1 = {| code := 200; document := Deleted |}
  ∧ get_messages key w' = {| code := 200; document := MessageList [] |}
  ∧ (∀ other, other ≠ key → get_messages other w' = get_messages other w)
  ∧ delete_chat key w' = ({| code := 200; document := Deleted |}, w')
  ∧ (∀ env req data m,
       checkRateLimit (date_now env) (clientIp req)
         (globalRateLimit w) (rateLimitMap w) = (true, m) →
       Schema.safeParse (body req) = Schema.Valid data →
       Schema.chatId data = key →
       (chat env req w').1 = {| status := 404; json := Error "Chat not found" None |}
       ∧ storage (chat env req w').2 = storage w').
Proof.
  intros w'. split; [done |].
  pose proof (deleteChat_eq key (storage w) Hwf) as Heq.
  pose proof (wf_deleteChat key (storage w) Hwf) as Hwf'.
  split; [| split; [| split]].
  - unfold get_messages, w', delete_chat. cbn [snd storage set_storage]. f_equal. f_equal.
    unfold Storage.getMessagesByChatId. rewrite Heq. simpl.
    rewrite filter_chat_dropped. by rewrite decide_True.
  - intros other Hne. unfold get_messages, w', delete_chat.
    cbn [snd storage set_storage]. f_equal. f_equal.
    unfold Storage.getMessagesByChatId. rewrite Heq. simpl.
    rewrite filter_chat_dropped. by rewrite decide_False.
  - unfold delete_chat, w', set_storage. simpl.
    by rewrite deleteChat_twice.
  - intros env req data m Hgate Hvalid <-.
    assert (chat env req w'
            = ({| status := 404; json := Error "Chat not found" None |},
               set_rateLimitMap m w')) as ->; [| done].
    unfold chat. rewrite chat_try_gate.
    cbn [globalRateLimit rateLimitMap w' delete_chat snd set_storage].
    rewrite Hgate. unfold validated. rewrite Hvalid, bind_run. simpl.
    unfold Storage.getChat. simpl. by rewrite lookup_delete_eq.
Qed.

Lemma delete_chat_route_witness :
  let w' := (Api.delete_chat "c1" Sample.world).2 in
  Api.get_messages "c1" w' = {| Api.code := 200; Api.document := Api.MessageList [] |}
  ∧ Api.delete_chat "c1" w' = ({| Api.code := 200; Api.document := Api.Deleted |}, w').
Proof.
  intros w'.
  destruct (delete_chat_route "c1" Sample.world) as (_ & Hempty & _ & Hagain & _).
  - by_computation.
  - split; [exact Hempty | exact Hagain].
Defined.

End Admin.

Section Listing.
Import Api Storage MemStorage.

Lemma filter_always {A} (P : A → Prop) `{!∀ x, Decision (P x)} (l : list A) :
  (∀ x, P x) → filter P l = l.
Proof.
  intros HP. induction l as [| x l IH]; [done |].
  by rewrite filter_cons_True, IH.
Qed.

Lemma foldl_deleteChat (listed : list Chat) (st : MemStorage) :
  wf st →
  foldl (λ st chat, deleteChat (chat_id chat) st) st listed
  = {| chats := foldl (λ m chat, delete (chat_id chat) m) (chats st) listed;
       messages := filter (λ e, chatId e.2 ∉ chat_id <$> listed) (messages st) |}.
Proof.
  revert st. induction listed as [| c listed IH]; intros st Hwf; simpl.
  - rewrite filter_always; [by destruct st | intros e; apply not_elem_of_nil].
  - rewrite IH by (by apply wf_deleteChat).
    rewrite (deleteChat_eq (chat_id c) st Hwf). simpl. f_equal.
    rewrite list_filter_filter. apply list_filter_iff. intros e.
    rewrite not_elem_of_cons. tauto.
Qed.

Lemma lookup_foldl_delete (listed : list Chat) (m : gmap string Chat) k :
  foldl (λ m chat, delete (chat_id chat) m) m listed !! k
  = if decide (k ∈ chat_id <$> listed) then None else m !! k.
Proof.
  revert m. induction listed as [| c listed IH]; intros m.
  - destruct (decide _) as [Hin |]; [by apply elem_of_nil in Hin | done].
  - cbn [foldl]. rewrite IH, fmap_cons.
    destruct (decide (k ∈ chat_id <$> listed)) as [Hin | Hnotin],
             (decide (k ∈ chat_id c :: (chat_id <$> listed))) as [Hin' | Hnotin'].
    + done.
    + exfalso. apply Hnotin', elem_of_cons. by right.
    + apply elem_of_cons in Hin' as [-> | Hin']; [apply lookup_delete_eq | done].
    + apply not_elem_of_cons in Hnotin' as [Hne _]. by apply lookup_delete_ne.
Qed.

(** The ids of a listing are the keys of the map. *)
Lemma listed_ids (listed : list Chat) (st : MemStorage) :
  lists_chats listed st → chats_keyed st →
  chat_id <$> listed ≡ₚ (map_to_list (chats st)).*1.
Proof.
  intros Hlisted Hkeyed. rewrite Hlisted.
  assert (∀ l : list (string * Chat),
            (∀ k c, (k, c) ∈ l → chat_id c = k) → chat_id <$> l.*2 = l.*1) as Hids.
  { induction l as [| [k c] l IH]; intros Hl; [done |]. rewrite !fmap_cons.
    cbn [fst snd]. f_equal.
    - apply Hl, elem_of_cons. by left.
    - apply IH. intros k' c' Hin. apply Hl, elem_of_cons. by right. }
  rewrite Hids; [done |]. intros k c Hin. apply Hkeyed.
  by apply elem_of_map_to_list.
Qed.

Lemma listed_id_iff (listed : list Chat) (st : MemStorage) k :
  lists_chats listed st → chats_keyed st →
  k ∈ chat_id <$> listed ↔ is_Some (chats st !! k).
Proof.
  intros Hlisted Hkeyed. rewrite (listed_ids listed st Hlisted Hkeyed).
  rewrite list_elem_of_fmap. split.
  - intros ([k' c] & -> & Hin). apply elem_of_map_to_list in Hin. eauto.
  - intros [c Hc]. exists (k, c). split; [done |]. by apply elem_of_map_to_list.
Qed.

(** X22. With the secret code, clear-data answers success, naming the
    data type, for every data type that has a string conversion; for one
    that has none the message of the answer cannot be built and the route
    answers 500 "Failed to clear data", nothing having been deleted.  For
    "chats" and "all" it deletes every chat, in whichever order they are
    listed, together with the messages of those chats (all messages, when
    every message belongs to an existing chat); for any other data type it
    deletes nothing.  The rate limiter is never touched. *)
Theorem clear_data_wipes (body dataType : Js.value) (listed : list Chat) (w : World)
    (Hsecret : Js.get body "secretCode" = Js.Ok (Js.Str "HYDROAI"))
    (Htype : Js.get body "dataType" = Js.Ok dataType)
    (Hlisted : lists_chats listed (storage w))
    (Hwf : Storage.wf (storage w))
    (Hkeyed : chats_keyed (storage w)) :
  ∃ w',
    post_clear_data body listed w
    = Js.Ok (match Js.to_string dataType with
             | Js.Ok what =>
                 {| code := 200;
                    document := Cleared ("Successfully cleared " +:+
                      (if strict_eq dataType "all" then "all data" else what)) |}
             | Js.Thrown _ =>
                 {| code := 500; document := Failure "Failed to clear data" |}
             end, w')
    ∧ rateLimitMap w' = rateLimitMap w
    ∧ globalRateLimit w' = globalRateLimit w
    ∧ (∀ e, Js.to_string dataType = Js.Thrown e → w' = w)
    ∧ if strict_eq dataType "chats" || strict_eq dataType "all" then
        chats (storage w') = ∅
        ∧ messages (storage w')
            = filter (λ e, chats (storage w) !! chatId e.2 = None)
                     (messages (storage w))
        ∧ (integrity (storage w) → messages (storage w') = [])
      else w' = w.
Proof.
  unfold post_clear_data, destructure. rewrite Hsecret, Htype. simpl.
  exists (set_storage
            (if strict_eq dataType "chats" || strict_eq dataType "all"
             then foldl (λ st chat, deleteChat (chat_id chat) st) (storage w) listed
             else storage w) w).
  split.
  { destruct (strict_eq dataType "all") eqn:Hall.
    - apply strict_eq_true in Hall as ->. reflexivity.
    - destruct (Js.to_string dataType); reflexivity. }
  split; [done |]. split; [done |]. split.
  { intros e He. destruct dataType; try discriminate; by destruct w. }
  destruct (strict_eq dataType "chats" || strict_eq dataType "all"); simpl.
  2:{ by destruct w. }
  rewrite (foldl_deleteChat listed (storage w) Hwf). simpl.
  assert (filter (λ e, chatId e.2 ∉ chat_id <$> listed) (messages (storage w))
          = filter (λ e, chats (storage w) !! chatId e.2 = None) (messages (storage w)))
    as ->.
  { apply list_filter_iff. intros e.
    rewrite (listed_id_iff listed (storage w) _ Hlisted Hkeyed).
    rewrite <- not_eq_None_Some. destruct (chats (storage w) !! chatId e.2); naive_solver. }
  split; [| split; [done |]].
  - apply map_eq. intros k. rewrite lookup_foldl_delete, lookup_empty.
    destruct (decide (k ∈ chat_id <$> listed)) as [| Hnotin]; [done |].
    rewrite (listed_id_iff listed (storage w) _ Hlisted Hkeyed) in Hnotin.
    by apply eq_None_not_Some.
  - intros Hint. rewrite (filter_ext_elem _ (λ _, False)); [apply filter_never |].
    intros e He. split; [| done]. intros Hnone.
    destruct (Hint e He) as [c Hc]. congruence.
Qed.

Lemma clear_data_wipes_witness :
  (∃ w',
     Api.post_clear_data
       (Js.Obj [("secretCode", Js.Str "HYDROAI"); ("dataType", Js.Str "all")])
       [Sample.chat "c2" 6; Sample.chat "c1" 5] Sample.world
     = Js.Ok ({| Api.code := 200;
                 Api.document := Api.Cleared "Successfully cleared all data" |}, w')
     ∧ Storage.chats (storage w') = ∅
     ∧ Storage.messages (storage w') = [])
  ∧ Api.post_clear_data
      (Js.Obj [("secretCode", Js.Str "HYDROAI");
               ("dataType", Js.Obj [("toString", Js.Str "chats")])])
      [Sample.chat "c2" 6; Sample.chat "c1" 5] Sample.world
    = Js.Ok ({| Api.code := 500; Api.document := Api.Failure "Failed to clear data" |},
             Sample.world).
Proof.
  split.
  - destruct (clear_data_wipes
                (Js.Obj [("secretCode", Js.Str "HYDROAI"); ("dataType", Js.Str "all")])
                (Js.Str "all") [Sample.chat "c2" 6; Sample.chat "c1" 5] Sample.world)
      as (w' & Hanswer & _ & _ & _ & Hchats & _ & Hmessages).
    + reflexivity.
    + reflexivity.
    + sample_listed.
    + by_computation.
    + sample_keyed.
    + exists w'. split; [exact Hanswer |]. split; [exact Hchats |].
      apply Hmessages. sample_integrity.
  - destruct (clear_data_wipes
                (Js.Obj [("secretCode", Js.Str "HYDROAI");
                         ("dataType", Js.Obj [("toString", Js.Str "chats")])])
                (Js.Obj [("toString", Js.Str "chats")])
                [Sample.chat "c2" 6; Sample.chat "c1" 5] Sample.world)
      as (w' & Hanswer & _ & _ & Hsame & _).
    + reflexivity.
    + reflexivity.
    + sample_listed.
    + by_computation.
    + sample_keyed.
    + rewrite Hanswer. rewrite (Hsame Js.cannot_convert); reflexivity.
Defined.

Lemma sum_list_cons (x : nat) (l : list nat) :
  sum_list (x :: l) = (x + sum_list l)%nat.
Proof. reflexivity. Qed.

Lemma foldl_lengths {A} (ls : list (list A)) (a : nat) :
  foldl (λ total l, (total + length l)%nat) a ls
  = (a + sum_list (length <$> ls))%nat.
Proof.
  revert a. induction ls as [| l ls IH]; intros a; [simpl; lia |].
  cbn [foldl]. rewrite IH, fmap_cons, sum_list_cons. lia.
Qed.

Lemma length_filter_split {A} (P Q : A → Prop)
    `{!∀ x, Decision (P x), !∀ x, Decision (Q x)} (l : list A) :
  (∀ x, P x → Q x → False) →
  length (filter (λ x, P x ∨ Q x) l)
  = (length (filter P l) + length (filter Q l))%nat.
Proof.
  intros Hdisjoint. induction l as [| x l IH]; [done |].
  rewrite !filter_cons.
  destruct (decide (P x)), (decide (Q x)), (decide (P x ∨ Q x));
    simpl; try tauto; try lia.
  exfalso. eauto.
Qed.

(** Counting chat by chat counts every message whose chat is listed. *)
Lemma count_by_chat (ids : list string) (l : list Message) :
  NoDup ids →
  sum_list ((λ k, length (filter (λ m, chatId m = k) l)) <$> ids)
  = length (filter (λ m, chatId m ∈ ids) l).
Proof.
  induction 1 as [| k ids Hk Hids IH].
  - rewrite (filter_ext_elem _ (λ _, False)); [by rewrite filter_never |].
    intros m _. split; [apply not_elem_of_nil | done].
  - rewrite fmap_cons, sum_list_cons, IH.
    rewrite <- (length_filter_split (λ m, chatId m = k) (λ m, chatId m ∈ ids));
      [| intros m -> Hin; done].
    f_equal. apply list_filter_iff. intros m. rewrite elem_of_cons. tauto.
Qed.

(** X23. With the secret code, the statistics report the number of chats
    in the store and the number of messages that belong to an existing chat,
    which is the number of all messages when every message does, whatever the
    order in which the chats are listed. *)
Theorem stats_counts (query : list (string * Js.value)) (listed : list Chat)
    (w : World)
    (Hsecret : Js.lookup_field "secretCode" query = Js.Str "HYDROAI")
    (Hlisted : lists_chats listed (storage w))
    (Hkeyed : chats_keyed (storage w)) :
  ∃ totalMessages,
    get_stats query listed w
    = {| code := 200;
         document := Stats (size (chats (storage w))) totalMessages
                          (globalRateLimit w) 1 |}
    ∧ totalMessages
        = length (filter (λ e, is_Some (chats (storage w) !! chatId e.2))
                         (messages (storage w)))
    ∧ (integrity (storage w) → totalMessages = length (messages (storage w))).
Proof.
  unfold get_stats. rewrite Hsecret. simpl.
  eexists. split.
  { do 2 f_equal. rewrite Hlisted, length_fmap. apply length_map_to_list. }
  assert (foldl (λ total msgs, (total + length msgs)%nat) 0%nat
            (List.map (λ chat, getMessagesByChatId (chat_id chat) (storage w)) listed)
          = length (filter (λ e, is_Some (chats (storage w) !! chatId e.2))
                           (messages (storage w)))) as Hcount.
  { rewrite foldl_lengths. simpl.
    transitivity (sum_list ((λ k, length (filter (λ m, chatId m = k)
                                            (messages (storage w)).*2))
                            <$> (chat_id <$> listed))).
    { clear. induction listed as [| c listed IH]; [done |].
      cbn [List.map]. rewrite !fmap_cons, !sum_list_cons, IH. f_equal.
      unfold getMessagesByChatId. by rewrite sort_by_timestamp_perm. }
    rewrite count_by_chat.
    2:{ rewrite (listed_ids listed (storage w) Hlisted Hkeyed).
        apply NoDup_fst_map_to_list. }
    rewrite filter_snd, length_fmap. f_equal.
    apply list_filter_iff. intros e.
    apply (listed_id_iff listed (storage w) _ Hlisted Hkeyed). }
  split; [exact Hcount |].
  intros Hint. rewrite Hcount.
  rewrite (filter_ext_elem _ (λ _, True)); [by rewrite filter_always |].
  intros e He. split; [done | intros _; by apply Hint].
Qed.

Lemma stats_counts_witness :
  Api.get_stats [("secretCode", Js.Str "HYDROAI")]
    [Sample.chat "c2" 6; Sample.chat "c1" 5] Sample.world
  = {| Api.code := 200; Api.document := Api.Stats 2 3 3 1 |}.
Proof.
  destruct (stats_counts [("secretCode", Js.Str "HYDROAI")]
              [Sample.chat "c2" 6; Sample.chat "c1" 5] Sample.world)
    as (total & Hstats & _ & Htotal).
  - reflexivity.
  - sample_listed.
  - sample_keyed.
  - rewrite Hstats, Htotal; [reflexivity | sample_integrity].
Defined.

End Listing.

Section SchemaFacts.
Import Schema Payload.

Lemma parse_string_valid p v s : parse_string p v = Valid s ↔ v = Js.Str s.
Proof. destruct v; simpl; split; intros H; by simplify_eq. Qed.

Lemma parse_role_valid p v r : parse_role p v = Valid r ↔ v = Js.Str (role_name r).
Proof.
  destruct v as [| | | | s | |]; simpl; try (split; intros H; by simplify_eq).
  destruct (String.eqb_spec s "user") as [-> | Huser].
  { split; intros H; simplify_eq; [done |]. by destruct r. }
  destruct (String.eqb_spec s "assistant") as [-> | Hassistant].
  { split; intros H; simplify_eq; [done |]. by destruct r. }
  split; [done |]. intros [= ->]. by destruct r.
Qed.

Lemma parse_optional_string_valid p v o :
  parse_optional_string p v = Valid o
  ↔ v = match o with Some s => Js.Str s | None => Js.Undefined end.
Proof.
  destruct v, o; simpl; split; intros H; by simplify_eq.
Qed.

Lemma parse_message_valid p v msg : parse_message p v = Valid msg ↔ encodes v msg.
Proof.
  unfold encodes. destruct v as [| | | | | | fields]; simpl;
    try (split; [done | by intros (? & ? & _)]).
  destruct (parse_role _ _) as [r |] eqn:Hrole.
  - apply parse_role_valid in Hrole.
    destruct (parse_string _ _) as [c |] eqn:Hcontent.
    + apply parse_string_valid in Hcontent. split.
      * intros [= <-]. by exists fields.
      * intros (? & [= <-] & Hr & Hc). destruct msg as [r' c']. simpl in *.
        rewrite Hrole in Hr. rewrite Hcontent in Hc. simplify_eq.
        f_equal. f_equal. by destruct r, r'.
    + split; [done |]. intros (? & [= <-] & _ & Hc).
      apply (parse_string_valid (p ++ [Key "content"])) in Hc. congruence.
  - split; [done |]. intros (? & [= <-] & Hr & _).
    apply (parse_role_valid (p ++ [Key "role"])) in Hr. congruence.
Qed.

Lemma parse_items_valid p i items msgs :
  parse_items p i items = Valid msgs ↔ Forall2 encodes items msgs.
Proof.
  revert i msgs. induction items as [| x items IH]; intros i msgs; simpl.
  - split; [by intros [= <-]; constructor | by intros ->%Forall2_nil_inv_l].
  - destruct (parse_message _ x) as [m |] eqn:Hm.
    + apply parse_message_valid in Hm.
      destruct (parse_items p (S i) items) as [ms |] eqn:Hms.
      * apply IH in Hms. split.
        -- intros [= <-]. by constructor.
        -- intros (m' & ms' & Hm' & Hms' & ->)%Forall2_cons_inv_l.
           apply (parse_message_valid (p ++ [Index i])) in Hm, Hm'.
           apply (IH (S i)) in Hms, Hms'. congruence.
      * split; [done |].
        intros (m' & ms' & _ & Hms' & ->)%Forall2_cons_inv_l.
        apply (IH (S i)) in Hms'. congruence.
    + split; [done |].
      intros (m' & ms' & Hm' & _ & ->)%Forall2_cons_inv_l.
      apply (parse_message_valid (p ++ [Index i])) in Hm'. congruence.
Qed.

(** X24. The chat request schema accepts exactly the objects whose
    [chatId] is a string, whose [messages] is an array of objects with a
    [role] of "user" or "assistant" and a string [content], and whose [model]
    is absent or a string; the parsed data are those values, every other key
    of the body being ignored. *)
Theorem safeParse_accepts (body : Js.value) (data : ChatRequest) :
  safeParse body = Valid data
  ↔ ∃ fields items,
      body = Js.Obj fields
      ∧ Js.lookup_field "chatId" fields = Js.Str (chatId data)
      ∧ Js.lookup_field "messages" fields = Js.Arr items
      ∧ Forall2 encodes items (messages data)
      ∧ Js.lookup_field "model" fields
          = match model data with Some s => Js.Str s | None => Js.Undefined end.
Proof.
  destruct body as [| | | | | | fields]; simpl;
    try (split; [done | by intros (? & ? & ? & _)]).
  destruct (parse_string _ _) as [c |] eqn:Hc.
  2:{ split; [done |]. intros (? & items & [= <-] & Hc' & _).
      apply (parse_string_valid [Key "chatId"]) in Hc'. congruence. }
  apply parse_string_valid in Hc.
  destruct (parse_array _ _) as [ms |] eqn:Hms.
  2:{ split; [done |]. intros (? & items & [= <-] & _ & Hitems & Hall & _).
      unfold parse_array in Hms. rewrite Hitems in Hms.
      apply (parse_items_valid [Key "messages"] 0) in Hall. congruence. }
  destruct (parse_optional_string _ _) as [o |] eqn:Ho.
  2:{ split; [done |]. intros (? & items & [= <-] & _ & _ & _ & Hmodel).
      apply (parse_optional_string_valid [Key "model"]) in Hmodel. congruence. }
  apply parse_optional_string_valid in Ho.
  unfold parse_array in Hms.
  destruct (Js.lookup_field "messages" fields) as [| | | | | items |] eqn:Hitems;
    try discriminate.
  apply parse_items_valid in Hms.
  split.
  - intros [= <-]. by exists fields, items.
  - intros (? & items' & [= <-] & Hc' & Hitems' & Hall & Hmodel).
    destruct data as [c' ms' o']. simpl in *.
    rewrite Hc in Hc'. rewrite Ho in Hmodel. simplify_eq.
    apply (parse_items_valid [Key "messages"] 0) in Hms, Hall.
    assert (o = o') as -> by (destruct o, o'; by simplify_eq).
    congruence.
Qed.

Lemma safeParse_accepts_witness :
  Schema.safeParse
    (Js.Obj [("provider", Js.Str "gemini"); ("chatId", Js.Str "c1");
             ("messages", Js.Arr [Example.message "user" "hello"])])
  = Schema.Valid
      {| Schema.chatId := "c1";
         Schema.messages := [{| Schema.role := user; Schema.content := "hello" |}];
         Schema.model := None |}.
Proof.
  apply safeParse_accepts.
  eexists _, [Example.message "user" "hello"].
  split; [reflexivity |]. split; [reflexivity |]. split; [reflexivity |].
  split; [| reflexivity].
  constructor; [| constructor].
  eexists. split; [reflexivity |]. split; reflexivity.
Defined.

Lemma errors_string p v errors : parse_string p v = Invalid errors → errors ≠ [].
Proof. destruct v; simpl; by intros [= <-]. Qed.

Lemma errors_role p v errors : parse_role p v = Invalid errors → errors ≠ [].
Proof. destruct v; simpl; repeat case_match; by intros [= <-]. Qed.

Lemma errors_optional_string p v errors :
  parse_optional_string p v = Invalid errors → errors ≠ [].
Proof. destruct v; simpl; by intros [= <-]. Qed.

Lemma errors_app (e1 e2 : list ZodIssue) : e1 ≠ [] ∨ e2 ≠ [] → e1 ++ e2 ≠ [].
Proof. intros [H | H] Happ; apply app_eq_nil in Happ as [? ?]; by subst. Qed.

Ltac some_error :=
  simpl; rewrite ?app_nil_r;
  first [ assumption
        | apply errors_app; first [ left; assumption | right; some_error ] ].

Lemma errors_message p v errors : parse_message p v = Invalid errors → errors ≠ [].
Proof.
  destruct v; simpl; try (by intros [= <-]).
  destruct (parse_role _ _) eqn:Hr, (parse_string _ _) eqn:Hs;
    try done; intros [= <-];
    try apply errors_role in Hr; try apply errors_string in Hs; some_error.
Qed.

Lemma errors_items p i items errors :
  parse_items p i items = Invalid errors → errors ≠ [].
Proof.
  revert i errors. induction items as [| x items IH]; intros i errors; simpl; [done |].
  destruct (parse_message _ x) as [m | es] eqn:Hm,
           (parse_items p (S i) items) as [ms | es'] eqn:Hms;
    try done; intros [= <-];
    try apply errors_message in Hm; try apply IH in Hms; some_error.
Qed.

Lemma errors_array p v errors : parse_array p v = Invalid errors → errors ≠ [].
Proof.
  destruct v; simpl; try (by intros [= <-]). apply errors_items.
Qed.

(** X25. A request the schema rejects always comes with at least one
    validation issue. *)
Theorem safeParse_rejects (body : Js.value) (errors : list ZodIssue)
    (Hinvalid : safeParse body = Invalid errors) :
  errors ≠ [].
Proof.
  destruct body as [| | | | | | fields]; simpl in Hinvalid;
    try (by injection Hinvalid as <-).
  destruct (parse_string _ _) as [c | e1] eqn:Hc,
           (parse_array _ _) as [ms | e2] eqn:Hms,
           (parse_optional_string _ _) as [o | e3] eqn:Ho;
    try done; injection Hinvalid as <-;
    try apply errors_string in Hc; try apply errors_array in Hms;
    try apply errors_optional_string in Ho; some_error.
Qed.

Lemma safeParse_rejects_witness :
  [{| Schema.code := Schema.invalid_type; Schema.path := [Schema.Key "chatId"] |};
   {| Schema.code := Schema.invalid_type; Schema.path := [Schema.Key "messages"] |}]
  ≠ [].
Proof.
  apply (safeParse_rejects (Js.Obj [("model", Js.Str "gpt-4o")])).
  reflexivity.
Defined.

End SchemaFacts.

Section ClientFacts.
Import Client.

(** X26. The age shown under a message: "Just now" below one minute
    (timestamps in the future included), "Nm ago" with N from 1 to 59 for the
    whole minutes elapsed, "Nh ago" with N from 1 to 23 for the whole hours
    elapsed, and the date and time from 24 hours on. *)
Theorem formatTime_buckets (now timestamp : Z) :
  match formatTime now timestamp with
  | JustNow => now - timestamp < 60000
  | MinutesAgo n =>
      1 ≤ n ≤ 59 ∧ n * 60000 ≤ now - timestamp < (n + 1) * 60000
  | HoursAgo h =>
      1 ≤ h ≤ 23 ∧ h * 3600000 ≤ now - timestamp < (h + 1) * 3600000
  | LocaleDateTime t => t = timestamp ∧ 86400000 ≤ now - timestamp
  | DaysAgo _ | LocaleDate _ => False
  end.
Proof.
  unfold formatTime, floor_div.
  change (1000 * 60) with 60000.
  pose proof (Z.div_mod (now - timestamp) 60000 ltac:(lia)) as Hmin.
  pose proof (Z.mod_pos_bound (now - timestamp) 60000 ltac:(lia)) as Hrem.
  set (minutes := (now - timestamp) / 60000) in *.
  pose proof (Z.div_mod minutes 60 ltac:(lia)) as Hhour.
  pose proof (Z.mod_pos_bound minutes 60 ltac:(lia)) as Hrem'.
  destruct (Z.ltb_spec minutes 1); [lia |].
  destruct (Z.ltb_spec minutes 60); [lia |].
  destruct (Z.ltb_spec minutes 1440); [| lia].
  set (hours := minutes / 60) in *. lia.
Qed.

(** X27. The age shown for a chat in the sidebar: "Just now" below one
    hour, "Nh ago" with N from 1 to 23, "Nd ago" with N from 1 to 6 for the
    whole days elapsed, and the date from 7 days on. *)
Theorem formatTimeAgo_buckets (now date : Z) :
  match formatTimeAgo now date with
  | JustNow => now - date < 3600000
  | HoursAgo h =>
      1 ≤ h ≤ 23 ∧ h * 3600000 ≤ now - date < (h + 1) * 3600000
  | DaysAgo d =>
      1 ≤ d ≤ 6 ∧ d * 86400000 ≤ now - date < (d + 1) * 86400000
  | LocaleDate t => t = date ∧ 7 * 86400000 ≤ now - date
  | MinutesAgo _ | LocaleDateTime _ => False
  end.
Proof.
  unfold formatTimeAgo, floor_div.
  change (1000 * 60 * 60) with 3600000.
  pose proof (Z.div_mod (now - date) 3600000 ltac:(lia)) as Hhour.
  pose proof (Z.mod_pos_bound (now - date) 3600000 ltac:(lia)) as Hrem.
  set (hours := (now - date) / 3600000) in *.
  pose proof (Z.div_mod hours 24 ltac:(lia)) as Hday.
  pose proof (Z.mod_pos_bound hours 24 ltac:(lia)) as Hrem'.
  set (days := hours / 24) in *.
  destruct (Z.ltb_spec hours 1); [lia |].
  destruct (Z.ltb_spec hours 24); [lia |].
  destruct (Z.ltb_spec days 7); lia.
Qed.

End ClientFacts.
